(** * Creative Agent: the JSON extractor, the chain steps, the presenter
      and the Streamlit orchestrator

    A shallow embedding of [utils.py], [chain.py] and [app.py].

    - Python [str] values are sequences of Unicode code points: [str] is
      [list N].
    - [json.loads] follows CPython's scanner ([json.decoder] with the C
      accelerator): whitespace is space, tab, newline and carriage
      return; integers are unbounded; a float keeps the text it was read
      from, since floating-point arithmetic plays no role here.  The
      interpreter's limits (recursion depth, digits of an integer
      literal) are not part of the model.
    - [re.search] is a backtracking matcher over the two patterns of
      [parse_json_str], with greedy and lazy repetition as in [sre].
    - Exceptions are values of [exn]; a function that can raise returns
      [result].  Streamlit calls, the client set-up and the model calls
      are events of a trace, and a piece of the script is an [io]
      computation: its events and how it ends.
    - The model behind [generate_content], the clock behind
      [get_current_context], the secrets and the environment are inputs. *)

From Stdlib Require Import NArith ZArith List String Ascii Lia Bool.
From stdpp Require Import base option list gmap.

Set Default Proof Using "Type".
Set Warnings "-register-all".

(** ** Text *)

Module Text.

Abbreviation char := N.
Abbreviation str := (list N).

(** An ASCII literal as a Python string. *)
Definition lit (s : string) : str :=
  List.map N_of_ascii (list_ascii_of_string s).

(** The same, with every apostrophe read as a double quote: JSON
    examples are written ['key'] for ["key"]. *)
Definition js (s : string) : str :=
  List.map (fun c => if (c =? 39)%N then 34%N else c) (lit s).

Definition newline : char := 10%N.
Definition lbrace : char := 123%N.
Definition rbrace : char := 125%N.
Definition backtick : char := 96%N.

Definition str_eqb (a b : str) : bool := bool_decide (a = b).

(** [Py_UNICODE_ISSPACE]: the characters [str.strip()] removes and the
    regular-expression class [\s] accepts on [str] patterns. *)
Definition isspace (c : char) : bool :=
  ((9 <=? c) && (c <=? 13) || (28 <=? c) && (c <=? 32)
   || (c =? 133) || (c =? 160) || (c =? 5760)
   || (8192 <=? c) && (c <=? 8202)
   || (c =? 8232) || (c =? 8233) || (c =? 8239) || (c =? 8287)
   || (c =? 12288))%N.

Fixpoint lstrip (s : str) : str :=
  match s with
  | c :: r => if isspace c then lstrip r else s
  | [] => []
  end.

Definition rstrip (s : str) : str := rev (lstrip (rev s)).

(** [s.strip()] *)
Definition strip (s : str) : str := rstrip (lstrip s).

(** [sep.join(parts)] *)
Fixpoint join (sep : str) (parts : list str) : str :=
  match parts with
  | [] => []
  | [p] => p
  | p :: ps => p ++ sep ++ join sep ps
  end.

(** [s.upper()] on the ASCII letters; case mapping outside ASCII is
    left out.  The only strings whose upper case is "A", "B" or "C" are
    those letters in either case, so the lookups of these three keys in
    the presenter are not affected. *)
Definition upper_char (c : char) : char :=
  if ((97 <=? c) && (c <=? 122))%N then (c - 32)%N else c.

Definition upper (s : str) : str := List.map upper_char s.

(** [s.startswith(p)] *)
Fixpoint prefix_ofb (p s : str) : bool :=
  match p, s with
  | [], _ => true
  | a :: p', b :: s' => (a =? b)%N && prefix_ofb p' s'
  | _ :: _, [] => false
  end.

(** [needle in s] *)
Fixpoint contains (needle s : str) : bool :=
  prefix_ofb needle s ||
  match s with
  | [] => false
  | _ :: s' => contains needle s'
  end.

End Text.
Export Text.

(** ** JSON values and [json.loads] *)

Module Json.

Inductive json :=
| JNull
| JBool (b : bool)
| JInt (z : Z)
| JFloat (lexeme : str)
| JStr (s : str)
| JArr (items : list json)
| JObj (pairs : list (str * json)).

(** [d[k] = v] on a dict kept as an association list in insertion
    order: an existing key keeps its place and takes the new value. *)
Fixpoint dict_set (d : list (str * json)) (k : str) (v : json) :
  list (str * json) :=
  match d with
  | [] => [(k, v)]
  | (k', v') :: d' =>
      if str_eqb k' k then (k, v) :: d' else (k', v') :: dict_set d' k v
  end.

(** [dict(pairs)] *)
Definition dict_of_pairs (pairs : list (str * json)) : list (str * json) :=
  fold_left (fun d kv => dict_set d (fst kv) (snd kv)) pairs [].

(** [d.get(k)] *)
Fixpoint dict_get (d : list (str * json)) (k : str) : option json :=
  match d with
  | [] => None
  | (k', v) :: d' => if str_eqb k' k then Some v else dict_get d' k
  end.

(** Outcome of a scanner: a value and the unread text, a decode error,
    or recursion budget exhausted (never the case in [loads], see
    [loads_fuel_enough]). *)
Inductive scan (A : Type) :=
| Scanned (a : A) (rest : str)
| DecodeError
| OutOfFuel.
Arguments Scanned {A} a rest.
Arguments DecodeError {A}.
Arguments OutOfFuel {A}.

Section Scanner.
Local Open Scope N_scope.

(** [WHITESPACE = re.compile(r'[ \t\n\r]*')] *)
Definition is_json_ws (c : char) : bool :=
  (c =? 32) || (c =? 9) || (c =? 10) || (c =? 13).

Fixpoint skip_ws (s : str) : str :=
  match s with
  | c :: r => if is_json_ws c then skip_ws r else s
  | [] => []
  end.

Definition is_digit (c : char) : bool := (48 <=? c) && (c <=? 57).

Definition hex_val (c : char) : option N :=
  if (48 <=? c) && (c <=? 57) then Some (c - 48)
  else if (97 <=? c) && (c <=? 102) then Some (c - 87)
  else if (65 <=? c) && (c <=? 70) then Some (c - 55)
  else None.

(** Four hexadecimal digits of a [\uXXXX] escape. *)
Definition hex4 (a b c d : char) : option N :=
  match hex_val a, hex_val b, hex_val c, hex_val d with
  | Some x, Some y, Some z, Some w => Some (((x * 16 + y) * 16 + z) * 16 + w)
  | _, _, _, _ => None
  end.

Definition simple_escape (c : char) : option char :=
  if c =? 34 then Some 34          (* quote *)
  else if c =? 92 then Some 92     (* backslash *)
  else if c =? 47 then Some 47     (* slash *)
  else if c =? 98 then Some 8      (* b *)
  else if c =? 102 then Some 12    (* f *)
  else if c =? 110 then Some 10    (* n *)
  else if c =? 114 then Some 13    (* r *)
  else if c =? 116 then Some 9     (* t *)
  else None.

(** [scanstring] in strict mode, started after the opening quote: the
    decoded string and the text after the closing quote.  A high
    surrogate followed by an escaped low surrogate is one code point. *)
Fixpoint scanstring (s : str) (acc : str) : option (str * str) :=
  match s with
  | [] => None
  | c :: r =>
      if c =? 34 then Some (rev acc, r)
      else if c =? 92 then
        match r with
        | [] => None
        | e :: r1 =>
            if e =? 117 then
              match r1 with
              | a :: b :: c1 :: d :: r2 =>
                  match hex4 a b c1 d with
                  | None => None
                  | Some u =>
                      if (55296 <=? u) && (u <=? 56319) then
                        match r2 with
                        | b1 :: u1 :: a2 :: b2 :: c2 :: d2 :: r3 =>
                            if (b1 =? 92) && (u1 =? 117) then
                              match hex4 a2 b2 c2 d2 with
                              | Some u2 =>
                                  if (56320 <=? u2) && (u2 <=? 57343) then
                                    scanstring r3
                                      ((65536 + (u - 55296) * 1024
                                        + (u2 - 56320)) :: acc)
                                  else scanstring r2 (u :: acc)
                              | None => scanstring r2 (u :: acc)
                              end
                            else scanstring r2 (u :: acc)
                        | _ => scanstring r2 (u :: acc)
                        end
                      else scanstring r2 (u :: acc)
                  end
              | _ => None
              end
            else
              match simple_escape e with
              | Some x => scanstring r1 (x :: acc)
              | None => None
              end
        end
      else if c <? 32 then None
      else scanstring r (c :: acc)
  end.

Fixpoint span_digits (s : str) : str * str :=
  match s with
  | c :: r =>
      if is_digit c then let (ds, r') := span_digits r in (c :: ds, r')
      else ([], s)
  | [] => ([], [])
  end.

Definition digits_value (ds : str) : Z :=
  fold_left (fun a c => (a * 10 + Z.of_N (c - 48))%Z) ds 0%Z.

(** The integer part of [NUMBER_RE], an optional minus sign and then
    either a single 0 or a nonzero digit and more digits: sign, digits,
    unread text. *)
Definition match_int (s : str) : option (bool * str * str) :=
  let (neg, s1) :=
    match s with
    | c :: r => if c =? 45 then (true, r) else (false, s)
    | [] => (false, s)
    end in
  match s1 with
  | c :: r =>
      if c =? 48 then Some (neg, [c], r)
      else if is_digit c then
        let (ds, r') := span_digits r in Some (neg, c :: ds, r')
      else None
  | [] => None
  end.

(** The optional fraction [(\.[0-9]+)?]. *)
Definition match_frac (s : str) : str * str :=
  match s with
  | c :: r =>
      if c =? 46 then
        match span_digits r with
        | ([], _) => ([], s)
        | (ds, r') => (c :: ds, r')
        end
      else ([], s)
  | [] => ([], s)
  end.

(** The optional exponent [([eE][-+]?[0-9]+)?]. *)
Definition match_exp (s : str) : str * str :=
  match s with
  | c :: r =>
      if (c =? 101) || (c =? 69) then
        let (sign, r1) :=
          match r with
          | g :: r0 => if (g =? 45) || (g =? 43) then ([g], r0) else ([], r)
          | [] => ([], r)
          end in
        match span_digits r1 with
        | ([], _) => ([], s)
        | (ds, r') => (c :: sign ++ ds, r')
        end
      else ([], s)
  | [] => ([], s)
  end.

Definition match_number (s : str) : option (json * str) :=
  match match_int s with
  | None => None
  | Some (neg, ds, r) =>
      let (frac, r1) := match_frac r in
      let (ex, r2) := match_exp r1 in
      match frac, ex with
      | [], [] =>
          Some (JInt (if neg then (- digits_value ds)%Z else digits_value ds),
                r2)
      | _, _ =>
          Some (JFloat ((if neg then [45] else []) ++ ds ++ frac ++ ex), r2)
      end
  end.

(** [s[idx:idx+len(w)] == w], giving the text after [w]. *)
Fixpoint strip_prefix (w s : str) : option str :=
  match w, s with
  | [], _ => Some s
  | a :: w', b :: s' => if a =? b then strip_prefix w' s' else None
  | _ :: _, [] => None
  end.

Definition keyword (w : string) (v : json) (s : str) : option (json * str) :=
  match strip_prefix (lit w) s with
  | Some r => Some (v, r)
  | None => None
  end.

(** The branches of [_scan_once] after string, object and array. *)
Definition scan_atom (s : str) : scan json :=
  let try (o : option (json * str)) (k : scan json) : scan json :=
    match o with
    | Some (v, r) => Scanned v r
    | None => k
    end in
  try (keyword "null" JNull s)
  (try (keyword "true" (JBool true) s)
  (try (keyword "false" (JBool false) s)
  (try (match_number s)
  (try (keyword "NaN" (JFloat (lit "NaN")) s)
  (try (keyword "Infinity" (JFloat (lit "Infinity")) s)
  (try (keyword "-Infinity" (JFloat (lit "-Infinity")) s)
   DecodeError)))))).

(** The loop of [JSONArray] after the first value position is reached:
    value, then a closing bracket or a comma. *)
Fixpoint array_items (scan_once : str -> scan json) (n : nat) (s : str)
    (acc : list json) : scan json :=
  match n with
  | O => OutOfFuel
  | S n' =>
      match scan_once s with
      | Scanned v r =>
          match skip_ws r with
          | c :: r1 =>
              if c =? 93 then Scanned (JArr (rev (v :: acc))) r1
              else if c =? 44 then
                array_items scan_once n' (skip_ws r1) (v :: acc)
              else DecodeError
          | [] => DecodeError
          end
      | DecodeError => DecodeError
      | OutOfFuel => OutOfFuel
      end
  end.

(** [JSONArray], started after the opening bracket. *)
Definition JSONArray (scan_once : str -> scan json) (n : nat) (s : str) :
  scan json :=
  match skip_ws s with
  | c :: r =>
      if c =? 93 then Scanned (JArr []) r
      else array_items scan_once n (c :: r) []
  | [] => DecodeError
  end.

(** The loop of [JSONObject], started after the quote that opens a
    key: key, colon, value, then a closing brace or a comma and the
    quote of the next key. *)
Fixpoint object_items (scan_once : str -> scan json) (n : nat) (s : str)
    (acc : list (str * json)) : scan json :=
  match n with
  | O => OutOfFuel
  | S n' =>
      match scanstring s [] with
      | None => DecodeError
      | Some (key, r) =>
          match skip_ws r with
          | c :: r1 =>
              if c =? 58 then
                match scan_once (skip_ws r1) with
                | Scanned v r2 =>
                    match skip_ws r2 with
                    | d :: r3 =>
                        if d =? 125 then
                          Scanned (JObj (dict_of_pairs (rev ((key, v) :: acc))))
                                  r3
                        else if d =? 44 then
                          match skip_ws r3 with
                          | q :: r4 =>
                              if q =? 34 then
                                object_items scan_once n' r4 ((key, v) :: acc)
                              else DecodeError
                          | [] => DecodeError
                          end
                        else DecodeError
                    | [] => DecodeError
                    end
                | DecodeError => DecodeError
                | OutOfFuel => OutOfFuel
                end
              else DecodeError
          | [] => DecodeError
          end
      end
  end.

(** [JSONObject], started after the opening brace. *)
Definition JSONObject (scan_once : str -> scan json) (n : nat) (s : str) :
  scan json :=
  match skip_ws s with
  | c :: r =>
      if c =? 125 then Scanned (JObj []) r
      else if c =? 34 then object_items scan_once n r []
      else DecodeError
  | [] => DecodeError
  end.

(** [_scan_once]: one JSON value at the head of [s]. *)
Fixpoint scan_once (fuel : nat) (s : str) : scan json :=
  match fuel with
  | O => OutOfFuel
  | S f =>
      match s with
      | [] => DecodeError
      | c :: r =>
          if c =? 34 then
            match scanstring r [] with
            | Some (v, r') => Scanned (JStr v) r'
            | None => DecodeError
            end
          else if c =? 123 then JSONObject (scan_once f) f r
          else if c =? 91 then JSONArray (scan_once f) f r
          else scan_atom s
      end
  end.

(** [json.loads(s)]: leading whitespace, one value, trailing
    whitespace, end of text.  [None] is any [JSONDecodeError].  The
    bounds of the interpreter (the depth of recursion, the number of
    digits it converts to an integer) are not part of it. *)
Definition loads (s : str) : option json :=
  let s0 := skip_ws s in
  match scan_once (S (length s0)) s0 with
  | Scanned v r => match skip_ws r with [] => Some v | _ :: _ => None end
  | DecodeError => None
  | OutOfFuel => None
  end.

End Scanner.

(** The text of a float lexeme before its exponent mark, and after. *)
Fixpoint split_exponent (s : str) : str * str :=
  match s with
  | c :: r =>
      if ((c =? 101) || (c =? 69))%N then ([], r)
      else let (m, e) := split_exponent r in (c :: m, e)
  | [] => ([], [])
  end.

(** The digits after the decimal point. *)
Fixpoint fraction_digits (s : str) : str :=
  match s with
  | c :: r => if (c =? 46)%N then List.filter is_digit r else fraction_digits r
  | [] => []
  end.

(** The signed number after the exponent mark, 0 when there is none. *)
Definition exponent_value (s : str) : Z :=
  match s with
  | c :: r =>
      if (c =? 45)%N then (- digits_value r)%Z
      else if (c =? 43)%N then digits_value r
      else digits_value s
  | [] => 0%Z
  end.

(** [x == 0.0] for the float [x] that [float(lexeme)] gives.  The
    lexeme stands for [m * 10 ^ e], sign apart, [m] being its digits
    before the exponent mark and [e] its exponent less the number of
    fraction digits.  The float is zero when [m] is, and also when the
    number is at most [2 ^ -1075], half the smallest positive float:
    the conversion rounds to nearest, ties to even.  [NaN] and the
    infinities, which have no digit, are not zero. *)
Definition float_is_zero (lexeme : str) : bool :=
  let (mantissa, exponent) := split_exponent lexeme in
  let m := digits_value (List.filter is_digit mantissa) in
  let e :=
    (exponent_value exponent
     - Z.of_nat (length (fraction_digits mantissa)))%Z in
  existsb is_digit mantissa
  && ((m =? 0)%Z
      || ((e <? 0)%Z && (m * 2 ^ 1075 <=? 10 ^ (- e))%Z)).

(** [bool(v)] *)

Definition truthy (v : json) : bool :=
  match v with
  | JNull => false
  | JBool b => b
  | JInt z => negb (z =? 0)%Z
  | JFloat lx => negb (float_is_zero lx)
  | JStr s => match s with [] => false | _ => true end
  | JArr l => match l with [] => false | _ => true end
  | JObj d => match d with [] => false | _ => true end
  end.

(** [type(v).__name__] *)
Definition type_name (v : json) : str :=
  match v with
  | JNull => lit "NoneType"
  | JBool _ => lit "bool"
  | JInt _ => lit "int"
  | JFloat _ => lit "float"
  | JStr _ => lit "str"
  | JArr _ => lit "list"
  | JObj _ => lit "dict"
  end.

End Json.
Export Json.


(** ** Regular expressions: [re.search] *)

Module Re.

(** The constructs the two patterns of [parse_json_str] use.  A
    repetition is over a single-character class, as it is in both. *)
Inductive regex :=
| RChar (p : char -> bool)          (* one character of a class *)
| RSeq (a b : regex)                (* a then b *)
| ROpt (a : regex)                  (* a?   greedy *)
| RStar (p : char -> bool)          (* [p]*  greedy *)
| RLazy (p : char -> bool)          (* [p]*? lazy *)
| RGroup (a : regex).               (* capturing group 1 *)

Section Matcher.
Context {R : Type}.

(** Greedy repetition: take as many characters as possible, then give
    them back one at a time until the rest of the pattern matches. *)
Fixpoint star_greedy (p : char -> bool) (s : str) (k : str -> option R) :
  option R :=
  match s with
  | c :: s' =>
      if p c then
        match star_greedy p s' k with
        | Some r => Some r
        | None => k s
        end
      else k s
  | [] => k s
  end.

(** Lazy repetition: try the rest of the pattern first, take one more
    character only when it fails. *)
Fixpoint star_lazy (p : char -> bool) (s : str) (k : str -> option R) :
  option R :=
  match k s with
  | Some r => Some r
  | None =>
      match s with
      | c :: s' => if p c then star_lazy p s' k else None
      | [] => None
      end
  end.

(** Backtracking match of [r] at the head of [s]; [g] is the text of
    group 1 so far and [k] the rest of the pattern. *)
Fixpoint rmatch (r : regex) (s : str) (g : option str)
    (k : str -> option str -> option R) : option R :=
  match r with
  | RChar p =>
      match s with
      | c :: s' => if p c then k s' g else None
      | [] => None
      end
  | RSeq a b => rmatch a s g (fun s' g' => rmatch b s' g' k)
  | ROpt a =>
      match rmatch a s g k with
      | Some x => Some x
      | None => k s g
      end
  | RStar p => star_greedy p s (fun s' => k s' g)
  | RLazy p => star_lazy p s (fun s' => k s' g)
  | RGroup a =>
      rmatch a s g
        (fun s' _ => k s' (Some (take (length s - length s') s)))
  end.

End Matcher.

(** A match object: [m.start()], [m.group(0)], [m.group(1)]. *)
Record rematch := {
  m_start : nat;
  group0 : str;
  group1 : option str
}.

Definition match_here (r : regex) (pos : nat) (s : str) : option rematch :=
  rmatch r s None
    (fun s' g =>
       Some {| m_start := pos;
               group0 := take (length s - length s') s;
               group1 := g |}).

(** [re.search(r, s)]: the match at the leftmost position that has
    one. *)
Fixpoint search_from (r : regex) (pos : nat) (s : str) : option rematch :=
  match match_here r pos s with
  | Some m => Some m
  | None =>
      match s with
      | [] => None
      | _ :: s' => search_from r (S pos) s'
      end
  end.

Definition re_search (r : regex) (s : str) : option rematch :=
  search_from r 0 s.

Definition is_char (c0 : char) : char -> bool := fun c => (c =? c0)%N.

(** [[\s\S]] *)
Definition any_char : char -> bool := fun _ => true.

(** A literal letter under [re.IGNORECASE]: the characters whose
    lowercase is the letter or one of its case-folding equivalents. *)
Definition letter_ci (cs : list char) : char -> bool :=
  fun c => existsb (N.eqb c) cs.

Fixpoint rseq (rs : list regex) (last : regex) : regex :=
  match rs with
  | [] => last
  | r :: rs' => RSeq r (rseq rs' last)
  end.

End Re.
Export Re.

(** ** [utils.py] *)

Module Utils.

Inductive exn :=
| ValueError (msg : str)
| AttributeError (msg : str)
| ModelError (msg : str).

Inductive result (A : Type) :=
| Ok (a : A)
| Raise (e : exn).
Arguments Ok {A} a.
Arguments Raise {A} e.

(** Sequencing: an exception ends the computation. *)
#[global] Instance result_ret : MRet result := fun A a => Ok a.
#[global] Instance result_bind : MBind result := fun A B f m =>
  match m with
  | Ok a => f a
  | Raise e => Raise e
  end.

(** [str(e)] *)
Definition exn_str (e : exn) : str :=
  match e with
  | ValueError m => m
  | AttributeError m => m
  | ModelError m => m
  end.

Definition DEFAULT_AUDIENCE : str := lit "People in Riyadh, Saudi Arabia".

(** The pattern of the fenced block: three backticks, an optional
    [json] in any case, whitespace, the block (group 1, as short as
    possible), whitespace, three backticks. *)
Definition fence_re : regex :=
  let tick := RChar (is_char backtick) in
  let json_word :=
    rseq [RChar (letter_ci [106; 74]%N);        (* j J *)
          RChar (letter_ci [115; 83; 383]%N);   (* s S and long s *)
          RChar (letter_ci [111; 79]%N)]        (* o O *)
         (RChar (letter_ci [110; 78]%N)) in     (* n N *)
  rseq [tick; tick; tick; ROpt json_word; RStar isspace;
        RGroup (RLazy any_char); RStar isspace; tick; tick] tick.

(** The pattern of the brace-delimited block: an opening brace, as
    many characters as possible, a closing brace. *)
Definition object_re : regex :=
  rseq [RChar (is_char lbrace); RStar any_char] (RChar (is_char rbrace)).

(** The three attempts of [parse_json_str] on the stripped text; [None]
    is an attempt that did not apply or whose exception was swallowed. *)
Definition direct_attempt (text : str) : option json := loads text.

Definition fence_attempt (text : str) : option json :=
  match re_search fence_re text with
  | Some fence_match =>
      let candidate := strip (default [] (group1 fence_match)) in
      loads candidate
  | None => None
  end.

Definition object_attempt (text : str) : option json :=
  match re_search object_re text with
  | Some obj_match =>
      let candidate := group0 obj_match in
      loads candidate
  | None => None
  end.

Definition invalid_json : exn :=
  ValueError (lit "Model did not return valid JSON.").

Definition parse_json_str (text : str) : result json :=
  let text := strip text in
  match direct_attempt text with
  | Some v => Ok v
  | None =>
      match fence_attempt text with
      | Some v => Ok v
      | None =>
          match object_attempt text with
          | Some v => Ok v
          | None => Raise invalid_json
          end
      end
  end.

(** *** The outside world *)

(** A snapshot returned by [get_current_context()], which reads the
    wall clock; the snapshot is an input here. *)
Record context := {
  current_date : str;
  current_month : str;
  current_year : Z;
  season : str;
  cultural_events : list str;
  weekday : str;
  is_weekend : bool;
  context_note : str
}.

(** The dict [get_current_context()] returns. *)
Definition context_dict (c : context) : json :=
  JObj [(lit "current_date", JStr (current_date c));
        (lit "current_month", JStr (current_month c));
        (lit "current_year", JInt (current_year c));
        (lit "season", JStr (season c));
        (lit "cultural_events", JArr (List.map JStr (cultural_events c)));
        (lit "weekday", JStr (weekday c));
        (lit "is_weekend", JBool (is_weekend c));
        (lit "context_note", JStr (context_note c))].

Inductive step_name :=
| BriefNormalizer
| MarketIntelligence
| AngleGenerator
| IdeaWriter
| CriticImprove
| ComplianceCheck
| LocalizePolish.

(** One [model.generate_content] call.  The prompt of a step is a
    fixed template around [json.dumps(payload)]: it is kept as the step
    and the payload.  [temperature] is in hundredths. *)
Record request := {
  role : step_name;
  payload : json;
  temperature : N
}.

(** What the call gives back: a response whose [text] is a string or
    missing, or an exception of the client library. *)
Inductive response :=
| Response (text : option str)
| Failure (e : exn).

Definition model := request -> response.

(** Streamlit secrets and the process environment. [secret k] is
    [None] when [st.secrets.get(k)] raises. *)
Record environment := {
  secret : str -> option (option str);
  getenv : str -> option str
}.

(** What a run does to the outside, in order. *)
Inductive event :=
| StPageConfig
| StTitle (body : str)
| StCaption (body : str)
| StInfo (body : str)
| StSpinner (body : str)
| StError (body : str)
| StMarkdown (body : str)
| Configure (api_key : str)
| CreateModel (model_name : str)
| Generate (rq : request).

(** How a piece of the script ends: normally, with an exception, or by
    [st.stop()].  [st.stop()] raises Streamlit's [StopException], which
    derives from [BaseException] and so passes through
    [except Exception]. *)
Inductive flow (A : Type) :=
| Return (a : A)
| Throw (e : exn)
| Halt.
Arguments Return {A} a.
Arguments Throw {A} e.
Arguments Halt {A}.

Record io (A : Type) := IO {
  events : list event;
  outcome : flow A
}.
Arguments IO {A} events outcome.
Arguments events {A} i.
Arguments outcome {A} i.

#[global] Instance io_ret : MRet io := fun A a => IO [] (Return a).
#[global] Instance io_bind : MBind io := fun A B f m =>
  match outcome m with
  | Return a => IO (events m ++ events (f a)) (outcome (f a))
  | Throw e => IO (events m) (Throw e)
  | Halt => IO (events m) Halt
  end.

Definition emit (e : event) : io unit := IO [e] (Return tt).

Definition st_stop {A} : io A := IO [] Halt.

Definition lift {A} (r : result A) : io A :=
  match r with
  | Ok a => IO [] (Return a)
  | Raise e => IO [] (Throw e)
  end.

(** [try: body except Exception as e: handler(e)] *)
Definition try_except (body : io unit) (handler : exn -> io unit) : io unit :=
  match outcome body with
  | Throw e => IO (events body ++ events (handler e)) (outcome (handler e))
  | _ => body
  end.

(** [with st.spinner(text): body] *)
Definition spinner {A} (text : string) (body : io A) : io A :=
  emit (StSpinner (lit text));; body.

(** [a or b] on values that are a string or [None] *)
Definition py_or (a b : option str) : option str :=
  match a with
  | Some (_ :: _) => a
  | _ => b
  end.

Definition get_api_key (env : environment) : str :=
  let key :=
    match secret env (lit "GEMINI_API_KEY") with
    | Some v => v
    | None => None
    end in
  let key :=
    match key with
    | Some (_ :: _) => key
    | _ =>
        match secret env (lit "GOOGLE_API_KEY") with
        | Some v => v
        | None => key
        end
    end in
  let key :=
    match key with
    | Some (_ :: _) => key
    | _ => py_or (getenv env (lit "GEMINI_API_KEY"))
                 (getenv env (lit "GOOGLE_API_KEY"))
    end in
  default [] (py_or key (Some [])).

Definition init_genai (api_key : str) : io unit := emit (Configure api_key).

Definition create_model (gemini : model) (model_name : string) : io model :=
  emit (CreateModel (lit model_name));; mret gemini.

Definition call_gemini_json (m : model) (rq : request) : io json :=
  emit (Generate rq);;
  match m rq with
  | Failure e => lift (Raise e)
  | Response t =>
      let text := default [] (py_or t (Some [])) in
      lift (parse_json_str text)
  end.

End Utils.
Export Utils.

(** ** [chain.py] *)

Module Chain.

Definition no_attribute (v : json) (attr : string) : exn :=
  AttributeError
    (lit "'" ++ type_name v ++ lit "' object has no attribute '"
     ++ lit attr ++ lit "'").

(** [v.get(k, dflt)] *)
Definition get (v : json) (k : string) (dflt : json) : result json :=
  match v with
  | JObj d => Ok (default dflt (dict_get d (lit k)))
  | _ => Raise (no_attribute v "get")
  end.

(** [v.upper()] and [v.strip()] *)
Definition str_upper (v : json) : result str :=
  match v with
  | JStr s => Ok (upper s)
  | _ => Raise (no_attribute v "upper")
  end.

Definition str_strip (v : json) : result str :=
  match v with
  | JStr s => Ok (strip s)
  | _ => Raise (no_attribute v "strip")
  end.

Definition step_brief_normalizer (m : model)
    (product description audience tone language : str) : io json :=
  let raw_input :=
    JObj [(lit "product", JStr product);
          (lit "description", JStr description);
          (lit "audience", JStr audience);
          (lit "tone", JStr tone);
          (lit "language", JStr language)] in
  call_gemini_json m
    {| role := BriefNormalizer; payload := raw_input; temperature := 40 |}.

Definition step_market_intelligence (m : model) (current_context : context)
    (brief : json) : io json :=
  let payload :=
    JObj [(lit "brief", brief);
          (lit "current_context", context_dict current_context)] in
  call_gemini_json m
    {| role := MarketIntelligence; payload := payload; temperature := 60 |}.

Definition step_angle_generator (m : model) (current_context : context)
    (brief market_insights : json) : io json :=
  insights ← lift (get market_insights "market_insights" (JObj []));
  let payload :=
    JObj [(lit "brief", brief);
          (lit "market_insights", insights);
          (lit "current_context", context_dict current_context)] in
  call_gemini_json m
    {| role := AngleGenerator; payload := payload; temperature := 70 |}.

Definition step_idea_writer (m : model) (brief angles : json) : io json :=
  angle_list ← lift (get angles "angles" (JArr []));
  let payload := JObj [(lit "brief", brief); (lit "angles", angle_list)] in
  call_gemini_json m
    {| role := IdeaWriter; payload := payload; temperature := 85 |}.

Definition step_critic_improve (m : model) (brief ideas : json) : io json :=
  idea_list ← lift (get ideas "ideas" (JArr []));
  let payload := JObj [(lit "brief", brief); (lit "ideas", idea_list)] in
  call_gemini_json m
    {| role := CriticImprove; payload := payload; temperature := 60 |}.

Definition step_compliance_check (m : model) (brief ideas : json) : io json :=
  idea_list ← lift (get ideas "ideas" (JArr []));
  let payload := JObj [(lit "brief", brief); (lit "ideas", idea_list)] in
  call_gemini_json m
    {| role := ComplianceCheck; payload := payload; temperature := 40 |}.

Definition step_localize_polish (m : model) (brief ideas : json) : io json :=
  language ← lift (get brief "language" (JStr (lit "English")));
  tone ← lift (get brief "tone" (JStr []));
  idea_list ← lift (get ideas "ideas" (JArr []));
  let payload :=
    JObj [(lit "language", language); (lit "tone", tone);
          (lit "ideas", idea_list)] in
  call_gemini_json m
    {| role := LocalizePolish; payload := payload; temperature := 50 |}.

(** *** The presenter *)

(** The key of one idea in the dict comprehension:
    [idea.get("label", "").upper()] *)
Definition label_of (idea : json) : result str :=
  label ← get idea "label" (JStr []);
  str_upper label.

(** [{idea.get("label", "").upper(): idea for idea in ideas}], from
    the dict built so far. *)
Fixpoint by_label_from (ideas : list json) (acc : gmap str json) :
  result (gmap str json) :=
  match ideas with
  | [] => Ok acc
  | idea :: rest =>
      key ← label_of idea;
      by_label_from rest (<[key := idea]> acc)
  end.

Definition by_label_of (ideas : list json) : result (gmap str json) :=
  by_label_from ideas ∅.

(** [[by_label.get("A"), by_label.get("B"), by_label.get("C")]]
    filtered by [if i] *)
Definition ordered_of (by_label : gmap str json) : list json :=
  let ordered :=
    [by_label !! lit "A"; by_label !! lit "B"; by_label !! lit "C"] in
  omap (fun i =>
          match i with
          | Some v => if truthy v then Some v else None
          | None => None
          end) ordered.

(** [idea.get(k, "").strip()] *)
Definition field (idea : json) (k : string) : result str :=
  v ← get idea k (JStr []);
  str_strip v.

Definition compliance_section_of (compliance_notes : str) : str :=
  match compliance_notes with
  | [] => []
  | _ :: _ =>
      [newline; newline] ++ lit "*Compliance Notes: " ++ compliance_notes
      ++ lit "*"
  end.

(** The text of one section from its parts. *)
Definition section_text (label tagline script_30s ig xcap cta
    compliance_section : str) : str :=
  lit "### Option " ++ label ++ [newline]
  ++ lit "#### " ++ tagline ++ [newline; newline]
  ++ lit "> " ++ script_30s ++ [newline; newline]
  ++ lit "**Captions**" ++ [newline] ++ lit "- **IG**: " ++ ig ++ [newline]
  ++ lit "- **X**: " ++ xcap ++ [newline; newline]
  ++ lit "**CTA**: " ++ cta ++ compliance_section ++ [newline].

(** The body of the [for idea in ordered] loop. *)
Definition section_of (idea : json) : result str :=
  label ← label_of idea;
  tagline ← field idea "tagline";
  script_30s ← field idea "script_30s";
  captions ← get idea "captions" (JObj []);
  let captions := if truthy captions then captions else JObj [] in
  ig ← field captions "instagram";
  xcap ← field captions "x";
  cta ← field idea "cta";
  compliance_notes ← field idea "compliance_notes";
  let compliance_section := compliance_section_of compliance_notes in
  mret (section_text label tagline script_30s ig xcap cta compliance_section).

Definition step_final_presenter (ideas : list json) : result str :=
  by_label ← by_label_of ideas;
  let ordered := ordered_of by_label in
  sections ← mapM section_of ordered;
  mret (join [newline; newline] sections).

End Chain.
Export Chain.

(** ** [app.py] *)

Module App.

(** The values of the form widgets when the script runs. *)
Record form := {
  product : str;
  description : str;
  audience : str;
  tone : str;
  language : str;
  submitted : bool
}.

Definition is_empty (s : str) : bool :=
  match s with [] => true | _ :: _ => false end.

(** [not isinstance(v, list) or len(v) == 0] *)
Definition no_ideas (v : json) : bool :=
  match v with
  | JArr (_ :: _) => false
  | _ => true
  end.

Definition items_of (v : json) : list json :=
  match v with
  | JArr l => l
  | _ => []
  end.

Definition missing_key_message : str :=
  lit "Missing API key. Please set GEMINI_API_KEY/GOOGLE_API_KEY in Secrets or env.".

Definition no_ideas_message : str :=
  lit "The model returned no ideas. Please try again.".

Definition generation_failed (e : exn) : str :=
  lit "Generation failed: " ++ exn_str e.

(** The seven steps in sequence, as in the [try] block. [ctx2] and
    [ctx3] are the snapshots steps 2 and 3 read. *)
Definition pipeline (m : model) (ctx2 ctx3 : context) (f : form)
    (final_audience : str) : io json :=
  brief ← spinner "Normalizing brief..."
    (step_brief_normalizer m (product f) (description f) final_audience
       (tone f) (language f));
  market_insights ← spinner "Analyzing KSA market intelligence..."
    (step_market_intelligence m ctx2 brief);
  angles ← spinner "Generating culturally-informed creative angles..."
    (step_angle_generator m ctx3 brief market_insights);
  ideas ← spinner "Writing campaign ideas..."
    (step_idea_writer m brief angles);
  improved ← spinner "Critiquing and improving ideas..."
    (step_critic_improve m brief ideas);
  compliant ← spinner "Checking compliance and cultural guidelines..."
    (step_compliance_check m brief improved);
  spinner "Localizing and polishing..."
    (step_localize_polish m brief compliant).

Section Orchestrator.

(** The function called as [step_final_presenter]. *)
Variable presenter : list json → result str.

(** What follows step 7 inside the [try] block. *)
Definition present_with (localized : json) : io unit :=
  final_ideas ← lift (get localized "ideas" (JArr []));
  (if no_ideas final_ideas
   then emit (StError no_ideas_message);; st_stop
   else mret tt);;
  markdown ← lift (presenter (items_of final_ideas));
  emit (StMarkdown markdown).

(** The audience handed to step 1. *)
Definition final_audience_of (f : form) : str :=
  let final_audience := strip (audience f) in
  if is_empty final_audience then DEFAULT_AUDIENCE else final_audience.

(** The page header, drawn on every run of the script. *)
Definition header (current_context : context) : io unit :=
  emit StPageConfig;;
  emit (StTitle (lit "Creative Agent"));;
  emit (StCaption
    (lit "AI-powered multi-step creative generator (Gemini) - Enhanced for KSA Market"));;
  emit (StInfo
    ([128197%N] ++ lit " " ++ context_note current_context
     ++ lit " | Current events: "
     ++ join (lit ", ") (cultural_events current_context))).

Definition main_with (env : environment) (ctx1 ctx2 ctx3 : context)
    (gemini : model) (f : form) : io unit :=
  header ctx1;;
  if submitted f then
    let final_audience := final_audience_of f in
    let api_key := get_api_key env in
    (if is_empty api_key
     then emit (StError missing_key_message);; st_stop
     else mret tt);;
    init_genai api_key;;
    m ← create_model gemini "gemini-1.5-flash";
    try_except
      (localized ← pipeline m ctx2 ctx3 f final_audience;
       present_with localized)
      (fun e => emit (StError (generation_failed e)))
  else mret tt.

End Orchestrator.

(** [main()]: [ctx1], [ctx2] and [ctx3] are the snapshots read by the
    page header, step 2 and step 3. *)
Definition main : environment → context → context → context → model →
  form → io unit :=
  main_with step_final_presenter.

(** The events that put an error or the result on the page. *)
Definition shown (e : event) : bool :=
  match e with
  | StError _ | StMarkdown _ => true
  | _ => false
  end.

(** A piece of the script that shows neither an error nor the result. *)
Definition silent {A} (m : io A) : Prop :=
  Forall (fun e => shown e = false) (events m).

End App.
Export App.

(** ** Notions of the specification *)

Module Spec.

(** The top-level brace-delimited spans of a text, read left to right
    with a nesting depth: a span opens at an opening brace met at depth
    0 and closes at the closing brace that brings the depth back to 0.
    A closing brace at depth 0 and a brace left open belong to no span.
    [cur] is the span being read, reversed. *)
Fixpoint spans_from (s : str) (depth : nat) (cur : str) : list str :=
  match s with
  | [] => []
  | c :: r =>
      if (c =? lbrace)%N then spans_from r (S depth) (c :: cur)
      else if (c =? rbrace)%N then
        match depth with
        | 0 => spans_from r 0 []
        | 1 => rev (c :: cur) :: spans_from r 0 []
        | S d => spans_from r d (c :: cur)
        end
      else
        match depth with
        | 0 => spans_from r 0 []
        | _ => spans_from r depth (c :: cur)
        end
  end.

Definition top_level_spans (text : str) : list str := spans_from text 0 [].

(** The sentence on the single top-level span, as it is written. *)
Definition single_span_recovered : Prop :=
  ∀ (text span : str) (v : json),
    top_level_spans text = [span] →
    direct_attempt (strip text) = None →
    fence_attempt (strip text) = None →
    loads span = Some v →
    parse_json_str text = Ok v.

(** A step enforces a count [n] on the list under [key] when every
    value it returns holds a list of exactly [n] entries there. *)
Definition count_is (n : nat) (key : string) (v : json) : bool :=
  match v with
  | JObj d =>
      match dict_get d (lit key) with
      | Some (JArr l) => Nat.eqb (length l) n
      | _ => false
      end
  | _ => false
  end.

Definition enforces (n : nat) (key : string)
    (step : model → json → json → io json) : Prop :=
  ∀ (m : model) (brief upstream v : json),
    outcome (step m brief upstream) = Return v → count_is n key v = true.

(** The sentence on the default audience, as it is written, for the
    brief that step 1 returns. *)
Definition default_audience_carried : Prop :=
  ∀ (m : model) (f : form) (brief : json),
    strip (audience f) = [] →
    outcome (step_brief_normalizer m (product f) (description f)
               (final_audience_of f) (tone f) (language f)) = Return brief →
    get brief "audience" JNull = Ok (JStr DEFAULT_AUDIENCE).

(** *** Idea objects and their presentation *)

(** A text entry of a dict is a string when it is there. *)
Definition text_ok (d : list (str * json)) (k : string) : bool :=
  match dict_get d (lit k) with
  | Some (JStr _) | None => true
  | Some _ => false
  end.

(** The captions of an idea: a dict of text entries; a missing or
    empty value stands for no captions. *)
Definition captions_ok (d : list (str * json)) : bool :=
  match dict_get d (lit "captions") with
  | Some (JObj c) => text_ok c "instagram" && text_ok c "x"
  | Some v => negb (truthy v)
  | None => true
  end.

(** An idea object: a dict whose label, tagline, script, call to
    action and compliance notes are strings and whose captions are as
    above, any of them possibly missing. *)
Definition is_idea (v : json) : bool :=
  match v with
  | JObj d =>
      text_ok d "label" && text_ok d "tagline" && text_ok d "script_30s"
      && text_ok d "cta" && text_ok d "compliance_notes" && captions_ok d
  | _ => false
  end.

(** The trimmed text of an entry, blank when missing. *)
Definition text_of (d : list (str * json)) (k : string) : str :=
  match dict_get d (lit k) with
  | Some (JStr s) => strip s
  | _ => []
  end.

Definition caption_of (d : list (str * json)) (k : string) : str :=
  match dict_get d (lit "captions") with
  | Some (JObj c) => text_of c k
  | _ => []
  end.

(** The label of an idea in upper case, blank when missing. *)
Definition label_key (idea : json) : str :=
  match idea with
  | JObj d =>
      match dict_get d (lit "label") with
      | Some (JStr s) => upper s
      | _ => []
      end
  | _ => []
  end.

(** The last idea of the list that carries the label [l], case apart. *)
Definition last_labelled (l : str) (ideas : list json) : option json :=
  last (filter (fun idea => label_key idea = l) ideas).

(** The lines of the block of an idea shown as option [l]: heading,
    tagline, quoted script, the two captions, call to action and, when
    the notes are not blank, the compliance notes. *)
Definition block_lines (l : str) (idea : json) : list str :=
  match idea with
  | JObj d =>
      [lit "### Option " ++ l;
       lit "#### " ++ text_of d "tagline";
       [];
       lit "> " ++ text_of d "script_30s";
       [];
       lit "**Captions**";
       lit "- **IG**: " ++ caption_of d "instagram";
       lit "- **X**: " ++ caption_of d "x";
       [];
       lit "**CTA**: " ++ text_of d "cta"]
      ++ match text_of d "compliance_notes" with
         | [] => []
         | notes => [[]; lit "*Compliance Notes: " ++ notes ++ lit "*"]
         end
  | _ => []
  end.

Definition block (l : str) (idea : json) : str :=
  join [newline] (block_lines l idea) ++ [newline].

(** The ideas shown, in the order A, B, C, a label that no idea
    carries being skipped. *)
Definition selected (ideas : list json) : list json :=
  omap (fun l => last_labelled l ideas) [lit "A"; lit "B"; lit "C"].

(** The page for a list of ideas: the blocks of the ideas shown, a
    blank line between two blocks. *)
Definition presented (ideas : list json) : str :=
  join [newline; newline]
    (List.map (fun idea => block (label_key idea) idea) (selected ideas)).

(** The sentence on the compliance-notes line, as it is written: the
    block of an idea holds the line exactly when the idea has the
    field. *)
Definition notes_line_iff_field : Prop :=
  ∀ (d : list (str * json)) (out : str),
    is_idea (JObj d) = true →
    label_key (JObj d) = lit "A" →
    step_final_presenter [JObj d] = Ok out →
    (contains (lit "*Compliance Notes: ") out = true
     ↔ is_Some (dict_get d (lit "compliance_notes"))).

End Spec.
Export Spec.

(** ** [json.dumps] *)

Module Dumps.

(** The decimal digits of [n], most significant first; [fuel] bounds
    their number. *)
Fixpoint digits_fuel (fuel : nat) (n : N) : str :=
  match fuel with
  | O => []
  | S f =>
      if (n <? 10)%N then [(48 + n)%N]
      else digits_fuel f (n / 10)%N ++ [(48 + n mod 10)%N]
  end.

(** [str(n)] for a natural number: it has at most as many decimal
    digits as binary ones. *)
Definition digits_of (n : N) : str :=
  digits_fuel (S (N.to_nat (N.log2 n))) n.

(** [str(z)] *)
Definition int_repr (z : Z) : str :=
  if (z <? 0)%Z then 45%N :: digits_of (Z.to_N (- z)) else digits_of (Z.to_N z).

Definition hex_digit (n : N) : char :=
  if (n <? 10)%N then (48 + n)%N else (87 + n)%N.

(** One character of a string as [json.dumps] writes it with
    [ensure_ascii=False]: the quote, the backslash and the control
    characters are escaped, everything else is kept. *)
Definition escape_char (c : char) : str :=
  if (c =? 34)%N then [92; 34]%N
  else if (c =? 92)%N then [92; 92]%N
  else if (c =? 10)%N then [92; 110]%N
  else if (c =? 13)%N then [92; 114]%N
  else if (c =? 9)%N then [92; 116]%N
  else if (c =? 8)%N then [92; 98]%N
  else if (c =? 12)%N then [92; 102]%N
  else if (c <? 32)%N then
    [92; 117; 48; 48; hex_digit (c / 16); hex_digit (c mod 16)]%N
  else [c].

Definition escape (s : str) : str := flat_map escape_char s.

Definition encode_basestring (s : str) : str := 34%N :: escape s ++ [34%N].

(** [json.dumps(v, ensure_ascii=False)] with the default separators.
    A float is written by [float.__repr__], which is not modelled: its
    text stands for it, and the properties below are about values
    without floats.  The bounds of the interpreter are not part of it
    either: see [within_limits]. *)
Fixpoint dumps (v : json) : str :=
  match v with
  | JNull => lit "null"
  | JBool true => lit "true"
  | JBool false => lit "false"
  | JInt z => int_repr z
  | JFloat lexeme => lexeme
  | JStr s => encode_basestring s
  | JArr items => 91%N :: join (lit ", ") (List.map dumps items) ++ [93%N]
  | JObj pairs =>
      123%N
      :: join (lit ", ")
           (List.map
              (fun kv => encode_basestring (fst kv) ++ lit ": "
                         ++ dumps (snd kv))
              pairs)
      ++ [125%N]
  end.

(** A value as a Python program holds it, floats apart: no float, and
    no key twice in a dict. *)
Fixpoint plain (v : json) : bool :=
  match v with
  | JFloat _ => false
  | JArr items => forallb plain items
  | JObj pairs =>
      forallb (fun kv => plain (snd kv)) pairs
      && bool_decide (NoDup (List.map fst pairs))
  | _ => true
  end.

(** How deep the lists and dicts of a value are nested. *)
Fixpoint depth (v : json) : nat :=
  match v with
  | JArr items => S (foldr Nat.max 0 (List.map depth items))
  | JObj pairs =>
      S (foldr Nat.max 0 (List.map (fun kv => depth (snd kv)) pairs))
  | _ => 0
  end.

(** The characters of a Python string are code points. *)
Definition is_text (s : str) : bool :=
  forallb (fun c => (c <? 1114112)%N) s.

(** The strings of a value are Python strings and its integers have at
    most 4300 digits, the most that the interpreter converts between
    [int] and [str] by default. *)
Fixpoint convertible (v : json) : bool :=
  match v with
  | JInt z => (Z.abs z <? 10 ^ 4300)%Z
  | JStr s => is_text s
  | JArr items => forallb convertible items
  | JObj pairs =>
      forallb (fun kv => is_text (fst kv) && convertible (snd kv)) pairs
  | _ => true
  end.

(** A value that [json.dumps] and [json.loads] handle within the bounds
    of the interpreter, which the two functions of this file leave out:
    convertible integers, and a nesting of at most 100 levels, well
    inside the default recursion limit of 1000 calls. *)
Definition within_limits (v : json) : bool :=
  convertible v && (depth v <=? 100).

(** The number of nodes of a value. *)
Fixpoint size (v : json) : nat :=
  match v with
  | JArr items => S (list_sum (List.map size items))
  | JObj pairs => S (list_sum (List.map (fun kv => size (snd kv)) pairs))
  | _ => 1
  end.

(** What follows a value inside a JSON text: nothing, a comma or a
    closing bracket or brace. *)
Definition delimited (rest : str) : bool :=
  match rest with
  | [] => true
  | c :: _ => ((c =? 44) || (c =? 93) || (c =? 125))%N
  end.

End Dumps.
Export Dumps.

(** ** Further notions *)

Module More.

(** Three backticks. *)
Definition fence : str := [backtick; backtick; backtick].

(** The letters j, s, o, n in any case, as [fence_re] accepts them. *)
Definition json_tag (a b c d : char) : bool :=
  letter_ci [106; 74]%N a && letter_ci [115; 83; 383]%N b
  && letter_ci [111; 79]%N c && letter_ci [110; 78]%N d.

(** The interior of a fenced block without its [json] tag. *)
Definition drop_json_tag (s : str) : str :=
  match s with
  | a :: b :: c :: d :: r => if json_tag a b c d then r else s
  | _ => s
  end.

(** The sources of the key in the order [get_api_key] consults them:
    the two secrets, then the two environment variables.  A secret
    whose lookup raises gives nothing. *)
Definition key_sources (env : environment) : list (option str) :=
  [mjoin (secret env (lit "GEMINI_API_KEY"));
   mjoin (secret env (lit "GOOGLE_API_KEY"));
   getenv env (lit "GEMINI_API_KEY");
   getenv env (lit "GOOGLE_API_KEY")].

(** The first string of the list that is not empty, or the empty
    string. *)
Fixpoint first_usable (l : list (option str)) : str :=
  match l with
  | Some (c :: s) :: _ => c :: s
  | _ :: l' => first_usable l'
  | [] => []
  end.

(** The seven steps in the order of the pipeline. *)
Definition all_steps : list step_name :=
  [BriefNormalizer; MarketIntelligence; AngleGenerator; IdeaWriter;
   CriticImprove; ComplianceCheck; LocalizePolish].

(** The steps whose model call a trace holds, in order. *)
Definition calls (evs : list event) : list step_name :=
  omap (fun e => match e with Generate rq => Some (role rq) | _ => None end)
       evs.

(** An element of the list given to the presenter whose label can be
    read: a dict whose label is a string or missing. *)
Definition labelled (v : json) : bool :=
  match v with
  | JObj d => text_ok d "label"
  | _ => false
  end.

(** A piece of the script that makes the one call of step [s], or makes
    none and then does not return. *)
Definition one_call (s : step_name) {A} (m : io A) : Prop :=
  calls (events m) = [s]
  ∨ (calls (events m) = [] ∧ ∀ a, outcome m ≠ Return a).

(** The requests of the model calls a trace holds, in order. *)
Definition requests (evs : list event) : list request :=
  omap (fun e => match e with Generate rq => Some rq | _ => None end) evs.

(** A piece of the script in which a model call that fails, the model
    raising or its text holding no JSON, is the last call, and which
    then does not return. *)
Definition stops_at_failure (gemini : model) {A} (m : io A) : Prop :=
  ∀ pre rq post,
    requests (events m) = pre ++ rq :: post →
    (∀ v, outcome (call_gemini_json gemini rq) ≠ Return v) →
    post = [] ∧ ∀ a, outcome m ≠ Return a.

End More.
Export More.

(** ** Sample inputs *)

Module Samples.

Definition no_key : environment :=
  {| secret := fun _ => None; getenv := fun _ => None |}.

Definition env_key : environment :=
  {| secret := fun _ => None;
     getenv := fun k =>
       if str_eqb k (lit "GEMINI_API_KEY") then Some (lit "k-123") else None |}.

Definition october : context :=
  {| current_date := lit "2025-10-03";
     current_month := lit "October";
     current_year := 2025;
     season := lit "Autumn";
     cultural_events := [lit "Mild weather returns";
                         lit "Outdoor events resume"];
     weekday := lit "Friday";
     is_weekend := true;
     context_note :=
       lit "Current date: October 3, 2025 (Autumn season in KSA)" |}.

(** The brief of the end-to-end scenario: no audience. *)
Definition smart_bottle : form :=
  {| product := lit "Smart Bottle";
     description := lit "Tracks hydration";
     audience := [];
     tone := lit "friendly";
     language := lit "English";
     submitted := true |}.

(** A model that answers every prompt with an empty idea list. *)
Definition answers_no_ideas : model :=
  fun _ => Response (Some (js "{'ideas': []}")).

(** A model that answers every prompt with a brief of empty audience. *)
Definition answers_empty_audience : model :=
  fun _ => Response (Some (js "{'audience': ''}")).

Definition idea_a : json :=
  JObj [(lit "label", JStr (lit "a"));
        (lit "tagline", JStr (lit " Sip smart "));
        (lit "script_30s", JStr (lit "It is 2 PM in Riyadh."));
        (lit "captions",
         JObj [(lit "instagram", JStr (lit "Hydrate in style"));
               (lit "x", JStr (lit "Drink up"))]);
        (lit "cta", JStr (lit "Order now"));
        (lit "compliance_notes", JStr (lit "Reviewed"))].

Definition idea_A_blank_notes : json :=
  JObj [(lit "label", JStr (lit "A"));
        (lit "tagline", JStr (lit "First"));
        (lit "compliance_notes", JStr [])].

Definition idea_B : json :=
  JObj [(lit "label", JStr (lit "B")); (lit "tagline", JStr (lit "Second"))].

(** A model that answers every prompt with three ideas. *)
Definition answers_three_ideas : model :=
  fun _ => Response (Some
    (js "{'ideas': [{'label': 'A', 'tagline': 'One'}, {'label': 'B', 'tagline': 'Two'}, {'label': 'C', 'tagline': 'Three'}]}")).

Definition three_ideas : list json :=
  [JObj [(lit "label", JStr (lit "A")); (lit "tagline", JStr (lit "One"))];
   JObj [(lit "label", JStr (lit "B")); (lit "tagline", JStr (lit "Two"))];
   JObj [(lit "label", JStr (lit "C")); (lit "tagline", JStr (lit "Three"))]].

(** A model that answers every prompt with ideas labelled 1 and 2. *)
Definition answers_numbered_ideas : model :=
  fun _ => Response (Some
    (js "{'ideas': [{'label': '1', 'tagline': 'One'}, {'label': '2', 'tagline': 'Two'}]}")).

Definition numbered_ideas : list json :=
  [JObj [(lit "label", JStr (lit "1")); (lit "tagline", JStr (lit "One"))];
   JObj [(lit "label", JStr (lit "2")); (lit "tagline", JStr (lit "Two"))]].

(** An idea labelled A whose tagline is not a string. *)
Definition idea_A_broken : json :=
  JObj [(lit "label", JStr (lit "A")); (lit "tagline", JInt 7)].

(** A model whose answer depends on the step that asks. *)
Definition answers_by_role : model :=
  fun rq => Response (Some
    match role rq with
    | BriefNormalizer => js "{'language': 'Arabic', 'tone': 'warm'}"
    | MarketIntelligence => js "{'market_insights': {'local_trends': ['tea']}}"
    | AngleGenerator => js "{'angles': [{'id': '1'}]}"
    | IdeaWriter => js "{'ideas': [{'label': 'A', 'tagline': 'draft'}]}"
    | CriticImprove => js "{'ideas': [{'label': 'A', 'tagline': 'better'}]}"
    | ComplianceCheck => js "{'ideas': [{'label': 'A', 'tagline': 'safe'}]}"
    | LocalizePolish => js "{'ideas': [{'label': 'A', 'tagline': 'final'}]}"
    end).

(** A model that answers steps 1 and 2 with an empty dict and whose
    call fails at step 3. *)
Definition fails_at_angles : model :=
  fun rq =>
    match role rq with
    | BriefNormalizer | MarketIntelligence => Response (Some (lit "{}"))
    | _ => Failure (ModelError (lit "429 quota exceeded"))
    end.

Definition one_idea (tagline : string) : list (str * json) :=
  [(lit "ideas",
    JArr [JObj [(lit "label", JStr (lit "A"));
                (lit "tagline", JStr (lit tagline))]])].

End Samples.
Export Samples.

(** * Properties *)

(** ** Text *)

Lemma lstrip_app_nonspace (pre : str) (c : char) (rest : str) :
  isspace c = false → lstrip (pre ++ c :: rest) = lstrip pre ++ c :: rest.
Proof.
  intros Hc. induction pre as [|a pre IH]; simpl.
  - by rewrite Hc.
  - destruct (isspace a); [exact IH | reflexivity].
Qed.

Lemma lstrip_suffix (s : str) : ∃ ws, s = ws ++ lstrip s.
Proof.
  induction s as [|a s [ws IH]]; simpl.
  - by exists [].
  - destruct (isspace a).
    + exists (a :: ws). simpl. by f_equal.
    + by exists [].
Qed.

Lemma rstrip_app_nonspace (post : str) (c : char) (front : str) :
  isspace c = false → rstrip (front ++ c :: post) = front ++ c :: rstrip post.
Proof.
  intros Hc. unfold rstrip.
  rewrite rev_app_distr. simpl. rewrite <- app_assoc. simpl.
  rewrite (lstrip_app_nonspace (rev post) c (rev front) Hc).
  rewrite rev_app_distr. simpl. rewrite rev_involutive.
  by rewrite <- app_assoc.
Qed.

Lemma rstrip_prefix (s : str) : ∃ ws, s = rstrip s ++ ws.
Proof.
  unfold rstrip. destruct (lstrip_suffix (rev s)) as [ws H].
  exists (rev ws).
  rewrite <- rev_app_distr, <- H. by rewrite rev_involutive.
Qed.

(** Stripping a text around a span that starts and ends with a
    character that is not whitespace strips what is before and after
    the span. *)
Lemma strip_around (pre mid post : str) (a b : char) :
  isspace a = false → isspace b = false →
  strip (pre ++ a :: mid ++ b :: post)
  = lstrip pre ++ a :: mid ++ b :: rstrip post.
Proof.
  intros Ha Hb. unfold strip.
  rewrite (lstrip_app_nonspace pre a _ Ha).
  replace (lstrip pre ++ a :: mid ++ b :: post)
    with ((lstrip pre ++ a :: mid) ++ b :: post)
    by (rewrite <- app_assoc; reflexivity).
  rewrite (rstrip_app_nonspace post b _ Hb).
  by rewrite <- app_assoc.
Qed.

(** ** The brace pattern *)

Section ObjectRe.
Context {R : Type} (k : str → option str → option R).

Lemma rmatch_tail_no_closing (post : str) :
  rbrace ∉ post → rmatch (RSeq (RStar any_char) (RChar (is_char rbrace))) post None k = None.
Proof.
  induction post as [|c post IH]; intros Hno; simpl in *; [done|].
  rewrite IH by (intros ?; apply Hno; by right).
  unfold is_char. destruct (N.eqb_spec c rbrace) as [->|]; [|done].
  exfalso. apply Hno. by left.
Qed.

(** Greedy repetition before a closing brace stops at the last one. *)
Lemma rmatch_tail_last_closing (mid post : str) (x : R) :
  rbrace ∉ post → k post None = Some x →
  rmatch (RSeq (RStar any_char) (RChar (is_char rbrace)))
    (mid ++ rbrace :: post) None k = Some x.
Proof.
  intros Hno Hk. induction mid as [|c mid IH]; simpl in *.
  - pose proof (rmatch_tail_no_closing post Hno) as Hnone.
    simpl in Hnone. by rewrite Hnone.
  - by rewrite IH.
Qed.

End ObjectRe.

Lemma match_here_object_re_not_brace (pos : nat) (c : char) (s : str) :
  c ≠ lbrace → match_here object_re pos (c :: s) = None.
Proof.
  intros Hc. unfold match_here, object_re. simpl.
  unfold is_char. by destruct (N.eqb_spec c lbrace).
Qed.

Lemma match_here_object_re_span (pos : nat) (mid post : str) :
  rbrace ∉ post →
  match_here object_re pos (lbrace :: mid ++ rbrace :: post)
  = Some {| m_start := pos; group0 := lbrace :: mid ++ [rbrace];
            group1 := None |}.
Proof.
  intros Hno. unfold match_here, object_re. cbn [rseq].
  change (rmatch (RSeq ?a ?b) (lbrace :: ?s) ?g ?k) with (rmatch b s g k).
  erewrite rmatch_tail_last_closing; [reflexivity | done |].
  do 2 f_equal. cbn [length].
  replace (S (length (mid ++ rbrace :: post)) - length post)
    with (S (length (mid ++ [rbrace]))) by (rewrite !length_app; simpl; lia).
  simpl. f_equal.
  replace (mid ++ rbrace :: post) with ((mid ++ [rbrace]) ++ post)
    by (rewrite <- app_assoc; reflexivity).
  by rewrite take_app_length.
Qed.

(** [re.search] with the brace pattern finds the text from the first
    opening brace to the last closing brace. *)
Lemma search_object_re (pre mid post : str) (pos : nat) :
  lbrace ∉ pre → rbrace ∉ post →
  search_from object_re pos (pre ++ lbrace :: mid ++ rbrace :: post)
  = Some {| m_start := pos + length pre; group0 := lbrace :: mid ++ [rbrace];
            group1 := None |}.
Proof.
  intros Hpre Hpost. revert pos.
  induction pre as [|c pre IH]; intros pos; simpl.
  - rewrite match_here_object_re_span by done.
    by rewrite Nat.add_0_r.
  - rewrite match_here_object_re_not_brace
      by (intros ->; apply Hpre; by left).
    rewrite IH by (intros ?; apply Hpre; by right).
    do 2 f_equal. lia.
Qed.

(** ** The scanner reads forward and [loads] has budget enough *)

Lemma skip_ws_length (s : str) : length (skip_ws s) ≤ length s.
Proof.
  induction s as [|c s IH]; simpl; [lia|].
  destruct (is_json_ws c); simpl; lia.
Qed.

Lemma scanstring_shorter (n : nat) (s acc key rest : str) :
  length s ≤ n → scanstring s acc = Some (key, rest) →
  length rest < length s.
Proof.
  revert s acc. induction n as [|n IH]; intros s acc Hn H.
  - destruct s; [done|simpl in Hn; lia].
  - destruct s as [|c r]; [done|]. simpl in Hn. cbn [scanstring] in H.
    repeat case_match; simplify_eq; cbn [length] in *; try lia;
      match goal with
      | H : scanstring ?t _ = Some _ |- _ =>
          apply IH in H; cbn [length] in *; lia
      end.
Qed.

Lemma span_digits_length (s ds rest : str) :
  span_digits s = (ds, rest) → length rest ≤ length s.
Proof.
  revert ds rest. induction s as [|c s IH]; intros ds rest H; simpl in *.
  - by simplify_eq.
  - destruct (is_digit c); [|simplify_eq; simpl; lia].
    destruct (span_digits s) as [ds' r'] eqn:E. simplify_eq.
    specialize (IH _ _ eq_refl). lia.
Qed.

Lemma match_frac_length (s f rest : str) :
  match_frac s = (f, rest) → length rest ≤ length s.
Proof.
  unfold match_frac. intros H.
  repeat case_match; simplify_eq; simpl; try lia;
    match goal with
    | H : span_digits _ = _ |- _ => apply span_digits_length in H; lia
    end.
Qed.

Lemma match_exp_length (s e rest : str) :
  match_exp s = (e, rest) → length rest ≤ length s.
Proof.
  unfold match_exp. intros H.
  repeat case_match; simplify_eq; simpl; try lia;
    match goal with
    | H : span_digits _ = _ |- _ =>
        apply span_digits_length in H; simpl in *; lia
    end.
Qed.

Lemma match_number_shorter (s rest : str) (v : json) :
  match_number s = Some (v, rest) → length rest < length s.
Proof.
  unfold match_number, match_int. intros H.
  repeat case_match; simplify_eq;
    repeat match goal with
           | H : span_digits _ = _ |- _ => apply span_digits_length in H
           | H : match_frac _ = _ |- _ => apply match_frac_length in H
           | H : match_exp _ = _ |- _ => apply match_exp_length in H
           end;
    simpl in *; lia.
Qed.

Lemma strip_prefix_length (w s rest : str) :
  strip_prefix w s = Some rest → length s = length w + length rest.
Proof.
  revert s. induction w as [|a w IH]; intros s H; simpl in *.
  - by simplify_eq.
  - destruct s as [|b s]; [done|]. destruct (a =? b)%N; [|done].
    apply IH in H. simpl. lia.
Qed.

Lemma keyword_shorter (w : string) (v v' : json) (s rest : str) :
  lit w ≠ [] → keyword w v s = Some (v', rest) → length rest < length s.
Proof.
  unfold keyword. intros Hw H.
  destruct (strip_prefix (lit w) s) as [r|] eqn:E; [|done]. simplify_eq.
  apply strip_prefix_length in E. destruct (lit w); [done|]. simpl in E. lia.
Qed.

Lemma scan_atom_shorter (s rest : str) (v : json) :
  scan_atom s = Scanned v rest → length rest < length s.
Proof.
  unfold scan_atom. intros H.
  repeat case_match; simplify_eq;
    first [ by eapply match_number_shorter
          | eapply keyword_shorter; [|eassumption]; by vm_compute ].
Qed.

Lemma scan_atom_fuel (s : str) : scan_atom s ≠ OutOfFuel.
Proof. unfold scan_atom. by repeat case_match. Qed.

Section Items.
(** The loops of arrays and objects, over a value scanner that reads
    forward and does not run out of budget on texts shorter than
    [bound]. *)
Variable scan_value : str → scan json.
Variable bound : nat.
Hypothesis scan_value_shorter :
  ∀ s v r, scan_value s = Scanned v r → length r < length s.
Hypothesis scan_value_fuel :
  ∀ s, length s < bound → scan_value s ≠ OutOfFuel.

Lemma array_items_shorter n s acc v r :
  array_items scan_value n s acc = Scanned v r → length r < length s.
Proof using scan_value_shorter.
  revert s acc. induction n as [|n IH]; intros s acc H; [done|].
  cbn [array_items] in H.
  destruct (scan_value s) as [v1 r1| |] eqn:E; [|done..].
  apply scan_value_shorter in E. pose proof (skip_ws_length r1).
  destruct (skip_ws r1) as [|c r2] eqn:E2; [done|]. simpl in *.
  repeat case_match; simplify_eq; try lia.
  apply IH in H. pose proof (skip_ws_length r2). lia.
Qed.

Lemma array_items_fuel n s acc :
  length s < n → length s < bound →
  array_items scan_value n s acc ≠ OutOfFuel.
Proof using scan_value_shorter scan_value_fuel.
  revert s acc. induction n as [|n IH]; intros s acc Hn Hb; [lia|].
  cbn [array_items].
  destruct (scan_value s) as [v1 r1| |] eqn:E; [|done|by apply scan_value_fuel in E].
  apply scan_value_shorter in E. pose proof (skip_ws_length r1).
  destruct (skip_ws r1) as [|c r2] eqn:E2; [done|]. simpl in *.
  repeat case_match; try done.
  pose proof (skip_ws_length r2). apply IH; lia.
Qed.

Lemma object_items_shorter n s acc v r :
  object_items scan_value n s acc = Scanned v r → length r < length s.
Proof using scan_value_shorter.
  revert s acc. induction n as [|n IH]; intros s acc H; [done|].
  cbn [object_items] in H.
  destruct (scanstring s []) as [[key r0]|] eqn:Ek; [|done].
  apply (scanstring_shorter (length s)) in Ek; [|lia].
  pose proof (skip_ws_length r0).
  destruct (skip_ws r0) as [|c r1] eqn:E0; [done|].
  destruct (c =? 58)%N; [|done].
  pose proof (skip_ws_length r1).
  destruct (scan_value (skip_ws r1)) as [v1 r2| |] eqn:E; [|done..].
  apply scan_value_shorter in E. pose proof (skip_ws_length r2).
  destruct (skip_ws r2) as [|d r3] eqn:E2; [done|]. simpl in *.
  destruct (d =? 125)%N; [simplify_eq; lia|].
  destruct (d =? 44)%N; [|done].
  pose proof (skip_ws_length r3).
  destruct (skip_ws r3) as [|q r4] eqn:E3; [done|]. simpl in *.
  destruct (q =? 34)%N; [|done].
  apply IH in H. lia.
Qed.

Lemma object_items_fuel n s acc :
  length s < n → length s < bound →
  object_items scan_value n s acc ≠ OutOfFuel.
Proof using scan_value_shorter scan_value_fuel.
  revert s acc. induction n as [|n IH]; intros s acc Hn Hb; [lia|].
  cbn [object_items].
  destruct (scanstring s []) as [[key r0]|] eqn:Ek; [|done].
  apply (scanstring_shorter (length s)) in Ek; [|lia].
  pose proof (skip_ws_length r0).
  destruct (skip_ws r0) as [|c r1] eqn:E0; [done|].
  destruct (c =? 58)%N; [|done].
  pose proof (skip_ws_length r1).
  destruct (scan_value (skip_ws r1)) as [v1 r2| |] eqn:E;
    [|done|apply scan_value_fuel in E; [done|simpl in *; lia]].
  apply scan_value_shorter in E. pose proof (skip_ws_length r2).
  destruct (skip_ws r2) as [|d r3] eqn:E2; [done|]. simpl in *.
  destruct (d =? 125)%N; [done|].
  destruct (d =? 44)%N; [|done].
  pose proof (skip_ws_length r3).
  destruct (skip_ws r3) as [|q r4] eqn:E3; [done|]. simpl in *.
  destruct (q =? 34)%N; [|done].
  apply IH; lia.
Qed.

End Items.

Lemma scan_once_shorter (fuel : nat) (s : str) (v : json) (rest : str) :
  scan_once fuel s = Scanned v rest → length rest < length s.
Proof.
  revert s v rest. induction fuel as [|f IH]; intros s v rest H; [done|].
  cbn [scan_once] in H. destruct s as [|c r]; [done|].
  destruct (c =? 34)%N.
  { destruct (scanstring r []) as [[k r']|] eqn:E; [|done]. simplify_eq.
    apply (scanstring_shorter (length r)) in E; simpl; lia. }
  destruct (c =? 123)%N.
  { unfold JSONObject in H. pose proof (skip_ws_length r).
    destruct (skip_ws r) as [|c1 r1]; [done|]. simpl in *.
    repeat case_match; simplify_eq; try lia.
    apply (object_items_shorter _ IH) in H. lia. }
  destruct (c =? 91)%N.
  { unfold JSONArray in H. pose proof (skip_ws_length r).
    destruct (skip_ws r) as [|c1 r1]; [done|]. simpl in *.
    repeat case_match; simplify_eq; try lia.
    apply (array_items_shorter _ IH) in H. simpl in H. lia. }
  by apply scan_atom_shorter in H.
Qed.

Lemma scan_once_fuel (fuel : nat) (s : str) :
  length s < fuel → scan_once fuel s ≠ OutOfFuel.
Proof.
  revert s. induction fuel as [|f IH]; intros s Hs; [lia|].
  cbn [scan_once]. destruct s as [|c r]; [done|]. simpl in Hs.
  destruct (c =? 34)%N; [by repeat case_match|].
  destruct (c =? 123)%N.
  { unfold JSONObject. pose proof (skip_ws_length r).
    destruct (skip_ws r) as [|c1 r1]; [done|]. simpl in *.
    repeat case_match; try done.
    apply (object_items_fuel _ f (scan_once_shorter f) IH); lia. }
  destruct (c =? 91)%N.
  { unfold JSONArray. pose proof (skip_ws_length r).
    destruct (skip_ws r) as [|c1 r1]; [done|]. simpl in *.
    repeat case_match; try done.
    apply (array_items_fuel _ f (scan_once_shorter f) IH); simpl; lia. }
  apply scan_atom_fuel.
Qed.

(** [loads] never fails for lack of budget: [None] is a decode error. *)
Lemma loads_fuel_enough (s : str) :
  scan_once (S (length (skip_ws s))) (skip_ws s) ≠ OutOfFuel.
Proof. apply scan_once_fuel. lia. Qed.

(** ** The scanner on an opening brace *)

Lemma object_items_is_object scan_once n s acc v r :
  object_items scan_once n s acc = Scanned v r → ∃ d, v = JObj d.
Proof.
  revert s acc. induction n as [|n IH]; intros s acc; simpl; [done|].
  intros H. repeat case_match; simplify_eq; eauto.
Qed.

Lemma loads_brace_is_object (rest : str) (v : json) :
  loads (lbrace :: rest) = Some v → ∃ d, v = JObj d.
Proof.
  unfold loads. simpl skip_ws. cbn [scan_once].
  change (lbrace =? 34)%N with false. change (lbrace =? 123)%N with true.
  cbv iota. unfold JSONObject.
  intros H. repeat case_match; simplify_eq; eauto using object_items_is_object.
Qed.

(** ** The extractor *)

(** C3 (the code departs from it). On a text that is a JSON array,
    [parse_json_str] returns the array: the result of the direct parse
    is returned whatever its kind. *)
Theorem parse_json_str_returns_array :
  parse_json_str (js "[1, 2]") = Ok (JArr [JInt 1; JInt 2]).
Proof. by vm_compute. Qed.

(** C4, as written, fails: a text with one top-level span and a stray
    closing brace after it is not recovered, since the brace pattern
    runs to the last closing brace. *)
Lemma greedy_span_not_recovered : ¬ single_span_recovered.
Proof.
  intros H.
  specialize (H (js "Result: {'a': 1} :-}") (js "{'a': 1}")
                (JObj [(lit "a", JInt 1)])).
  by vm_compute in H; specialize (H eq_refl eq_refl eq_refl eq_refl).
Qed.

(** C4, amended. When no opening brace comes before the span and no
    closing brace after it, the stripped text does not parse, no fenced
    block parses and the span parses, [parse_json_str] returns the
    value of the span, which is an object. *)
Theorem parse_json_str_recovers_span (text pre mid post : str) (v : json) :
  text = pre ++ lbrace :: mid ++ rbrace :: post →
  lbrace ∉ pre → rbrace ∉ post →
  direct_attempt (strip text) = None →
  fence_attempt (strip text) = None →
  loads (lbrace :: mid ++ [rbrace]) = Some v →
  parse_json_str text = Ok v ∧ ∃ d, v = JObj d.
Proof.
  intros -> Hpre Hpost Hdirect Hfence Hspan.
  split; [|by eapply loads_brace_is_object].
  unfold parse_json_str. rewrite Hdirect, Hfence.
  unfold object_attempt, re_search.
  rewrite strip_around by done.
  destruct (lstrip_suffix pre) as [ws Hws].
  destruct (rstrip_prefix post) as [ws' Hws'].
  rewrite search_object_re; simpl.
  - by rewrite Hspan.
  - intros Hin. apply Hpre. rewrite Hws. apply elem_of_app. by right.
  - intros Hin. apply Hpost. rewrite Hws'. apply elem_of_app. by left.
Qed.

Lemma parse_json_str_recovers_span_witness :
  parse_json_str (js "Here you go: {'ideas': []} Enjoy!")
  = Ok (JObj [(lit "ideas", JArr [])])
  ∧ ∃ d, JObj [(lit "ideas", JArr [])] = JObj d.
Proof.
  apply (parse_json_str_recovers_span _ (js "Here you go: ")
           (js "'ideas': []") (js " Enjoy!")).
  - reflexivity.
  - compute_done.
  - compute_done.
  - by vm_compute.
  - by vm_compute.
  - by vm_compute.
Defined.

(** ** Runs *)

Lemma events_bind {A B} (m : io A) (f : A → io B) :
  events (m ≫= f)
  = events m ++ match outcome m with Return a => events (f a) | _ => [] end.
Proof.
  unfold mbind, io_bind. destruct (outcome m); simpl; by rewrite ?app_nil_r.
Qed.

Lemma outcome_bind {A B} (m : io A) (f : A → io B) :
  outcome (m ≫= f)
  = match outcome m with
    | Return a => outcome (f a)
    | Throw e => Throw e
    | Halt => Halt
    end.
Proof. unfold mbind, io_bind. by destruct (outcome m). Qed.

Lemma events_lift {A} (r : result A) : events (lift r) = [].
Proof. by destruct r. Qed.

Lemma outcome_lift {A} (r : result A) :
  outcome (lift r) = match r with Ok a => Return a | Raise e => Throw e end.
Proof. by destruct r. Qed.

Lemma events_call_gemini_json (m : model) (rq : request) :
  events (call_gemini_json m rq) = [Generate rq].
Proof.
  unfold call_gemini_json. rewrite events_bind. simpl.
  destruct (m rq) as [t|e]; [destruct (parse_json_str _)|]; reflexivity.
Qed.

Lemma outcome_call_gemini_json (m : model) (rq : request) :
  outcome (call_gemini_json m rq)
  = match m rq with
    | Response t => outcome (lift (parse_json_str (default [] t)))
    | Failure e => Throw e
    end.
Proof.
  unfold call_gemini_json. rewrite outcome_bind. simpl.
  destruct (m rq) as [[[|c t]|]|e]; reflexivity.
Qed.

Lemma requests_bind {A B} (m : io A) (f : A → io B) :
  requests (events (m ≫= f))
  = requests (events m)
    ++ match outcome m with Return a => requests (events (f a)) | _ => [] end.
Proof.
  rewrite events_bind. unfold requests. rewrite omap_app.
  by destruct (outcome m).
Qed.

Lemma requests_spinner {A} (text : string) (body : io A) :
  requests (events (spinner text body)) = requests (events body).
Proof. unfold spinner. by rewrite requests_bind. Qed.

Lemma outcome_spinner {A} (text : string) (body : io A) :
  outcome (spinner text body) = outcome body.
Proof. unfold spinner. by rewrite outcome_bind. Qed.

Lemma requests_call_gemini_json (m : model) (rq : request) :
  requests (events (call_gemini_json m rq)) = [rq].
Proof. by rewrite events_call_gemini_json. Qed.

Lemma bind_lift_ok {A B} (x : A) (f : A → io B) : lift (Ok x) ≫= f = f x.
Proof. unfold mbind, io_bind. cbn. by destruct (f x). Qed.

(** C1, as written, fails for each of the five steps: a response with
    no angle, or a single idea, is returned as it is. *)
Lemma steps_do_not_enforce_cardinality :
  ¬ enforces 5 "angles" (fun m => step_angle_generator m october)
  ∧ ¬ enforces 3 "ideas" step_idea_writer
  ∧ ¬ enforces 3 "ideas" step_critic_improve
  ∧ ¬ enforces 3 "ideas" step_compliance_check
  ∧ ¬ enforces 3 "ideas" step_localize_polish.
Proof.
  pose (angles0 := fun _ : request => Response (Some (js "{'angles': []}"))).
  pose (ideas1 :=
    fun _ : request => Response (Some (js "{'ideas': [{'label': 'A'}]}"))).
  repeat split; intros H.
  - specialize (H angles0 (JObj []) (JObj []) _ eq_refl). by vm_compute in H.
  - specialize (H ideas1 (JObj []) (JObj []) _ eq_refl). by vm_compute in H.
  - specialize (H ideas1 (JObj []) (JObj []) _ eq_refl). by vm_compute in H.
  - specialize (H ideas1 (JObj []) (JObj []) _ eq_refl). by vm_compute in H.
  - specialize (H ideas1 (JObj []) (JObj []) _ eq_refl). by vm_compute in H.
Qed.

(** C1, amended. Each of the five steps hands back what
    [parse_json_str] makes of the response text, with no check on the
    number of angles or ideas.  When the values it reads with [.get]
    are dicts, the step makes its one model call, returns the parsed
    value when the extraction succeeds and raises only when the
    extraction raises.  When one of them is not a dict, the step raises
    the [AttributeError] of the first such value, before any model
    call.  Steps 3 to 6 read the value of the step before; step 7 reads
    the brief, then the value of step 6. *)
Theorem steps_return_parsed_response (t : option str) (ctx : context)
    (brief upstream : json) :
  let m : model := fun _ => Response t in
  let parsed := outcome (lift (parse_json_str (default [] t))) in
  let dict (v : json) := ∃ d, v = JObj d in
  let hands_back (read : list json) (step : io json) :=
    (Forall dict read →
     (∃ rq, events step = [Generate rq]) ∧ outcome step = parsed)
    ∧ (∀ pre v post,
         read = pre ++ v :: post → Forall dict pre → ¬ dict v →
         step = IO [] (Throw (no_attribute v "get"))) in
  hands_back [upstream] (step_angle_generator m ctx brief upstream)
  ∧ hands_back [upstream] (step_idea_writer m brief upstream)
  ∧ hands_back [upstream] (step_critic_improve m brief upstream)
  ∧ hands_back [upstream] (step_compliance_check m brief upstream)
  ∧ hands_back [brief; upstream] (step_localize_polish m brief upstream).
Proof.
  intros m parsed dict hands_back.
  assert (Hparsed : ∀ rq, outcome (call_gemini_json m rq) = parsed).
  { intros rq. rewrite outcome_call_gemini_json. reflexivity. }
  assert (Hone : ∀ (key : string) (dflt : json) (rq : json → request),
            hands_back [upstream]
              (x ← lift (get upstream key dflt); call_gemini_json m (rq x))).
  { intros key dflt rq. split.
    - intros [[d ->] _]%Forall_cons. cbn [get]. rewrite bind_lift_ok.
      split; [eexists; apply events_call_gemini_json|apply Hparsed].
    - intros pre v post Heq Hpre Hv.
      destruct pre as [|p [|p' pre]]; simplify_eq/=.
      destruct v; try reflexivity. destruct Hv. by eexists. }
  do 4 (split; [apply Hone|]).
  split.
  - intros [[b ->] [[d ->] _]%Forall_cons]%Forall_cons.
    unfold step_localize_polish. cbn [get]. rewrite !bind_lift_ok.
    split; [eexists; apply events_call_gemini_json|apply Hparsed].
  - intros pre v post Heq Hpre Hv.
    destruct pre as [|p [|p' [|p'' pre]]]; simplify_eq/=.
    + destruct v; try reflexivity. destruct Hv. by eexists.
    + apply Forall_cons in Hpre as [[b ->] _].
      unfold step_localize_polish. cbn [get]. rewrite !bind_lift_ok.
      destruct v; try reflexivity. destruct Hv. by eexists.
Qed.

Lemma steps_return_parsed_response_witness :
  let m : model :=
    fun _ => Response (Some (js "{'ideas': [{'label': 'A'}]}")) in
  outcome (step_idea_writer m (JObj []) (JObj []))
  = Return (JObj [(lit "ideas", JArr [JObj [(lit "label", JStr (lit "A"))]])])
  ∧ step_idea_writer m (JObj []) (JArr [JInt 1; JInt 2])
    = IO [] (Throw (no_attribute (JArr [JInt 1; JInt 2]) "get")).
Proof.
  split.
  - destruct (steps_return_parsed_response
                (Some (js "{'ideas': [{'label': 'A'}]}")) october
                (JObj []) (JObj [])) as (_ & [H _] & _).
    destruct H as [_ H]; [repeat constructor; by eexists|].
    cbv zeta. rewrite H. by vm_compute.
  - destruct (steps_return_parsed_response
                (Some (js "{'ideas': [{'label': 'A'}]}")) october
                (JObj []) (JArr [JInt 1; JInt 2])) as (_ & [_ H] & _).
    apply (H [] _ []); [reflexivity|constructor|].
    intros [d Hd]. discriminate.
Defined.

(** *** What the steps put on the page *)

Lemma silent_bind {A B} (m : io A) (f : A → io B) :
  silent m → (∀ a, silent (f a)) → silent (m ≫= f).
Proof.
  unfold silent. intros Hm Hf. rewrite events_bind.
  apply Forall_app. split; [done|]. destruct (outcome m); [apply Hf|done..].
Qed.

Lemma silent_lift {A} (r : result A) : silent (lift r).
Proof. unfold silent. by rewrite events_lift. Qed.

Lemma silent_call_gemini_json m rq : silent (call_gemini_json m rq).
Proof.
  unfold silent. rewrite events_call_gemini_json. by repeat constructor.
Qed.

Lemma silent_spinner {A} (text : string) (body : io A) :
  silent body → silent (spinner text body).
Proof.
  intros H. unfold spinner. apply silent_bind; [|done].
  unfold silent. simpl. by repeat constructor.
Qed.

Ltac silent_steps :=
  repeat first
    [ apply silent_spinner
    | apply silent_call_gemini_json
    | apply silent_lift
    | apply silent_bind; [|intros ?] ].

Lemma silent_pipeline m ctx2 ctx3 f a : silent (pipeline m ctx2 ctx3 f a).
Proof.
  unfold pipeline, step_brief_normalizer, step_market_intelligence,
    step_angle_generator, step_idea_writer, step_critic_improve,
    step_compliance_check, step_localize_polish.
  silent_steps.
Qed.

Lemma shown_silent {A} (m : io A) : silent m → filter shown (events m) = [].
Proof.
  unfold silent. induction 1 as [|e l He _ IH]; [done|].
  rewrite filter_cons. destruct (decide (shown e)) as [Hs|]; [|done].
  rewrite He in Hs. done.
Qed.

Lemma present_no_ideas presenter (d : list (str * json)) :
  no_ideas (default (JArr []) (dict_get d (lit "ideas"))) = true →
  present_with presenter (JObj d) = IO [StError no_ideas_message] Halt.
Proof.
  intros H. unfold present_with, get. cbn [lift].
  unfold mbind, io_bind. cbn [outcome events]. rewrite H. reflexivity.
Qed.

Lemma events_try_except (body : io unit) (handler : exn → io unit) :
  events (try_except body handler)
  = events body
    ++ match outcome body with Throw e => events (handler e) | _ => [] end.
Proof.
  unfold try_except. destruct (outcome body); simpl; by rewrite ?app_nil_r.
Qed.

Lemma outcome_try_except (body : io unit) (handler : exn → io unit) :
  outcome (try_except body handler)
  = match outcome body with
    | Throw e => outcome (handler e)
    | o => o
    end.
Proof. unfold try_except. by destruct (outcome body) eqn:E. Qed.

Lemma is_empty_false (s : str) : s ≠ [] → is_empty s = false.
Proof. by destruct s. Qed.

(** A submitted run with a key: the header, the client set-up, then
    the [try] block. *)
Lemma main_with_key presenter env ctx1 ctx2 ctx3 gemini f :
  submitted f = true → get_api_key env ≠ [] →
  let body :=
    try_except
      (localized ← pipeline gemini ctx2 ctx3 f (final_audience_of f);
       present_with presenter localized)
      (fun e => emit (StError (generation_failed e))) in
  events (main_with presenter env ctx1 ctx2 ctx3 gemini f)
  = events (header ctx1)
    ++ [Configure (get_api_key env); CreateModel (lit "gemini-1.5-flash")]
    ++ events body
  ∧ outcome (main_with presenter env ctx1 ctx2 ctx3 gemini f) = outcome body.
Proof.
  intros Hs Hk body. unfold main_with. rewrite Hs, (is_empty_false _ Hk).
  split.
  - rewrite events_bind. cbn [header outcome mbind io_bind mret io_ret emit].
    f_equal.
  - rewrite outcome_bind. reflexivity.
Qed.

(** C6. With no key, a submitted run shows the missing-key error and
    stops: the trace is the page header and that error, and holds no
    model call. *)
Theorem missing_credential_fails_fast env ctx1 ctx2 ctx3 gemini f :
  submitted f = true → get_api_key env = [] →
  let r := main env ctx1 ctx2 ctx3 gemini f in
  outcome r = Halt
  ∧ events r = events (header ctx1) ++ [StError missing_key_message]
  ∧ ∀ rq, Generate rq ∉ events r.
Proof.
  intros Hs Hk r.
  assert (Hr : r = IO (events (header ctx1) ++ [StError missing_key_message])
                      Halt).
  { unfold r, main, main_with. rewrite Hs, Hk. reflexivity. }
  rewrite Hr. cbn [outcome events]. repeat split.
  intros rq Hin. simpl in Hin.
  repeat (apply elem_of_cons in Hin as [?|Hin]; [discriminate|]).
  by apply elem_of_nil in Hin.
Qed.

Lemma missing_credential_fails_fast_witness :
  let r := main no_key october october october answers_no_ideas smart_bottle in
  outcome r = Halt
  ∧ events r = events (header october) ++ [StError missing_key_message]
  ∧ ∀ rq, Generate rq ∉ events r.
Proof.
  apply (missing_credential_fails_fast no_key october october october
           answers_no_ideas smart_bottle); reflexivity.
Defined.

Lemma io_eq {A} (a b : io A) :
  events a = events b → outcome a = outcome b → a = b.
Proof. destruct a, b. simpl. by intros -> ->. Qed.

(** C5. When the seven steps succeed and the value of step 7 is a
    dict whose "ideas" entry is missing, empty or not a list, the run
    stops on the "no ideas" error: it is the last event and the only
    error shown, no "Generation failed" error and no result is shown,
    and the run is the same whatever function stands for the presenter,
    which is therefore not called. *)
Theorem empty_result_reported presenter env ctx1 ctx2 ctx3 gemini f
    (d : list (str * json)) :
  submitted f = true → get_api_key env ≠ [] →
  outcome (pipeline gemini ctx2 ctx3 f (final_audience_of f))
  = Return (JObj d) →
  no_ideas (default (JArr []) (dict_get d (lit "ideas"))) = true →
  let r := main_with presenter env ctx1 ctx2 ctx3 gemini f in
  outcome r = Halt
  ∧ last (events r) = Some (StError no_ideas_message)
  ∧ filter shown (events r) = [StError no_ideas_message]
  ∧ (∀ e, StError (generation_failed e) ∉ events r)
  ∧ (∀ md, StMarkdown md ∉ events r)
  ∧ r = main env ctx1 ctx2 ctx3 gemini f.
Proof.
  intros Hs Hk Hpipe Hno.
  assert (Hrun : ∀ p,
    main_with p env ctx1 ctx2 ctx3 gemini f
    = IO (events (header ctx1)
          ++ [Configure (get_api_key env); CreateModel (lit "gemini-1.5-flash")]
          ++ events (pipeline gemini ctx2 ctx3 f (final_audience_of f))
          ++ [StError no_ideas_message]) Halt).
  { intros p.
    destruct (main_with_key p env ctx1 ctx2 ctx3 gemini f Hs Hk) as [He Ho].
    apply io_eq; cbn [events outcome].
    - rewrite He, events_try_except, events_bind, outcome_bind, Hpipe.
      rewrite (present_no_ideas p d Hno). cbn [events outcome].
      by rewrite app_nil_r.
    - rewrite Ho, outcome_try_except, outcome_bind, Hpipe.
      by rewrite (present_no_ideas p d Hno). }
  intros r. unfold r, main. rewrite !Hrun. cbn [outcome events].
  assert (Hshown :
    filter shown
      (events (header ctx1)
       ++ [Configure (get_api_key env); CreateModel (lit "gemini-1.5-flash")]
       ++ events (pipeline gemini ctx2 ctx3 f (final_audience_of f))
       ++ [StError no_ideas_message])
    = [StError no_ideas_message]).
  { rewrite !filter_app, (shown_silent _ (silent_pipeline _ _ _ _ _)).
    reflexivity. }
  repeat split.
  - rewrite !app_assoc. apply last_snoc.
  - exact Hshown.
  - intros e Hin.
    assert (H : StError (generation_failed e) ∈ [StError no_ideas_message]).
    { rewrite <- Hshown. apply list_elem_of_filter. by split. }
    apply list_elem_of_singleton in H. by vm_compute in H.
  - intros md Hin.
    assert (H : StMarkdown md ∈ [StError no_ideas_message]).
    { rewrite <- Hshown. apply list_elem_of_filter. by split. }
    by apply list_elem_of_singleton in H.
Qed.

Lemma empty_result_reported_witness :
  let r := main_with step_final_presenter env_key october october october
             answers_no_ideas smart_bottle in
  outcome r = Halt
  ∧ last (events r) = Some (StError no_ideas_message)
  ∧ filter shown (events r) = [StError no_ideas_message]
  ∧ (∀ e, StError (generation_failed e) ∉ events r)
  ∧ (∀ md, StMarkdown md ∉ events r)
  ∧ r = main env_key october october october answers_no_ideas smart_bottle.
Proof.
  apply (empty_result_reported step_final_presenter env_key october october
           october answers_no_ideas smart_bottle [(lit "ideas", JArr [])]).
  - reflexivity.
  - by vm_compute.
  - by vm_compute.
  - reflexivity.
Defined.

(** C7, as written, fails for the brief that step 1 returns: it is the
    parsed answer of the model, here with an empty audience. *)
Lemma returned_brief_audience_unchecked : ¬ default_audience_carried.
Proof.
  intros H.
  specialize (H answers_empty_audience smart_bottle
                (JObj [(lit "audience", JStr [])]) eq_refl eq_refl).
  by vm_compute in H.
Qed.

(** C7, amended. In a submitted run with a key and an empty or blank
    audience field, the first model call is the one of step 1 and its
    input carries the default market string, which is not empty, as the
    audience. *)
Theorem default_audience_given_to_step1 env ctx1 ctx2 ctx3 gemini f :
  submitted f = true → get_api_key env ≠ [] → strip (audience f) = [] →
  (∃ rest,
     events (main env ctx1 ctx2 ctx3 gemini f)
     = events (header ctx1)
       ++ [Configure (get_api_key env);
           CreateModel (lit "gemini-1.5-flash");
           StSpinner (lit "Normalizing brief...");
           Generate
             {| role := BriefNormalizer;
                payload :=
                  JObj [(lit "product", JStr (product f));
                        (lit "description", JStr (description f));
                        (lit "audience", JStr DEFAULT_AUDIENCE);
                        (lit "tone", JStr (tone f));
                        (lit "language", JStr (language f))];
                temperature := 40 |}]
       ++ rest)
  ∧ DEFAULT_AUDIENCE ≠ [].
Proof.
  intros Hs Hk Ha. split; [|done].
  destruct (main_with_key step_final_presenter env ctx1 ctx2 ctx3 gemini f
              Hs Hk) as [He _].
  unfold main. rewrite He, events_try_except, events_bind.
  unfold pipeline at 1. rewrite events_bind.
  unfold final_audience_of at 1. rewrite Ha. cbn [is_empty].
  unfold spinner at 1, step_brief_normalizer.
  rewrite events_bind, events_call_gemini_json. cbn [emit events outcome].
  eexists. rewrite <- !app_assoc. cbn [app]. reflexivity.
Qed.

Lemma default_audience_given_to_step1_witness :
  (∃ rest,
     events (main env_key october october october answers_no_ideas
               smart_bottle)
     = events (header october)
       ++ [Configure (get_api_key env_key);
           CreateModel (lit "gemini-1.5-flash");
           StSpinner (lit "Normalizing brief...");
           Generate
             {| role := BriefNormalizer;
                payload :=
                  JObj [(lit "product", JStr (product smart_bottle));
                        (lit "description", JStr (description smart_bottle));
                        (lit "audience", JStr DEFAULT_AUDIENCE);
                        (lit "tone", JStr (tone smart_bottle));
                        (lit "language", JStr (language smart_bottle))];
                temperature := 40 |}]
       ++ rest)
  ∧ DEFAULT_AUDIENCE ≠ [].
Proof.
  apply (default_audience_given_to_step1 env_key october october october
           answers_no_ideas smart_bottle).
  - reflexivity.
  - by vm_compute.
  - reflexivity.
Defined.

(** ** The presenter *)

Lemma is_idea_inv (v : json) :
  is_idea v = true →
  ∃ d, v = JObj d
       ∧ text_ok d "label" = true ∧ text_ok d "tagline" = true
       ∧ text_ok d "script_30s" = true ∧ text_ok d "cta" = true
       ∧ text_ok d "compliance_notes" = true ∧ captions_ok d = true.
Proof.
  destruct v as [| | | | |?|d]; simpl; try done.
  rewrite !andb_true_iff. intros (((((? & ?) & ?) & ?) & ?) & ?).
  exists d. by repeat split.
Qed.

Lemma field_text (d : list (str * json)) (k : string) :
  text_ok d k = true → field (JObj d) k = Ok (text_of d k).
Proof.
  unfold text_ok, field, text_of, get.
  by destruct (dict_get d (lit k)) as [[]|].
Qed.

Lemma label_of_idea (idea : json) :
  is_idea idea = true → label_of idea = Ok (label_key idea).
Proof.
  intros (d & -> & Hl & _)%is_idea_inv.
  unfold text_ok in Hl. unfold label_of, get, label_key.
  by destruct (dict_get d (lit "label")) as [[]|].
Qed.

(** The block as the f-string of [section_of] writes it. *)
Lemma section_text_block (l : str) (d : list (str * json)) :
  section_text l (text_of d "tagline") (text_of d "script_30s")
    (caption_of d "instagram") (caption_of d "x") (text_of d "cta")
    (compliance_section_of (text_of d "compliance_notes"))
  = block l (JObj d).
Proof.
  unfold section_text, block, block_lines, compliance_section_of.
  destruct (text_of d "compliance_notes"); cbn [join app];
    repeat (rewrite <- ?app_assoc; cbn [app]); reflexivity.
Qed.

Lemma section_of_idea (idea : json) :
  is_idea idea = true → section_of idea = Ok (block (label_key idea) idea).
Proof.
  intros Hi. pose proof (label_of_idea idea Hi) as Hl.
  apply is_idea_inv in Hi as (d & -> & _ & Ht & Hs & Hc & Hn & Hcap).
  unfold section_of. rewrite Hl. cbn [mbind result_bind].
  rewrite (field_text d "tagline" Ht), (field_text d "script_30s" Hs).
  cbn [mbind result_bind get].
  rewrite (field_text d "cta" Hc), (field_text d "compliance_notes" Hn).
  rewrite <- section_text_block.
  unfold captions_ok in Hcap. unfold caption_of.
  destruct (dict_get d (lit "captions")) as [c|]; cbn [default].
  - unfold id.
    destruct c as [|b|z|lx|t|l|c];
      try (apply negb_true_iff in Hcap; rewrite Hcap; reflexivity).
    destruct c as [|kv c]; [reflexivity|].
    apply andb_true_iff in Hcap as [Hig Hx]. cbn [truthy].
    by rewrite (field_text _ "instagram" Hig), (field_text _ "x" Hx).
  - reflexivity.
Qed.

(** The dict comprehension as a left fold of insertions. *)
Lemma by_label_from_fold (ideas : list json) (acc : gmap str json) :
  Forall (fun idea => is_idea idea = true) ideas →
  by_label_from ideas acc
  = Ok (foldl (fun m idea => <[label_key idea := idea]> m) acc ideas).
Proof.
  intros H. revert acc. induction H as [|idea ideas Hi _ IH]; intros acc.
  - reflexivity.
  - cbn [by_label_from foldl]. rewrite (label_of_idea idea Hi).
    cbn [mbind result_bind]. apply IH.
Qed.

(** In the dict, a key holds the last idea that carries it. *)
Lemma lookup_fold_last (l : str) (ideas : list json) (acc : gmap str json) :
  foldl (fun m idea => <[label_key idea := idea]> m) acc ideas !! l
  = match last_labelled l ideas with
    | Some idea => Some idea
    | None => acc !! l
    end.
Proof.
  unfold last_labelled. revert acc.
  induction ideas as [|idea ideas IH]; intros acc; [reflexivity|].
  cbn [foldl]. rewrite IH, filter_cons.
  destruct (decide (label_key idea = l)) as [<-|Hne].
  - rewrite last_cons.
    destruct (last (filter _ ideas)); [reflexivity|].
    by rewrite lookup_insert_eq.
  - destruct (last (filter _ ideas)); [reflexivity|].
    by rewrite lookup_insert_ne.
Qed.

Lemma last_labelled_spec (l : str) (ideas : list json) (idea : json) :
  last_labelled l ideas = Some idea → idea ∈ ideas ∧ label_key idea = l.
Proof.
  unfold last_labelled. intros H.
  apply last_Some_elem_of, list_elem_of_filter in H as [? ?]. by split.
Qed.

(** A labelled idea is a dict with an entry, hence true as a condition. *)
Lemma labelled_truthy (idea : json) :
  label_key idea ≠ [] → truthy idea = true.
Proof.
  destruct idea as [| | | | | |d]; simpl; try done.
  by destruct d.
Qed.

Lemma ordered_of_selected (ideas : list json) :
  ordered_of (foldl (fun m idea => <[label_key idea := idea]> m) ∅ ideas)
  = selected ideas.
Proof.
  unfold ordered_of, selected. rewrite !lookup_fold_last, !lookup_empty.
  cbn [omap list_omap].
  assert (Hsel : ∀ l, l ≠ [] →
    match
      match last_labelled l ideas with Some idea => Some idea | None => None end
    with
    | Some v => if truthy v then Some v else None
    | None => None
    end = last_labelled l ideas).
  { intros l Hl. destruct (last_labelled l ideas) as [idea|] eqn:E; [|done].
    apply last_labelled_spec in E as [_ <-]. by rewrite labelled_truthy. }
  by rewrite !Hsel.
Qed.

Lemma selected_are_ideas (ideas : list json) :
  Forall (fun idea => is_idea idea = true) ideas →
  Forall (fun idea => is_idea idea = true) (selected ideas).
Proof.
  intros H. rewrite Forall_forall in H |- *. intros idea Hin.
  unfold selected in Hin. apply list_elem_of_omap in Hin as (l & _ & Hl).
  apply last_labelled_spec in Hl as [Hl _]. by apply H.
Qed.

Lemma mapM_section_of (l : list json) :
  Forall (fun idea => is_idea idea = true) l →
  mapM section_of l
  = Ok (List.map (fun idea => block (label_key idea) idea) l).
Proof.
  induction 1 as [|idea l Hi _ IH]; [reflexivity|].
  cbn [mapM List.map]. rewrite (section_of_idea idea Hi), IH. reflexivity.
Qed.

(** The presenter on idea objects computes the page of the
    specification. *)
Lemma presenter_presented (ideas : list json) :
  Forall (fun idea => is_idea idea = true) ideas →
  step_final_presenter ideas = Ok (presented ideas).
Proof.
  intros H. unfold step_final_presenter, by_label_of.
  rewrite (by_label_from_fold ideas ∅ H). cbn [mbind result_bind].
  rewrite ordered_of_selected.
  rewrite (mapM_section_of _ (selected_are_ideas ideas H)).
  reflexivity.
Qed.

Lemma last_labelled_selected (l : str) (ideas : list json) :
  l ∈ [lit "A"; lit "B"; lit "C"] →
  last_labelled l (selected ideas) = last_labelled l ideas.
Proof.
  intros Hl. unfold selected. cbn [omap list_omap].
  destruct (last_labelled (lit "A") ideas) as [a|] eqn:Ea;
    destruct (last_labelled (lit "B") ideas) as [b|] eqn:Eb;
    destruct (last_labelled (lit "C") ideas) as [c|] eqn:Ec;
    repeat match goal with
           | H : last_labelled _ ideas = Some _ |- _ =>
               pose proof (proj2 (last_labelled_spec _ _ _ H)); revert H
           end;
    intros;
    repeat (apply elem_of_cons in Hl as [->|Hl]);
    try (by apply elem_of_nil in Hl);
    unfold last_labelled at 1; cbn [option_list app];
    rewrite ?filter_cons, ?filter_nil;
    repeat case_decide; simplify_eq; try done; try congruence;
    exfalso;
    match goal with
    | H : label_key ?x = lit ?s, H' : label_key ?x = lit ?t |- _ =>
        rewrite H in H'; by vm_compute in H'
    end.
Qed.

Lemma selected_idempotent (ideas : list json) :
  selected (selected ideas) = selected ideas.
Proof.
  unfold selected at 1 3. cbn [omap list_omap].
  rewrite !last_labelled_selected; [reflexivity|compute_done..].
Qed.

(** C8, as written, fails on the compliance-notes line: an idea whose
    notes are there but blank gets no such line. *)
Lemma blank_compliance_notes_not_rendered : ¬ notes_line_iff_field.
Proof.
  intros H.
  destruct (H [(lit "label", JStr (lit "A"));
               (lit "tagline", JStr (lit "First"));
               (lit "compliance_notes", JStr [])]
              (presented [idea_A_blank_notes]) eq_refl eq_refl eq_refl)
    as [_ H2].
  assert (Hc : contains (lit "*Compliance Notes: ")
                 (presented [idea_A_blank_notes]) = true)
    by (apply H2; by eexists).
  by vm_compute in Hc.
Qed.

(** C8, amended. On a list of idea objects, the presenter returns the
    blocks of the ideas selected for A, B and C, in that order, a label
    carried by no idea being skipped, joined by a blank line; the block
    of an idea holds its heading, tagline, quoted script, two captions
    and call to action, and its compliance-notes line exactly when the
    trimmed notes are not empty. *)
Theorem presenter_renders_blocks (ideas : list json) :
  Forall (fun idea => is_idea idea = true) ideas →
  step_final_presenter ideas
  = Ok (join [newline; newline]
          (List.map (fun idea => block (label_key idea) idea)
             (omap (fun l => last_labelled l ideas)
                [lit "A"; lit "B"; lit "C"])))
  ∧ ∀ l d,
      lit "*Compliance Notes: " ++ text_of d "compliance_notes" ++ lit "*"
        ∈ block_lines l (JObj d)
      ↔ text_of d "compliance_notes" ≠ [].
Proof.
  intros H. split; [exact (presenter_presented ideas H)|].
  intros l d. unfold block_lines.
  destruct (text_of d "compliance_notes") as [|c notes]; split.
  - intros Hin. exfalso. rewrite app_nil_r in Hin. cbn -[lit] in Hin.
    repeat (apply elem_of_cons in Hin as [Heq|Hin];
            [by vm_compute in Heq|]).
    by apply elem_of_nil in Hin.
  - done.
  - done.
  - intros _. apply elem_of_app. right. apply elem_of_cons. right.
    apply elem_of_cons. by left.
Qed.

Lemma presenter_renders_blocks_witness :
  let ideas := [idea_B; idea_A_blank_notes; idea_a] in
  step_final_presenter ideas
  = Ok (join [newline; newline]
          (List.map (fun idea => block (label_key idea) idea)
             (omap (fun l => last_labelled l ideas)
                [lit "A"; lit "B"; lit "C"])))
  ∧ ∀ l d,
      lit "*Compliance Notes: " ++ text_of d "compliance_notes" ++ lit "*"
        ∈ block_lines l (JObj d)
      ↔ text_of d "compliance_notes" ≠ [].
Proof.
  apply (presenter_renders_blocks [idea_B; idea_A_blank_notes; idea_a]).
  repeat constructor.
Defined.

(** C9. Presenting the same list of idea objects twice gives the same
    text both times. *)
Theorem presenter_twice_identical (ideas : list json) :
  Forall (fun idea => is_idea idea = true) ideas →
  let first := step_final_presenter ideas in
  let second := step_final_presenter ideas in
  ∃ out, first = Ok out ∧ second = Ok out.
Proof.
  intros H first second. exists (presented ideas).
  unfold first, second. by rewrite presenter_presented.
Qed.

Lemma presenter_twice_identical_witness :
  let first := step_final_presenter [idea_a; idea_B] in
  let second := step_final_presenter [idea_a; idea_B] in
  ∃ out, first = Ok out ∧ second = Ok out.
Proof.
  apply (presenter_twice_identical [idea_a; idea_B]). repeat constructor.
Defined.

Lemma filter_none {A} (P : A → Prop) `{∀ x, Decision (P x)} (l : list A) :
  Forall (fun x => ¬ P x) l → filter P l = [].
Proof.
  induction 1 as [|x l Hx _ IH]; [done|].
  rewrite filter_cons. by destruct (decide (P x)).
Qed.

Lemma last_filter_final {A} (P : A → Prop) `{∀ x, Decision (P x)}
    (pre post : list A) (x : A) :
  P x → Forall (fun y => ¬ P y) post →
  last (filter P (pre ++ x :: post)) = Some x.
Proof.
  intros Hx Hpost. rewrite filter_app, filter_cons_True by done.
  rewrite (filter_none P post Hpost).
  rewrite last_app. reflexivity.
Qed.

Lemma last_filter_drop {A} (P : A → Prop) `{∀ x, Decision (P x)}
    (pre post : list A) (x : A) :
  (P x → Exists P post) →
  last (filter P (pre ++ post)) = last (filter P (pre ++ x :: post)).
Proof.
  intros Hx. rewrite !filter_app, filter_cons.
  destruct (decide (P x)) as [Hp|]; [|done].
  rewrite !last_app. rewrite last_cons.
  destruct (last (filter P post)) eqn:E; [done|].
  apply last_None in E. apply Hx, Exists_exists in Hp as (y & Hy & HPy).
  assert (y ∈ filter P post) by (by apply list_elem_of_filter).
  rewrite E in *. by apply elem_of_nil in H0.
Qed.

(** The page as the blocks of the selected ideas, keyed. *)
Lemma presented_by_key (ideas : list json) :
  presented ideas
  = join [newline; newline]
      (omap (fun l => block l <$> last_labelled l ideas)
         [lit "A"; lit "B"; lit "C"]).
Proof.
  unfold presented, selected. cbn [omap list_omap].
  destruct (last_labelled (lit "A") ideas) as [a|] eqn:Ea;
    destruct (last_labelled (lit "B") ideas) as [b|] eqn:Eb;
    destruct (last_labelled (lit "C") ideas) as [c|] eqn:Ec;
    repeat match goal with
           | H : last_labelled _ ideas = Some _ |- _ =>
               apply last_labelled_spec in H as [_ H]
           end;
    cbn [fmap option_fmap option_map List.map]; by rewrite ?Ea, ?Eb, ?Ec.
Qed.

(** C10. On a list of idea objects, the presenter returns, for A, B
    and C in this order, the block of the last idea of the list whose
    label in upper case is that letter, headed by the letter, a letter
    that no idea carries giving no block.  So an idea labelled "a", "b"
    or "c" that no idea of the same letter follows is rendered as
    option A, B or C; and an idea that another of the same letter, in
    either case, follows is not rendered: the block of the letter is
    that of the last such idea, and the page is the page of the list
    without the earlier one. *)
Theorem presenter_selects_last_by_upper_label (ideas : list json) :
  Forall (fun idea => is_idea idea = true) ideas →
  let rendered (l : str) : option str :=
    block l <$> last (filter (fun idea => label_key idea = l) ideas) in
  step_final_presenter ideas
  = Ok (join [newline; newline]
          (omap rendered [lit "A"; lit "B"; lit "C"]))
  ∧ (∀ pre d post s l,
       ideas = pre ++ JObj d :: post →
       dict_get d (lit "label") = Some (JStr s) →
       upper s = l → l ∈ [lit "A"; lit "B"; lit "C"] →
       Forall (fun idea => label_key idea ≠ l) post →
       rendered l = Some (block l (JObj d))
       ∧ ∃ rest, block l (JObj d) = lit "### Option " ++ l ++ newline :: rest)
  ∧ (∀ pre x post l,
       ideas = pre ++ x :: post →
       label_key x = l → l ∈ [lit "A"; lit "B"; lit "C"] →
       Exists (fun idea => label_key idea = l) post →
       rendered l
       = block l <$> last (filter (fun idea => label_key idea = l) post)
       ∧ step_final_presenter (pre ++ post) = step_final_presenter ideas).
Proof.
  intros Hi rendered. split; [|split].
  - rewrite (presenter_presented ideas Hi). f_equal. apply presented_by_key.
  - intros pre d post s l -> Hs Hup Hl Hpost. split.
    + unfold rendered. rewrite last_filter_final; [done| |done].
      unfold label_key. by rewrite Hs.
    + unfold block, block_lines. cbn [join app].
      rewrite <- !app_assoc. eexists. reflexivity.
  - intros pre x post l -> Hx Hl Hpost. split.
    + unfold rendered. rewrite filter_app, filter_cons_True by done.
      rewrite last_app, last_cons.
      destruct (last (filter _ post)) eqn:E; [done|].
      apply last_None in E. apply Exists_exists in Hpost as (y & Hy & HPy).
      assert (Hin : y ∈ filter (fun idea => label_key idea = l) post)
        by (by apply list_elem_of_filter).
      rewrite E in Hin. by apply elem_of_nil in Hin.
    + assert (Hi' : Forall (fun idea => is_idea idea = true) (pre ++ post)).
      { apply Forall_app in Hi as [Hpre [_ Hp]%Forall_cons].
        by apply Forall_app. }
      rewrite (presenter_presented _ Hi), (presenter_presented _ Hi').
      f_equal. rewrite !presented_by_key. unfold last_labelled.
      cbn [omap list_omap].
      by rewrite !(last_filter_drop _ pre post x)
        by (intros Hk; rewrite Hx in Hk; by rewrite <- Hk).
Qed.

Lemma presenter_selects_last_by_upper_label_witness :
  let ideas := [idea_A_blank_notes; idea_B; idea_a] in
  let rendered (l : str) : option str :=
    block l <$> last (filter (fun idea => label_key idea = l) ideas) in
  step_final_presenter ideas
  = Ok (join [newline; newline]
          (omap rendered [lit "A"; lit "B"; lit "C"]))
  ∧ (∀ pre d post s l,
       ideas = pre ++ JObj d :: post →
       dict_get d (lit "label") = Some (JStr s) →
       upper s = l → l ∈ [lit "A"; lit "B"; lit "C"] →
       Forall (fun idea => label_key idea ≠ l) post →
       rendered l = Some (block l (JObj d))
       ∧ ∃ rest, block l (JObj d) = lit "### Option " ++ l ++ newline :: rest)
  ∧ (∀ pre x post l,
       ideas = pre ++ x :: post →
       label_key x = l → l ∈ [lit "A"; lit "B"; lit "C"] →
       Exists (fun idea => label_key idea = l) post →
       rendered l
       = block l <$> last (filter (fun idea => label_key idea = l) post)
       ∧ step_final_presenter (pre ++ post) = step_final_presenter ideas).
Proof.
  apply (presenter_selects_last_by_upper_label
           [idea_A_blank_notes; idea_B; idea_a]).
  repeat constructor.
Defined.

(** ** Worked examples *)

Example loads_object :
  loads (js "{'a': [1, 2.5, true, null], 'b': {'c': 'x'}, 'a': -3}")
  = Some (JObj [(lit "a", JInt (-3));
                (lit "b", JObj [(lit "c", JStr (lit "x"))])]).
Proof. by vm_compute. Qed.

Example loads_trailing_comma : loads (js "[1, 2,]") = None.
Proof. by vm_compute. Qed.

Example loads_extra_data : loads (js "{'a': 1} }") = None.
Proof. by vm_compute. Qed.

Example loads_blank : loads (lit "   ") = None.
Proof. by vm_compute. Qed.

Example search_fence :
  re_search fence_re (js "Sure! ```JSON
{'a': 1}
``` Done.")
  = Some {| m_start := 6; group0 := js "```JSON
{'a': 1}
```"; group1 := Some (js "{'a': 1}") |}.
Proof. by vm_compute. Qed.

Example search_object_greedy :
  group0 <$> re_search object_re (js "x {'a': 1} y {'b': 2} z")
  = Some (js "{'a': 1} y {'b': 2}").
Proof. by vm_compute. Qed.

Example parse_fenced :
  parse_json_str (js "Sure! ```json
{'ideas': []}
``` Done.")
  = Ok (JObj [(lit "ideas", JArr [])]).
Proof. by vm_compute. Qed.

Example parse_fence_before_braces :
  parse_json_str (js "``` [1] ``` and {'a': 1}") = Ok (JArr [JInt 1]).
Proof. by vm_compute. Qed.

Example parse_two_objects :
  parse_json_str (js "{'a': 1} and {'b': 2}") = Raise invalid_json.
Proof. by vm_compute. Qed.

Example parse_whitespace_only :
  parse_json_str (lit "  ") = Raise invalid_json.
Proof. by vm_compute. Qed.

Example present_lowercase_label :
  step_final_presenter [idea_a]
  = Ok (lit "### Option A
#### Sip smart

> It is 2 PM in Riyadh.

**Captions**
- **IG**: Hydrate in style
- **X**: Drink up

**CTA**: Order now

*Compliance Notes: Reviewed*
").
Proof. by vm_compute. Qed.

Example present_last_wins_and_order :
  step_final_presenter [idea_B; idea_a; idea_A_blank_notes]
  = Ok (lit "### Option A
#### First

> 

**Captions**
- **IG**: 
- **X**: 

**CTA**: 


### Option B
#### Second

> 

**Captions**
- **IG**: 
- **X**: 

**CTA**: 
").
Proof. by vm_compute. Qed.

Example present_not_a_dict :
  step_final_presenter [JInt 3]
  = Raise (AttributeError (lit "'int' object has no attribute 'get'")).
Proof. by vm_compute. Qed.

Example run_without_key :
  events (main no_key october october october answers_no_ideas smart_bottle)
  = events (header october) ++ [StError missing_key_message].
Proof. by vm_compute. Qed.

Example run_array_response :
  last (events (main env_key october october october
                  (fun _ => Response (Some (js "[1, 2]"))) smart_bottle))
  = Some (StError
            (lit "Generation failed: 'list' object has no attribute 'get'")).
Proof. by vm_compute. Qed.

(** * Further properties *)

(** ** Whitespace around a text *)

Lemma lstrip_spaces (ws rest : str) :
  Forall (fun c => isspace c = true) ws → lstrip (ws ++ rest) = lstrip rest.
Proof.
  induction 1 as [|c ws Hc _ IH]; [reflexivity|]. simpl. by rewrite Hc.
Qed.

Lemma lstrip_head (s : str) (c : char) (r : str) :
  lstrip s = c :: r → isspace c = false.
Proof.
  induction s as [|a s IH]; simpl; [done|].
  destruct (isspace a) eqn:E; [exact IH|]. intros H. by simplify_eq.
Qed.

Lemma lstrip_idempotent (s : str) : lstrip (lstrip s) = lstrip s.
Proof.
  destruct (lstrip s) as [|c r] eqn:E; [reflexivity|].
  simpl. by rewrite (lstrip_head s c r E).
Qed.

(** The characters [lstrip] removes are whitespace. *)
Lemma lstrip_split (s : str) :
  ∃ ws, s = ws ++ lstrip s ∧ Forall (fun c => isspace c = true) ws.
Proof.
  induction s as [|a s (ws & IH & Hws)]; simpl.
  - by exists [].
  - destruct (isspace a) eqn:E.
    + exists (a :: ws). split; [simpl; by f_equal|by constructor].
    + by exists [].
Qed.

Lemma rstrip_spaces (front ws : str) :
  Forall (fun c => isspace c = true) ws → rstrip (front ++ ws) = rstrip front.
Proof.
  intros H. unfold rstrip. rewrite rev_app_distr.
  rewrite lstrip_spaces; [reflexivity|]. by apply Forall_rev.
Qed.

Lemma rstrip_split (s : str) :
  ∃ ws, s = rstrip s ++ ws ∧ Forall (fun c => isspace c = true) ws.
Proof.
  unfold rstrip. destruct (lstrip_split (rev s)) as (ws & H & Hws).
  exists (rev ws). split; [|by apply Forall_rev].
  rewrite <- rev_app_distr, <- H. by rewrite rev_involutive.
Qed.

Lemma rstrip_idempotent (s : str) : rstrip (rstrip s) = rstrip s.
Proof. unfold rstrip. by rewrite rev_involutive, lstrip_idempotent. Qed.

Lemma lstrip_all_spaces (s : str) :
  Forall (fun c => isspace c = true) s → lstrip s = [].
Proof. induction 1 as [|c s Hc _ IH]; [done|]. simpl. by rewrite Hc. Qed.

Lemma strip_spaces_around (ws1 t ws2 : str) :
  Forall (fun c => isspace c = true) ws1 →
  Forall (fun c => isspace c = true) ws2 →
  strip (ws1 ++ t ++ ws2) = strip t.
Proof.
  intros H1 H2. unfold strip. rewrite (lstrip_spaces ws1 _ H1).
  destruct (lstrip_split t) as (ws & Ht & Hws).
  destruct (lstrip t) as [|c r] eqn:E.
  - rewrite app_nil_r in Ht. subst t.
    rewrite lstrip_all_spaces; [reflexivity|]. by apply Forall_app.
  - rewrite Ht at 1. rewrite <- app_assoc.
    rewrite (lstrip_spaces ws _ Hws). cbn [app lstrip].
    rewrite (lstrip_head t c r E).
    change (c :: r ++ ws2) with ((c :: r) ++ ws2).
    by rewrite rstrip_spaces.
Qed.

Lemma rstrip_cons_nonspace (c : char) (r : str) :
  isspace c = false → rstrip (c :: r) = c :: rstrip r.
Proof. exact (rstrip_app_nonspace r c []). Qed.

Lemma strip_idempotent (s : str) : strip (strip s) = strip s.
Proof.
  unfold strip. destruct (lstrip s) as [|c r] eqn:E; [reflexivity|].
  pose proof (lstrip_head s c r E) as Hc.
  rewrite (rstrip_cons_nonspace c r Hc). cbn [lstrip]. rewrite Hc.
  rewrite (rstrip_cons_nonspace c _ Hc).
  by rewrite rstrip_idempotent.
Qed.

(** X1. Whitespace before and after the text does not change what
    [parse_json_str] returns. *)
Theorem parse_json_str_ignores_outer_whitespace (ws1 text ws2 : str) :
  Forall (fun c => isspace c = true) ws1 →
  Forall (fun c => isspace c = true) ws2 →
  parse_json_str (ws1 ++ text ++ ws2) = parse_json_str text.
Proof.
  intros H1 H2. unfold parse_json_str.
  by rewrite (strip_spaces_around ws1 text ws2 H1 H2).
Qed.

Lemma parse_json_str_ignores_outer_whitespace_witness :
  parse_json_str ([newline; 32%N] ++ js "{'a': 1}" ++ [160%N; newline])
  = parse_json_str (js "{'a': 1}").
Proof.
  apply (parse_json_str_ignores_outer_whitespace [newline; 32%N]
           (js "{'a': 1}") [160%N; newline]);
    repeat constructor.
Defined.

(** ** What the two patterns need *)

Lemma elem_of_strip (c : char) (s : str) : c ∈ strip s → c ∈ s.
Proof.
  unfold strip. intros H.
  destruct (lstrip_suffix s) as [ws Hs]. rewrite Hs.
  apply elem_of_app. right.
  destruct (rstrip_prefix (lstrip s)) as [ws' Hr]. rewrite Hr.
  apply elem_of_app. by left.
Qed.

Lemma search_needs_first_char (c0 : char) (rest : regex) (pos : nat)
    (s : str) :
  c0 ∉ s → search_from (RSeq (RChar (is_char c0)) rest) pos s = None.
Proof.
  revert pos. induction s as [|c s IH]; intros pos Hno; [reflexivity|].
  cbn [search_from]. unfold match_here. cbn [rmatch]. unfold is_char at 1.
  destruct (N.eqb_spec c c0) as [->|_].
  - exfalso. apply Hno. by left.
  - apply IH. intros ?. apply Hno. by right.
Qed.

Lemma fence_attempt_no_backtick (t : str) :
  backtick ∉ t → fence_attempt t = None.
Proof.
  intros H. unfold fence_attempt, re_search, fence_re. cbn [rseq].
  by rewrite search_needs_first_char.
Qed.

Lemma object_attempt_no_brace (t : str) :
  lbrace ∉ t → object_attempt t = None.
Proof.
  intros H. unfold object_attempt, re_search, object_re. cbn [rseq].
  by rewrite search_needs_first_char.
Qed.

(** X2. A text that is not JSON as a whole and holds neither a
    backtick nor an opening brace makes [parse_json_str] raise the
    "Model did not return valid JSON." error. *)
Theorem parse_json_str_no_json_raises (text : str) :
  loads (strip text) = None → backtick ∉ text → lbrace ∉ text →
  parse_json_str text = Raise invalid_json.
Proof.
  intros Hd Hb Ho. unfold parse_json_str, direct_attempt. rewrite Hd.
  rewrite fence_attempt_no_backtick
    by (intros ?; by apply Hb, elem_of_strip).
  by rewrite object_attempt_no_brace
    by (intros ?; by apply Ho, elem_of_strip).
Qed.

Lemma parse_json_str_no_json_raises_witness :
  parse_json_str (lit "Sorry, I cannot help with that.") = Raise invalid_json.
Proof.
  apply (parse_json_str_no_json_raises
           (lit "Sorry, I cannot help with that.")).
  - by vm_compute.
  - compute_done.
  - compute_done.
Defined.

(** ** The value of the brace attempt *)

Lemma star_greedy_calls_suffix {R} (p : char → bool) (s : str)
    (k : str → option R) (x : R) :
  star_greedy p s k = Some x →
  ∃ s', length s' ≤ length s ∧ k s' = Some x.
Proof.
  induction s as [|c s IH]; simpl.
  - intros H. exists []. by split.
  - destruct (p c).
    + destruct (star_greedy p s k) as [y|] eqn:E.
      * intros ?; simplify_eq. destruct (IH eq_refl) as (s' & ? & ?).
        exists s'. split; [lia|done].
      * intros H. exists (c :: s). by split.
    + intros H. exists (c :: s). by split.
Qed.

Lemma match_here_object_re_starts (pos : nat) (s : str) (m : rematch) :
  match_here object_re pos s = Some m → ∃ r, group0 m = lbrace :: r.
Proof.
  unfold match_here, object_re. cbn [rseq rmatch].
  destruct s as [|c s1]; [done|]. unfold is_char at 1.
  destruct (N.eqb_spec c lbrace) as [->|]; [|done].
  intros H. apply star_greedy_calls_suffix in H as (s' & Hlen & H).
  destruct s' as [|c2 s3]; [done|]. destruct (is_char rbrace c2); [|done].
  simplify_eq. cbn [group0 length]. simpl in Hlen.
  replace (S (length s1) - length s3) with (S (length s1 - length s3)) by lia.
  by eexists.
Qed.

Lemma search_object_re_starts (pos : nat) (s : str) (m : rematch) :
  search_from object_re pos s = Some m → ∃ r, group0 m = lbrace :: r.
Proof.
  revert pos. induction s as [|c s IH]; intros pos; cbn [search_from].
  - done.
  - destruct (match_here object_re pos (c :: s)) eqn:E.
    + intros ?; simplify_eq. by eapply match_here_object_re_starts.
    + apply IH.
Qed.

Lemma object_attempt_is_object (t : str) (v : json) :
  object_attempt t = Some v → ∃ d, v = JObj d.
Proof.
  unfold object_attempt, re_search.
  destruct (search_from object_re 0 t) as [m|] eqn:E; [|done].
  apply search_object_re_starts in E as [r ->].
  apply loads_brace_is_object.
Qed.

(** X3. A value that [parse_json_str] returns after the direct parse
    and the fenced block have failed is a JSON object: a list, string,
    number, boolean or null can only come from those two. *)
Theorem parse_json_str_braces_give_object (text : str) (v : json) :
  direct_attempt (strip text) = None →
  fence_attempt (strip text) = None →
  parse_json_str text = Ok v →
  ∃ d, v = JObj d.
Proof.
  unfold parse_json_str. intros -> ->.
  destruct (object_attempt (strip text)) as [w|] eqn:E; [|done].
  intros ?; simplify_eq. by eapply object_attempt_is_object.
Qed.

Lemma parse_json_str_braces_give_object_witness :
  ∃ d, JObj [(lit "ideas", JArr [])] = JObj d.
Proof.
  apply (parse_json_str_braces_give_object
           (js "Here you go: {'ideas': []} Enjoy!")).
  - by vm_compute.
  - by vm_compute.
  - by vm_compute.
Defined.

(** ** The fenced block *)

Section FenceRe.
Context {R : Type}.

Local Abbreviation tick := (RChar (is_char backtick)).
Local Abbreviation closing_re :=
  (RSeq (RStar isspace) (RSeq tick (RSeq tick tick))).
Local Abbreviation body_re := (RSeq (RGroup (RLazy any_char)) closing_re).

Lemma star_greedy_prefix (p : char → bool) (w rest : str)
    (k : str → option R) (x : R) :
  Forall (fun c => p c = true) w →
  star_greedy p rest k = Some x →
  star_greedy p (w ++ rest) k = Some x.
Proof.
  intros Hw Hk. induction Hw as [|c w Hc _ IH]; [done|].
  simpl. by rewrite Hc, IH.
Qed.

(** Whitespace and the closing fence. *)
Lemma rmatch_closing (w post : str) (g : option str)
    (k : str → option str → option R) (x : R) :
  Forall (fun c => isspace c = true) w →
  k post g = Some x →
  rmatch closing_re (w ++ fence ++ post) g k = Some x.
Proof.
  intros Hw Hk. cbn [rmatch]. by apply star_greedy_prefix.
Qed.

(** No closing fence after whitespace and a character that is neither
    whitespace nor a backtick. *)
Lemma rmatch_closing_fails (u : str) (c : char) (rest : str)
    (g : option str) (k : str → option str → option R) :
  Forall (fun c => isspace c = true) u →
  isspace c = false → c ≠ backtick →
  rmatch closing_re (u ++ c :: rest) g k = None.
Proof.
  intros Hu Hc Hb. cbn [rmatch].
  induction Hu as [|a u Ha _ IH]; simpl.
  - rewrite Hc. unfold is_char. by destruct (N.eqb_spec c backtick).
  - rewrite Ha, IH. unfold is_char.
    destruct (N.eqb_spec a backtick) as [->|]; [by vm_compute in Ha|done].
Qed.

(** Lazy repetition stops at the first place where the rest of the
    pattern matches. *)
Lemma star_lazy_first (y rest : str) (k : str → option R) (x : R) :
  (∀ i, i < length y → k (drop i y ++ rest) = None) →
  k rest = Some x →
  star_lazy any_char (y ++ rest) k = Some x.
Proof.
  intros Hfail Hk. induction y as [|c y IH].
  - simpl. destruct rest; simpl; by rewrite Hk.
  - cbn [app star_lazy].
    assert (H0 : k (c :: y ++ rest) = None) by (apply (Hfail 0); simpl; lia).
    rewrite H0. cbn [any_char].
    apply IH. intros i Hi. apply (Hfail (S i)). simpl. lia.
Qed.

Lemma rmatch_seq (a b : regex) (s : str) (g : option str)
    (k : str → option str → option R) :
  rmatch (RSeq a b) s g k = rmatch a s g (fun s' g' => rmatch b s' g' k).
Proof. reflexivity. Qed.

Lemma rmatch_char_cons (p : char → bool) (c : char) (s : str)
    (g : option str) (k : str → option str → option R) :
  rmatch (RChar p) (c :: s) g k = if p c then k s g else None.
Proof. reflexivity. Qed.

Lemma star_greedy_stop (p : char → bool) (c : char) (s : str)
    (k : str → option R) :
  p c = false → star_greedy p (c :: s) k = k (c :: s).
Proof. intros H. simpl. by rewrite H. Qed.

(** The block, as short as possible, then whitespace and the closing
    fence: the group is the text before the trailing whitespace. *)
Lemma rmatch_body (y w post : str) (g : option str)
    (k : str → option str → option R) (x : R) :
  (∀ i, i < length y →
     ∃ u c r, drop i y = u ++ c :: r
              ∧ Forall (fun c => isspace c = true) u
              ∧ isspace c = false ∧ c ≠ backtick) →
  Forall (fun c => isspace c = true) w →
  k post (Some y) = Some x →
  rmatch body_re (y ++ w ++ fence ++ post) g k = Some x.
Proof.
  intros Hy Hw Hk. rewrite rmatch_seq. cbn [rmatch].
  apply star_lazy_first.
  - intros i Hi. destruct (Hy i Hi) as (u & c & r & -> & Hu & Hc & Hb).
    rewrite <- app_assoc. cbn [app].
    by apply (rmatch_closing_fails u c).
  - replace (length (y ++ w ++ fence ++ post) - length (w ++ fence ++ post))
      with (length y) by (rewrite (length_app y); lia).
    rewrite take_app_length. by apply rmatch_closing.
Qed.

End FenceRe.

Lemma rstrip_length (s : str) : length (rstrip s) ≤ length s.
Proof.
  destruct (rstrip_split s) as (ws & H & _).
  rewrite H at 2. rewrite length_app. lia.
Qed.

(** In a text without trailing whitespace, every suffix holds a
    character that is not whitespace. *)
Lemma stripped_suffix_split (y : str) (i : nat) :
  rstrip y = y → backtick ∉ y → i < length y →
  ∃ u c r, drop i y = u ++ c :: r
           ∧ Forall (fun c => isspace c = true) u
           ∧ isspace c = false ∧ c ≠ backtick.
Proof.
  intros Hy Hb Hi.
  destruct (lstrip_split (drop i y)) as (ws & Hz & Hws).
  destruct (lstrip (drop i y)) as [|c r] eqn:E.
  - exfalso. rewrite app_nil_r in Hz.
    assert (Hlen : length (rstrip y) ≤ i).
    { rewrite <- (take_drop i y) at 1. rewrite Hz.
      rewrite (rstrip_spaces _ ws Hws).
      etrans; [apply rstrip_length|]. rewrite length_take. lia. }
    rewrite Hy in Hlen. lia.
  - exists ws, c, r. repeat split; [done|done|by eapply lstrip_head|].
    intros ->. apply Hb. rewrite <- (take_drop i y), Hz.
    apply elem_of_app. right. apply elem_of_app. right. by left.
Qed.

Section FenceBlock.
Context {R : Type}.

Local Abbreviation tick := (RChar (is_char backtick)).
Local Abbreviation closing_re :=
  (RSeq (RStar isspace) (RSeq tick (RSeq tick tick))).
Local Abbreviation body_re := (RSeq (RGroup (RLazy any_char)) closing_re).
Local Abbreviation json_word :=
  (RSeq (RChar (letter_ci [106; 74]%N))
     (RSeq (RChar (letter_ci [115; 83; 383]%N))
        (RSeq (RChar (letter_ci [111; 79]%N))
           (RChar (letter_ci [110; 78]%N))))).

(** Whitespace, the block, whitespace, the closing fence: the group is
    the stripped interior. *)
Lemma rmatch_interior (x post : str) (k : str → option str → option R)
    (res : R) :
  backtick ∉ x →
  k post (Some (strip x)) = Some res →
  rmatch (RSeq (RStar isspace) body_re) (x ++ fence ++ post) None k
  = Some res.
Proof.
  intros Hb Hk. rewrite rmatch_seq.
  change (rmatch (RStar isspace) ?s ?g ?k0)
    with (star_greedy isspace s (fun s' => k0 s' g)).
  destruct (lstrip_split x) as (w0 & Hx & Hw0).
  destruct (rstrip_split (lstrip x)) as (w & Hl & Hw).
  fold (strip x) in Hl.
  rewrite Hx at 1. rewrite <- app_assoc.
  apply star_greedy_prefix; [done|].
  assert (Hstop :
    ∀ k0 : str → option R,
      star_greedy isspace (lstrip x ++ fence ++ post) k0
      = k0 (lstrip x ++ fence ++ post)).
  { intros k0. destruct (lstrip x) as [|c r] eqn:E.
    - by apply star_greedy_stop.
    - apply star_greedy_stop. by eapply lstrip_head. }
  rewrite Hstop. rewrite Hl at 1. rewrite <- app_assoc.
  apply rmatch_body; [|done|done].
  intros i Hi. apply stripped_suffix_split; [|by intros ?%elem_of_strip|done].
  unfold strip. apply rstrip_idempotent.
Qed.

Lemma rmatch_json_word (b rest : str) (g : option str)
    (k : str → option str → option R) :
  rmatch json_word (b ++ fence ++ rest) g k
  = match b with
    | a1 :: a2 :: a3 :: a4 :: r =>
        if json_tag a1 a2 a3 a4 then k (r ++ fence ++ rest) g else None
    | _ => None
    end.
Proof.
  unfold json_tag.
  destruct b as [|a1 [|a2 [|a3 [|a4 r]]]]; cbn [app fence];
    rewrite !rmatch_seq, ?rmatch_char_cons;
    repeat match goal with
           | |- context [letter_ci ?l ?a] =>
               destruct (letter_ci l a) eqn:?;
               cbn [andb]; rewrite ?rmatch_seq, ?rmatch_char_cons
           end;
    try reflexivity; by vm_compute in *.
Qed.

(** The tag, when it is there, is taken. *)
Lemma rmatch_tag (b rest : str) (k : str → option str → option R) (res : R) :
  k (drop_json_tag b ++ fence ++ rest) None = Some res →
  rmatch (ROpt json_word) (b ++ fence ++ rest) None k = Some res.
Proof.
  intros Hk.
  change (rmatch (ROpt json_word) (b ++ fence ++ rest) None k)
    with (match rmatch json_word (b ++ fence ++ rest) None k with
          | Some x => Some x
          | None => k (b ++ fence ++ rest) None
          end).
  rewrite rmatch_json_word. unfold drop_json_tag in Hk.
  destruct b as [|a1 [|a2 [|a3 [|a4 r]]]]; try done.
  destruct (json_tag a1 a2 a3 a4); by rewrite Hk.
Qed.

End FenceBlock.

Lemma not_in_drop_json_tag (c : char) (b : str) :
  c ∉ b → c ∉ drop_json_tag b.
Proof.
  intros Hc Hin. apply Hc. unfold drop_json_tag in Hin.
  destruct b as [|a1 [|a2 [|a3 [|a4 r]]]]; try done.
  destruct (json_tag a1 a2 a3 a4); [|done].
  do 4 (apply elem_of_cons; right). done.
Qed.

Lemma match_here_fence (pos : nat) (b post : str) :
  backtick ∉ b →
  ∃ g0,
    match_here fence_re pos (fence ++ b ++ fence ++ post)
    = Some {| m_start := pos; group0 := g0;
              group1 := Some (strip (drop_json_tag b)) |}.
Proof.
  intros Hb. eexists. unfold match_here, fence_re. cbn [rseq fence app].
  rewrite !rmatch_seq, !rmatch_char_cons.
  change (is_char backtick backtick) with true. cbv iota.
  rewrite !rmatch_seq, !rmatch_char_cons.
  change (is_char backtick backtick) with true. cbv iota.
  rewrite !rmatch_seq, !rmatch_char_cons.
  change (is_char backtick backtick) with true. cbv iota.
  change (backtick :: backtick :: backtick :: post) with (fence ++ post).
  rewrite rmatch_seq.
  apply rmatch_tag. apply rmatch_interior.
  - by apply not_in_drop_json_tag.
  - reflexivity.
Qed.

Lemma search_skips_prefix (c0 : char) (rest : regex) (pos : nat)
    (pre s : str) :
  c0 ∉ pre →
  search_from (RSeq (RChar (is_char c0)) rest) pos (pre ++ s)
  = search_from (RSeq (RChar (is_char c0)) rest) (pos + length pre) s.
Proof.
  revert pos. induction pre as [|c pre IH]; intros pos Hno.
  - simpl. by rewrite Nat.add_0_r.
  - cbn [app search_from]. unfold match_here at 1. cbn [rmatch].
    unfold is_char at 1. destruct (N.eqb_spec c c0) as [->|_].
    + exfalso. apply Hno. by left.
    + rewrite IH by (intros ?; apply Hno; by right).
      f_equal. simpl. lia.
Qed.

Lemma search_from_here (r : regex) (pos : nat) (s : str) (m : rematch) :
  match_here r pos s = Some m → search_from r pos s = Some m.
Proof. intros H. destruct s; simpl; by rewrite H. Qed.

(** [re.search] with the fence pattern on a text whose first backticks
    open a fenced block: group 1 is the stripped interior, tag apart. *)
Lemma fence_attempt_block (pre b post : str) :
  backtick ∉ pre → backtick ∉ b →
  fence_attempt (pre ++ fence ++ b ++ fence ++ post)
  = loads (strip (drop_json_tag b)).
Proof.
  intros Hpre Hb. unfold fence_attempt, re_search.
  unfold fence_re at 1. cbn [rseq].
  rewrite search_skips_prefix by done.
  destruct (match_here_fence (0 + length pre) b post Hb) as [g0 Hm].
  unfold fence_re in Hm. cbn [rseq] in Hm.
  rewrite (search_from_here _ _ _ _ Hm). cbn [group1 default id].
  by rewrite strip_idempotent.
Qed.

(** X4. In a text that is not JSON as a whole and whose first
    backticks open a fenced block, with or without the [json] tag in any
    case, [parse_json_str] returns the value of the stripped interior of
    the block when the interior parses. *)
Theorem parse_json_str_recovers_fenced_block (text pre b post : str)
    (v : json) :
  text = pre ++ fence ++ b ++ fence ++ post →
  backtick ∉ pre → backtick ∉ b →
  direct_attempt (strip text) = None →
  loads (strip (drop_json_tag b)) = Some v →
  parse_json_str text = Ok v.
Proof.
  intros -> Hpre Hb Hd Hv. unfold parse_json_str. rewrite Hd.
  assert (Hs : strip (pre ++ fence ++ b ++ fence ++ post)
               = lstrip pre ++ fence ++ b ++ fence ++ rstrip post).
  { pose proof (strip_around pre ([backtick; backtick] ++ b
                                   ++ [backtick; backtick]) post
                  backtick backtick eq_refl eq_refl) as H.
    cbn [fence app]. cbn [app] in H. rewrite <- !app_assoc in H.
    cbn [app] in H. exact H. }
  rewrite Hs. rewrite fence_attempt_block; [by rewrite Hv| |done].
  intros Hin. apply Hpre.
  destruct (lstrip_suffix pre) as [ws Hws]. rewrite Hws.
  apply elem_of_app. by right.
Qed.

Lemma parse_json_str_recovers_fenced_block_witness :
  parse_json_str (js "Here it is: ```JSON
  {'ideas': []}
``` Hope this helps {a}.")
  = Ok (JObj [(lit "ideas", JArr [])]).
Proof.
  apply (parse_json_str_recovers_fenced_block _ (js "Here it is: ")
           (js "JSON
  {'ideas': []}
") (js " Hope this helps {a}.")).
  - reflexivity.
  - compute_done.
  - compute_done.
  - by vm_compute.
  - by vm_compute.
Defined.

(** ** The brace-delimited text is tried whole *)

(** X5. With the direct parse and the fenced block failing,
    [parse_json_str] tries only the text from the first opening brace to
    the last closing brace: when that text does not parse, as with two
    objects side by side, it raises, whatever narrower object the text
    holds. *)
Theorem parse_json_str_widest_span_only (text pre mid post : str) :
  text = pre ++ lbrace :: mid ++ rbrace :: post →
  lbrace ∉ pre → rbrace ∉ post →
  direct_attempt (strip text) = None →
  fence_attempt (strip text) = None →
  loads (lbrace :: mid ++ [rbrace]) = None →
  parse_json_str text = Raise invalid_json.
Proof.
  intros -> Hpre Hpost Hdirect Hfence Hspan.
  unfold parse_json_str. rewrite Hdirect, Hfence.
  unfold object_attempt, re_search.
  rewrite strip_around by done.
  destruct (lstrip_suffix pre) as [ws Hws].
  destruct (rstrip_prefix post) as [ws' Hws'].
  rewrite search_object_re; simpl.
  - by rewrite Hspan.
  - intros Hin. apply Hpre. rewrite Hws. apply elem_of_app. by right.
  - intros Hin. apply Hpost. rewrite Hws'. apply elem_of_app. by left.
Qed.

Lemma parse_json_str_widest_span_only_witness :
  parse_json_str (js "First {'a': 1} then {'b': 2}.") = Raise invalid_json.
Proof.
  apply (parse_json_str_widest_span_only _ (js "First ")
           (js "'a': 1} then {'b': 2") (js ".")).
  - reflexivity.
  - compute_done.
  - compute_done.
  - by vm_compute.
  - by vm_compute.
  - by vm_compute.
Defined.

(** ** The three attempts *)

Lemma search_object_re_no_closing (pos : nat) (s : str) :
  rbrace ∉ s → search_from object_re pos s = None.
Proof.
  revert pos. induction s as [|c s IH]; intros pos Hno; [reflexivity|].
  cbn [search_from].
  assert (Hs : rbrace ∉ s) by (intros ?; apply Hno; by right).
  rewrite (IH _ Hs).
  destruct (decide (c = lbrace)) as [->|Hc].
  - unfold match_here, object_re. cbn [rseq].
    change (rmatch (RSeq ?a ?b) (lbrace :: ?s) ?g ?k) with (rmatch b s g k).
    by rewrite rmatch_tail_no_closing.
  - by rewrite match_here_object_re_not_brace.
Qed.

Lemma object_attempt_span (pre mid post : str) :
  lbrace ∉ pre → rbrace ∉ post →
  object_attempt (pre ++ lbrace :: mid ++ rbrace :: post)
  = loads (lbrace :: mid ++ [rbrace]).
Proof.
  intros Hpre Hpost. unfold object_attempt, re_search.
  by rewrite search_object_re.
Qed.

Lemma object_attempt_no_closing (pre rest : str) :
  lbrace ∉ pre → rbrace ∉ rest →
  object_attempt (pre ++ lbrace :: rest) = None.
Proof.
  intros Hpre Hrest. unfold object_attempt, re_search.
  unfold object_re at 1. cbn [rseq]. rewrite search_skips_prefix by done.
  cbn [search_from].
  change (RSeq (RChar (is_char lbrace))
            (RSeq (RStar any_char) (RChar (is_char rbrace)))) with object_re.
  rewrite search_object_re_no_closing by done.
  unfold match_here, object_re. cbn [rseq].
  change (rmatch (RSeq ?a ?b) (lbrace :: ?s) ?g ?k) with (rmatch b s g k).
  by rewrite rmatch_tail_no_closing.
Qed.

(** C2. [parse_json_str] returns the value of the first of its three
    attempts on the stripped text that succeeds, a failed attempt
    leading to the next one, and raises, and then the
    "Model did not return valid JSON." error, exactly when all three
    fail.  The first attempt parses the stripped text.  The second
    parses the stripped interior of the fenced block, its [json] tag
    apart, when the first backticks of the text open a block, and fails
    on a text without a backtick.  The third parses the text from the
    first opening brace to the last closing brace, and fails when there
    is no opening brace or no closing brace after the first opening one.
    The empty text fails. *)
Theorem parse_json_str_attempts (text : str) :
  let t := strip text in
  parse_json_str text
  = from_option Ok (Raise invalid_json)
      (loads t ∪ fence_attempt t ∪ object_attempt t)
  ∧ ((∃ e, parse_json_str text = Raise e)
     ↔ loads t = None ∧ fence_attempt t = None ∧ object_attempt t = None)
  ∧ (∀ pre b post,
       t = pre ++ fence ++ b ++ fence ++ post →
       backtick ∉ pre → backtick ∉ b →
       fence_attempt t = loads (strip (drop_json_tag b)))
  ∧ (backtick ∉ t → fence_attempt t = None)
  ∧ (∀ pre mid post,
       t = pre ++ lbrace :: mid ++ rbrace :: post →
       lbrace ∉ pre → rbrace ∉ post →
       object_attempt t = loads (lbrace :: mid ++ [rbrace]))
  ∧ (∀ pre rest,
       t = pre ++ lbrace :: rest → lbrace ∉ pre → rbrace ∉ rest →
       object_attempt t = None)
  ∧ (lbrace ∉ t → object_attempt t = None)
  ∧ parse_json_str [] = Raise invalid_json.
Proof.
  intros t.
  split; [|split; [|split; [|split; [|split; [|split; [|split]]]]]].
  - unfold parse_json_str, direct_attempt. fold t.
    by destruct (loads t), (fence_attempt t), (object_attempt t).
  - unfold parse_json_str, direct_attempt. fold t.
    destruct (loads t), (fence_attempt t), (object_attempt t);
      split; try (by intros [e He]); try (by intros (? & ? & ?)); eauto.
  - intros pre b post -> Hpre Hb. by apply fence_attempt_block.
  - apply fence_attempt_no_backtick.
  - intros pre mid post -> Hpre Hpost. by apply object_attempt_span.
  - intros pre rest -> Hpre Hrest. by apply object_attempt_no_closing.
  - apply object_attempt_no_brace.
  - by vm_compute.
Qed.

Lemma parse_json_str_attempts_witness :
  parse_json_str (js " Here it is: ```json
{'a': 1}
``` and {'b': 2} ") = Ok (JObj [(lit "a", JInt 1)])
  ∧ parse_json_str (js "Here it is: {'b': [2]} :-)")
    = Ok (JObj [(lit "b", JArr [JInt 2])]).
Proof.
  split.
  - destruct (parse_json_str_attempts (js " Here it is: ```json
{'a': 1}
``` and {'b': 2} ")) as (Heq & _ & Hfence & _).
    rewrite Heq.
    rewrite (Hfence (js "Here it is: ") (js "json
{'a': 1}
") (js " and {'b': 2}")); [by vm_compute|by vm_compute|compute_done..].
  - destruct (parse_json_str_attempts (js "Here it is: {'b': [2]} :-)"))
      as (Heq & _ & _ & Hnone & Hspan & _).
    rewrite Heq, Hnone by compute_done.
    rewrite (Hspan (js "Here it is: ") (js "'b': [2]") (js " :-)"));
      [by vm_compute|by vm_compute|compute_done..].
Defined.

(** ** [get_api_key] *)

(** X6. [get_api_key] returns the first non-empty string among the
    secret GEMINI_API_KEY, the secret GOOGLE_API_KEY, the environment
    variable GEMINI_API_KEY and the environment variable GOOGLE_API_KEY,
    in this order, a secret whose lookup raises being passed over; it
    returns the empty string when there is none. *)
Theorem get_api_key_first_usable (env : environment) :
  get_api_key env = first_usable (key_sources env).
Proof.
  unfold get_api_key, key_sources.
  destruct (secret env (lit "GEMINI_API_KEY")) as [[[|c1 s1]|]|];
    destruct (secret env (lit "GOOGLE_API_KEY")) as [[[|c2 s2]|]|];
    destruct (getenv env (lit "GEMINI_API_KEY")) as [[|c3 s3]|];
    destruct (getenv env (lit "GOOGLE_API_KEY")) as [[|c4 s4]|];
    reflexivity.
Qed.

(** ** [call_gemini_json] and the steps *)

Lemma strip_blank (s : str) :
  Forall (fun c => isspace c = true) s → strip s = [].
Proof. intros H. unfold strip. by rewrite (lstrip_all_spaces s H). Qed.

(** X7. A response whose text is missing, empty or blank makes
    [call_gemini_json] raise the "Model did not return valid JSON."
    error, after the one model call. *)
Theorem call_gemini_json_blank_response (m : model) (rq : request)
    (t : option str) :
  m rq = Response t →
  Forall (fun c => isspace c = true) (default [] t) →
  call_gemini_json m rq = IO [Generate rq] (Throw invalid_json).
Proof.
  intros Hm Hblank. apply io_eq.
  - apply events_call_gemini_json.
  - rewrite outcome_call_gemini_json, Hm, outcome_lift.
    unfold parse_json_str. by rewrite (strip_blank _ Hblank).
Qed.

Lemma call_gemini_json_blank_response_witness :
  call_gemini_json (fun _ => Response None)
    {| role := IdeaWriter; payload := JNull; temperature := 85 |}
  = IO [Generate {| role := IdeaWriter; payload := JNull;
                    temperature := 85 |}]
       (Throw invalid_json).
Proof.
  apply (call_gemini_json_blank_response (fun _ => Response None) _ None).
  - reflexivity.
  - constructor.
Defined.

(** X8. A step that reads a list out of the value of the step before
    it raises an [AttributeError] and makes no model call when that
    value is not a dict; step 7 does so too when the brief is not a
    dict. *)
Theorem steps_need_dicts (m : model) (ctx : context) (brief up : json)
    (b : list (str * json)) :
  (∀ d, up ≠ JObj d) →
  step_angle_generator m ctx brief up = IO [] (Throw (no_attribute up "get"))
  ∧ step_idea_writer m brief up = IO [] (Throw (no_attribute up "get"))
  ∧ step_critic_improve m brief up = IO [] (Throw (no_attribute up "get"))
  ∧ step_compliance_check m brief up = IO [] (Throw (no_attribute up "get"))
  ∧ step_localize_polish m (JObj b) up
    = IO [] (Throw (no_attribute up "get"))
  ∧ step_localize_polish m up brief = IO [] (Throw (no_attribute up "get")).
Proof.
  intros Hup.
  destruct up as [| | | | | |d]; try (by repeat split).
  by destruct (Hup d).
Qed.

Lemma steps_need_dicts_witness :
  step_angle_generator answers_no_ideas october JNull (JArr [])
  = IO [] (Throw (no_attribute (JArr []) "get"))
  ∧ step_idea_writer answers_no_ideas JNull (JArr [])
    = IO [] (Throw (no_attribute (JArr []) "get"))
  ∧ step_critic_improve answers_no_ideas JNull (JArr [])
    = IO [] (Throw (no_attribute (JArr []) "get"))
  ∧ step_compliance_check answers_no_ideas JNull (JArr [])
    = IO [] (Throw (no_attribute (JArr []) "get"))
  ∧ step_localize_polish answers_no_ideas (JObj []) (JArr [])
    = IO [] (Throw (no_attribute (JArr []) "get"))
  ∧ step_localize_polish answers_no_ideas (JArr []) JNull
    = IO [] (Throw (no_attribute (JArr []) "get")).
Proof.
  apply (steps_need_dicts answers_no_ideas october JNull (JArr []) []).
  intros d. discriminate.
Defined.

(** ** Runs of the pipeline *)

(** Only [st.stop()] halts the script, and no step calls it. *)
Lemma bind_never_halts {A B} (m : io A) (f : A → io B) :
  outcome m ≠ Halt → (∀ a, outcome (f a) ≠ Halt) → outcome (m ≫= f) ≠ Halt.
Proof.
  intros Hm Hf. rewrite outcome_bind. destruct (outcome m); [apply Hf|done..].
Qed.

Lemma lift_never_halts {A} (r : result A) : outcome (lift r) ≠ Halt.
Proof. by destruct r. Qed.

Lemma call_never_halts m rq : outcome (call_gemini_json m rq) ≠ Halt.
Proof.
  rewrite outcome_call_gemini_json. destruct (m rq); [|done].
  apply lift_never_halts.
Qed.

Lemma spinner_never_halts {A} (text : string) (body : io A) :
  outcome body ≠ Halt → outcome (spinner text body) ≠ Halt.
Proof. intros H. unfold spinner. by apply bind_never_halts. Qed.

Ltac never_halts :=
  repeat first
    [ apply spinner_never_halts
    | apply call_never_halts
    | apply lift_never_halts
    | apply bind_never_halts; [|intros ?] ].

Lemma pipeline_never_halts m ctx2 ctx3 f a :
  outcome (pipeline m ctx2 ctx3 f a) ≠ Halt.
Proof.
  unfold pipeline, step_brief_normalizer, step_market_intelligence,
    step_angle_generator, step_idea_writer, step_critic_improve,
    step_compliance_check, step_localize_polish.
  never_halts.
Qed.

(** X9. When a step raises, be it a failed model call, a response
    that is not JSON or a value of the wrong kind, a submitted run with a
    key shows "Generation failed: " and the text of the exception as its
    only message, shows no result, and ends normally. *)
Theorem step_failure_reported env ctx1 ctx2 ctx3 gemini f (e : exn) :
  submitted f = true → get_api_key env ≠ [] →
  outcome (pipeline gemini ctx2 ctx3 f (final_audience_of f)) = Throw e →
  let r := main env ctx1 ctx2 ctx3 gemini f in
  outcome r = Return tt
  ∧ last (events r) = Some (StError (generation_failed e))
  ∧ filter shown (events r) = [StError (generation_failed e)].
Proof.
  intros Hs Hk Hpipe r.
  destruct (main_with_key step_final_presenter env ctx1 ctx2 ctx3 gemini f
              Hs Hk) as [He Ho].
  unfold r, main. rewrite Ho, He.
  rewrite outcome_try_except, events_try_except, outcome_bind, events_bind.
  rewrite Hpipe. cbn [emit outcome events]. rewrite app_nil_r.
  repeat split.
  - rewrite !app_assoc. apply last_snoc.
  - rewrite !filter_app, (shown_silent _ (silent_pipeline _ _ _ _ _)).
    reflexivity.
Qed.

Lemma step_failure_reported_witness :
  let r := main env_key october october october
             (fun _ => Failure (ModelError (lit "429 quota exceeded")))
             smart_bottle in
  outcome r = Return tt
  ∧ last (events r)
    = Some (StError (generation_failed (ModelError (lit "429 quota exceeded"))))
  ∧ filter shown (events r)
    = [StError (generation_failed (ModelError (lit "429 quota exceeded")))].
Proof.
  apply (step_failure_reported env_key october october october
           (fun _ => Failure (ModelError (lit "429 quota exceeded")))
           smart_bottle).
  - reflexivity.
  - by vm_compute.
  - reflexivity.
Defined.

(** *** The order of the model calls *)

Lemma calls_app (l1 l2 : list event) : calls (l1 ++ l2) = calls l1 ++ calls l2.
Proof. unfold calls. apply omap_app. Qed.

Lemma calls_bind {A B} (m : io A) (f : A → io B) :
  calls (events (m ≫= f))
  = calls (events m)
    ++ match outcome m with Return a => calls (events (f a)) | _ => [] end.
Proof. rewrite events_bind, calls_app. by destruct (outcome m). Qed.

Lemma one_call_direct (text : string) (m : model) (rq : request) :
  one_call (role rq) (spinner text (call_gemini_json m rq)).
Proof.
  left. unfold spinner. rewrite calls_bind. cbn [emit outcome events].
  by rewrite events_call_gemini_json.
Qed.

Lemma one_call_after_get (text : string) (m : model) (up : json)
    (key : string) (dflt : json) (rq : json → request) (s : step_name) :
  (∀ x, role (rq x) = s) →
  one_call s
    (spinner text (x ← lift (get up key dflt); call_gemini_json m (rq x))).
Proof.
  intros Hrole. unfold spinner, one_call.
  rewrite calls_bind, outcome_bind. cbn [emit outcome events].
  rewrite calls_bind, outcome_bind, events_lift, outcome_lift.
  destruct (get up key dflt) as [x|e].
  - left. by rewrite events_call_gemini_json, <- (Hrole x).
  - right. by split.
Qed.

Lemma one_call_brief_normalizer m p d a t l :
  one_call BriefNormalizer
    (spinner "Normalizing brief..." (step_brief_normalizer m p d a t l)).
Proof. exact (one_call_direct _ _ _). Qed.

Lemma one_call_market_intelligence m ctx brief :
  one_call MarketIntelligence
    (spinner "Analyzing KSA market intelligence..."
       (step_market_intelligence m ctx brief)).
Proof. exact (one_call_direct _ _ _). Qed.

Lemma one_call_angle_generator m ctx brief mi :
  one_call AngleGenerator
    (spinner "Generating culturally-informed creative angles..."
       (step_angle_generator m ctx brief mi)).
Proof. by apply one_call_after_get. Qed.

Lemma one_call_idea_writer m brief angles :
  one_call IdeaWriter
    (spinner "Writing campaign ideas..." (step_idea_writer m brief angles)).
Proof. by apply one_call_after_get. Qed.

Lemma one_call_critic_improve m brief ideas :
  one_call CriticImprove
    (spinner "Critiquing and improving ideas..."
       (step_critic_improve m brief ideas)).
Proof. by apply one_call_after_get. Qed.

Lemma one_call_compliance_check m brief ideas :
  one_call ComplianceCheck
    (spinner "Checking compliance and cultural guidelines..."
       (step_compliance_check m brief ideas)).
Proof. by apply one_call_after_get. Qed.

Lemma one_call_localize_polish m brief ideas :
  one_call LocalizePolish
    (spinner "Localizing and polishing..."
       (step_localize_polish m brief ideas)).
Proof.
  unfold step_localize_polish, spinner, one_call.
  rewrite calls_bind, outcome_bind. cbn [emit outcome events].
  destruct brief as [| | | | | |b]; try (right; by split).
  destruct ideas as [| | | | | |d]; try (right; by split).
  left. repeat (rewrite calls_bind; cbn [get lift outcome events]).
  by rewrite events_call_gemini_json.
Qed.

Lemma prefix_step {A B} (s : step_name) (rest : list step_name) (m : io A)
    (f : A → io B) :
  one_call s m →
  (∀ a, calls (events (f a)) `prefix_of` rest) →
  calls (events (m ≫= f)) `prefix_of` (s :: rest).
Proof.
  intros [Hc|[Hc Hnr]] Hf; rewrite calls_bind, Hc.
  - destruct (outcome m) as [a| |]; cbn [app].
    + by apply prefix_cons.
    + apply prefix_cons, prefix_nil.
    + apply prefix_cons, prefix_nil.
  - destruct (outcome m) as [a| |]; [by destruct (Hnr a)|apply prefix_nil..].
Qed.

Lemma one_call_prefix {A} (s : step_name) (m : io A) :
  one_call s m → calls (events m) `prefix_of` [s].
Proof. intros [->|[-> _]]; [done|apply prefix_nil]. Qed.

Lemma calls_pipeline m ctx2 ctx3 f a :
  calls (events (pipeline m ctx2 ctx3 f a)) `prefix_of` all_steps.
Proof.
  unfold pipeline, all_steps.
  apply prefix_step; [apply one_call_brief_normalizer|intros brief].
  apply prefix_step; [apply one_call_market_intelligence|intros mi].
  apply prefix_step; [apply one_call_angle_generator|intros angles].
  apply prefix_step; [apply one_call_idea_writer|intros ideas].
  apply prefix_step; [apply one_call_critic_improve|intros improved].
  apply prefix_step; [apply one_call_compliance_check|intros compliant].
  apply one_call_prefix, one_call_localize_polish.
Qed.

(** What follows step 7 ends in one of four ways. *)
Lemma present_with_cases presenter (v : json) :
  (∃ e, present_with presenter v = IO [] (Throw e))
  ∨ present_with presenter v = IO [StError no_ideas_message] Halt
  ∨ ∃ md, present_with presenter v = IO [StMarkdown md] (Return tt).
Proof.
  unfold present_with. destruct (get v "ideas" (JArr [])) as [fi|e] eqn:E.
  - cbn [lift]. unfold mbind, io_bind. cbn [outcome events app].
    destruct (no_ideas fi).
    + right. left. reflexivity.
    + cbn [mret io_ret outcome events app].
      destruct (presenter (items_of fi)) as [md|e].
      * right. right. by exists md.
      * left. by exists e.
  - left. by exists e.
Qed.

Lemma main_not_submitted env ctx1 ctx2 ctx3 gemini f :
  submitted f = false →
  main env ctx1 ctx2 ctx3 gemini f = IO (events (header ctx1)) (Return tt).
Proof. intros H. unfold main, main_with. by rewrite H. Qed.

Lemma main_no_key env ctx1 ctx2 ctx3 gemini f :
  submitted f = true → get_api_key env = [] →
  main env ctx1 ctx2 ctx3 gemini f
  = IO (events (header ctx1) ++ [StError missing_key_message]) Halt.
Proof. intros Hs Hk. unfold main, main_with. by rewrite Hs, Hk. Qed.

Lemma calls_requests (evs : list event) :
  calls evs = role <$> requests evs.
Proof.
  unfold calls, requests. induction evs as [|e evs IH]; [done|].
  destruct e; cbn [omap list_omap fmap list_fmap]; by rewrite ?IH.
Qed.

Lemma stops_bind gemini {A B} (m : io A) (f : A → io B) :
  stops_at_failure gemini m → (∀ a, stops_at_failure gemini (f a)) →
  stops_at_failure gemini (m ≫= f).
Proof.
  intros Hm Hf pre rq post Heq Hfail.
  rewrite requests_bind in Heq. rewrite outcome_bind.
  apply app_eq_inv in Heq as [(k & Hk1 & Hk2)|(k & Hk1 & Hk2)].
  - destruct k as [|rq' k].
    + rewrite app_nil_r in Hk1. cbn [app] in Hk2.
      destruct (outcome m) as [a| |] eqn:E; [|done..].
      apply (Hf a [] rq post); [by rewrite <- Hk2|done].
    + cbn [app] in Hk2. simplify_eq.
      destruct (Hm _ _ _ Hk1 Hfail) as [-> Hnr].
      destruct (outcome m) as [a| |]; [by destruct (Hnr a)|done..].
  - destruct (outcome m) as [a| |] eqn:E; [|by destruct k..].
    apply (Hf a k rq post); [by rewrite Hk2|done].
Qed.

Lemma stops_lift gemini {A} (r : result A) : stops_at_failure gemini (lift r).
Proof.
  intros pre rq post Heq _. rewrite events_lift in Heq.
  by destruct pre.
Qed.

Lemma stops_call gemini rq : stops_at_failure gemini (call_gemini_json gemini rq).
Proof.
  intros pre rq' post Heq Hfail. rewrite requests_call_gemini_json in Heq.
  destruct pre as [|? [|? ?]]; simplify_eq/=. by split.
Qed.

Lemma stops_spinner gemini {A} (text : string) (body : io A) :
  stops_at_failure gemini body → stops_at_failure gemini (spinner text body).
Proof.
  intros H pre rq post Heq Hfail.
  rewrite requests_spinner in Heq. rewrite outcome_spinner. by apply (H pre rq).
Qed.

Lemma stops_pipeline gemini ctx2 ctx3 f a :
  stops_at_failure gemini (pipeline gemini ctx2 ctx3 f a).
Proof.
  unfold pipeline, step_brief_normalizer, step_market_intelligence,
    step_angle_generator, step_idea_writer, step_critic_improve,
    step_compliance_check, step_localize_polish.
  repeat first
    [ apply stops_spinner
    | apply stops_call
    | apply stops_lift
    | apply stops_bind; [|intros ?] ].
Qed.

(** A piece that returns has made its call. *)
Lemma calls_step_returns {A B} (s : step_name) (m : io A) (f : A → io B)
    (rest : list step_name) (b : B) :
  one_call s m →
  (∀ a, outcome (f a) = Return b → calls (events (f a)) = rest) →
  outcome (m ≫= f) = Return b →
  calls (events (m ≫= f)) = s :: rest.
Proof.
  intros Hone Hf. rewrite outcome_bind, calls_bind.
  destruct (outcome m) as [a| |] eqn:E; [|done..].
  intros Hb. destruct Hone as [->|[_ Hnr]]; [|by destruct (Hnr a)].
  by rewrite (Hf a Hb).
Qed.

Lemma calls_pipeline_returns m ctx2 ctx3 f a (v : json) :
  outcome (pipeline m ctx2 ctx3 f a) = Return v →
  calls (events (pipeline m ctx2 ctx3 f a)) = all_steps.
Proof.
  unfold pipeline, all_steps.
  apply calls_step_returns; [apply one_call_brief_normalizer|intros brief].
  apply calls_step_returns; [apply one_call_market_intelligence|intros mi].
  apply calls_step_returns; [apply one_call_angle_generator|intros angles].
  apply calls_step_returns; [apply one_call_idea_writer|intros ideas].
  apply calls_step_returns; [apply one_call_critic_improve|intros improved].
  apply calls_step_returns; [apply one_call_compliance_check|intros compliant].
  intros Hr.
  destruct (one_call_localize_polish m brief compliant) as [->|[_ Hnr]];
    [done|by destruct (Hnr v)].
Qed.

(** The requests of a submitted run with a key are those of the steps. *)
Lemma requests_main env ctx1 ctx2 ctx3 gemini f :
  submitted f = true → get_api_key env ≠ [] →
  requests (events (main env ctx1 ctx2 ctx3 gemini f))
  = requests (events (pipeline gemini ctx2 ctx3 f (final_audience_of f))).
Proof.
  intros Hs Hk.
  destruct (main_with_key step_final_presenter env ctx1 ctx2 ctx3 gemini f
              Hs Hk) as [He _].
  unfold main. rewrite He. unfold requests at 1. rewrite !omap_app.
  change (omap _ (events (header ctx1))) with (@nil request).
  change (omap _ [Configure _; CreateModel _]) with (@nil request).
  cbn [app]. rewrite events_try_except, omap_app, events_bind, omap_app.
  rewrite outcome_bind.
  fold (requests (events (pipeline gemini ctx2 ctx3 f (final_audience_of f)))).
  rewrite <- app_assoc.
  rewrite <- (app_nil_r (requests _)) at 2. f_equal.
  destruct (outcome (pipeline gemini ctx2 ctx3 f (final_audience_of f)))
    as [v|e|]; try reflexivity.
  destruct (present_with_cases step_final_presenter v)
    as [[e ->]|[->|[md ->]]]; reflexivity.
Qed.

Lemma main_failure_reported env ctx1 ctx2 ctx3 gemini f :
  submitted f = true → get_api_key env ≠ [] →
  (∀ v, outcome (pipeline gemini ctx2 ctx3 f (final_audience_of f))
        ≠ Return v) →
  ∃ e, last (events (main env ctx1 ctx2 ctx3 gemini f))
       = Some (StError (generation_failed e)).
Proof.
  intros Hs Hk Hnr.
  pose proof (pipeline_never_halts gemini ctx2 ctx3 f (final_audience_of f))
    as Hh.
  destruct (outcome (pipeline gemini ctx2 ctx3 f (final_audience_of f)))
    as [v|e|] eqn:Hpipe; [by destruct (Hnr v)| |done].
  exists e.
  destruct (main_with_key step_final_presenter env ctx1 ctx2 ctx3 gemini f
              Hs Hk) as [He _].
  unfold main. rewrite He, events_try_except, outcome_bind, events_bind.
  rewrite Hpipe. cbn [emit outcome events]. rewrite app_nil_r.
  rewrite !app_assoc. apply last_snoc.
Qed.

(** X10. In every run the model calls are those of the steps 1, 2, 3,
    ... in this order, up to some step: no step is called twice or out
    of order.  A call that fails, the model raising or its text holding
    no JSON, is the last call of the run, which then ends on the
    "Generation failed" message.  And a submitted run with a key that
    makes fewer than the seven calls ends on that message: the calls
    stop early only when a step has raised. *)
Theorem model_calls_in_step_order env ctx1 ctx2 ctx3 gemini f :
  let r := main env ctx1 ctx2 ctx3 gemini f in
  calls (events r) `prefix_of` all_steps
  ∧ (∀ pre rq post,
       requests (events r) = pre ++ rq :: post →
       (∀ v, outcome (call_gemini_json gemini rq) ≠ Return v) →
       post = []
       ∧ ∃ e, last (events r) = Some (StError (generation_failed e)))
  ∧ (submitted f = true → get_api_key env ≠ [] →
     calls (events r) ≠ all_steps →
     ∃ e, last (events r) = Some (StError (generation_failed e))).
Proof.
  intros r. split; [|split].
  - unfold r. clear r.
    destruct (submitted f) eqn:Hs;
      [|rewrite main_not_submitted by done; apply prefix_nil].
    destruct (decide (get_api_key env = [])) as [Hk|Hk];
      [rewrite main_no_key by done; apply prefix_nil|].
    destruct (main_with_key step_final_presenter env ctx1 ctx2 ctx3 gemini f
                Hs Hk) as [He _].
    unfold main. rewrite He, !calls_app. cbn [app].
    change (calls (events (header ctx1))) with (@nil step_name).
    change (calls [Configure _; CreateModel _]) with (@nil step_name).
    cbn [app]. rewrite events_try_except, calls_app, calls_bind.
    pose proof (calls_pipeline gemini ctx2 ctx3 f (final_audience_of f)) as Hp.
    assert (Hrest : ∀ l : list step_name, l `prefix_of` all_steps →
              ∀ k, k = [] → l ++ k `prefix_of` all_steps)
      by (intros l Hl k ->; by rewrite app_nil_r).
    rewrite <- app_assoc. apply Hrest; [done|].
    rewrite outcome_bind.
    destruct (outcome (pipeline gemini ctx2 ctx3 f (final_audience_of f)))
      as [v|e|]; try reflexivity.
    destruct (present_with_cases step_final_presenter v)
      as [[e ->]|[->|[md ->]]]; reflexivity.
  - intros pre rq post Heq Hfail.
    destruct (submitted f) eqn:Hs;
      [|unfold r in Heq; rewrite main_not_submitted in Heq by done;
        by destruct pre].
    destruct (decide (get_api_key env = [])) as [Hk|Hk];
      [unfold r in Heq; rewrite main_no_key in Heq by done; by destruct pre|].
    unfold r in Heq. rewrite requests_main in Heq by done.
    destruct (stops_pipeline gemini ctx2 ctx3 f (final_audience_of f)
                pre rq post Heq Hfail) as [-> Hnr].
    split; [done|]. by apply main_failure_reported.
  - intros Hs Hk Hc. apply main_failure_reported; [done..|].
    intros v Hv. apply Hc. unfold r.
    rewrite calls_requests, requests_main, <- calls_requests by done.
    by eapply calls_pipeline_returns.
Qed.

Lemma model_calls_in_step_order_witness :
  let r := main env_key october october october fails_at_angles
             smart_bottle in
  calls (events r) = [BriefNormalizer; MarketIntelligence; AngleGenerator]
  ∧ ∃ e, last (events r) = Some (StError (generation_failed e)).
Proof.
  split; [by vm_compute|].
  destruct (model_calls_in_step_order env_key october october october
              fails_at_angles smart_bottle) as (_ & _ & H).
  apply H; [reflexivity|by vm_compute|by vm_compute].
Defined.

(** X11. A run of the script on a submitted form shows exactly one
    message, an error or the result; a run on a form that was not
    submitted shows none. *)
Theorem one_message_per_run env ctx1 ctx2 ctx3 gemini f :
  length (filter shown (events (main env ctx1 ctx2 ctx3 gemini f)))
  = if submitted f then 1 else 0.
Proof.
  destruct (submitted f) eqn:Hs;
    [|by rewrite main_not_submitted by done].
  destruct (decide (get_api_key env = [])) as [Hk|Hk];
    [by rewrite main_no_key by done|].
  destruct (main_with_key step_final_presenter env ctx1 ctx2 ctx3 gemini f
              Hs Hk) as [He _].
  unfold main. rewrite He, events_try_except, events_bind, outcome_bind.
  rewrite !filter_app, (shown_silent _ (silent_pipeline _ _ _ _ _)).
  pose proof (pipeline_never_halts gemini ctx2 ctx3 f (final_audience_of f))
    as Hh.
  destruct (outcome (pipeline gemini ctx2 ctx3 f (final_audience_of f)))
    as [v|e|]; [|reflexivity|done].
  destruct (present_with_cases step_final_presenter v)
    as [[e ->]|[->|[md ->]]]; reflexivity.
Qed.

(** ** The page of a run *)

Lemma label_of_labelled (idea : json) :
  labelled idea = true → label_of idea = Ok (label_key idea).
Proof.
  destruct idea as [| | | | | |d]; try done. cbn [labelled].
  unfold text_ok, label_of, get, label_key.
  by destruct (dict_get d (lit "label")) as [[]|].
Qed.

Lemma by_label_from_fold_labelled (ideas : list json) (acc : gmap str json) :
  Forall (fun idea => labelled idea = true) ideas →
  by_label_from ideas acc
  = Ok (foldl (fun m idea => <[label_key idea := idea]> m) acc ideas).
Proof.
  intros H. revert acc. induction H as [|idea ideas Hi _ IH]; intros acc.
  - reflexivity.
  - cbn [by_label_from foldl]. rewrite (label_of_labelled idea Hi).
    cbn [mbind result_bind]. apply IH.
Qed.

(** The presenter reads the label of every element and the other
    fields of the selected ideas only. *)
Lemma presenter_presented_selected (ideas : list json) :
  Forall (fun idea => labelled idea = true) ideas →
  Forall (fun idea => is_idea idea = true) (selected ideas) →
  step_final_presenter ideas = Ok (presented ideas).
Proof.
  intros Hl Hs. unfold step_final_presenter, by_label_of.
  rewrite (by_label_from_fold_labelled ideas ∅ Hl). cbn [mbind result_bind].
  rewrite ordered_of_selected, (mapM_section_of _ Hs). reflexivity.
Qed.

(** A run whose step 7 returns a list that the presenter renders. *)
Lemma main_result env ctx1 ctx2 ctx3 gemini f (d : list (str * json))
    (ideas : list json) (md : str) :
  submitted f = true → get_api_key env ≠ [] →
  outcome (pipeline gemini ctx2 ctx3 f (final_audience_of f))
  = Return (JObj d) →
  dict_get d (lit "ideas") = Some (JArr ideas) → ideas ≠ [] →
  step_final_presenter ideas = Ok md →
  let r := main env ctx1 ctx2 ctx3 gemini f in
  outcome r = Return tt
  ∧ last (events r) = Some (StMarkdown md)
  ∧ filter shown (events r) = [StMarkdown md].
Proof.
  intros Hs Hk Hpipe Hd Hne Hmd r.
  destruct (main_with_key step_final_presenter env ctx1 ctx2 ctx3 gemini f
              Hs Hk) as [He Ho].
  assert (Hp : present_with step_final_presenter (JObj d)
               = IO [StMarkdown md] (Return tt)).
  { unfold present_with, get. rewrite Hd. cbn [from_option id lift].
    unfold mbind, io_bind. cbn [outcome events app].
    destruct ideas as [|i ideas']; [done|].
    cbn [no_ideas mret io_ret outcome events app items_of].
    by rewrite Hmd. }
  unfold r, main. rewrite Ho, He.
  rewrite outcome_try_except, events_try_except, outcome_bind, events_bind.
  rewrite Hpipe, Hp. cbn [outcome events]. rewrite app_nil_r.
  repeat split.
  - rewrite !app_assoc. apply last_snoc.
  - rewrite !filter_app, (shown_silent _ (silent_pipeline _ _ _ _ _)).
    reflexivity.
Qed.

(** X12. When the seven steps succeed and step 7 returns a dict
    whose "ideas" entry is a non-empty list of idea objects, the run
    shows the page of these ideas as its only message and ends
    normally. *)
Theorem result_shown env ctx1 ctx2 ctx3 gemini f (d : list (str * json))
    (ideas : list json) :
  submitted f = true → get_api_key env ≠ [] →
  outcome (pipeline gemini ctx2 ctx3 f (final_audience_of f))
  = Return (JObj d) →
  dict_get d (lit "ideas") = Some (JArr ideas) → ideas ≠ [] →
  Forall (fun idea => is_idea idea = true) ideas →
  let r := main env ctx1 ctx2 ctx3 gemini f in
  outcome r = Return tt
  ∧ last (events r) = Some (StMarkdown (presented ideas))
  ∧ filter shown (events r) = [StMarkdown (presented ideas)].
Proof.
  intros Hs Hk Hpipe Hd Hne Hi.
  by apply (main_result env ctx1 ctx2 ctx3 gemini f d ideas);
    [..|apply presenter_presented].
Qed.

Lemma result_shown_witness :
  let r := main env_key october october october answers_three_ideas
             smart_bottle in
  outcome r = Return tt
  ∧ last (events r) = Some (StMarkdown (presented three_ideas))
  ∧ filter shown (events r) = [StMarkdown (presented three_ideas)].
Proof.
  apply (result_shown env_key october october october answers_three_ideas
           smart_bottle [(lit "ideas", JArr three_ideas)] three_ideas).
  - reflexivity.
  - by vm_compute.
  - by vm_compute.
  - reflexivity.
  - discriminate.
  - repeat constructor.
Defined.

Lemma selected_none (ideas : list json) :
  Forall (fun idea => label_key idea ∉ [lit "A"; lit "B"; lit "C"]) ideas →
  selected ideas = [].
Proof.
  intros H. unfold selected, last_labelled. cbn [omap list_omap].
  rewrite !filter_none; [reflexivity|..];
    (eapply Forall_impl; [exact H|]); intros idea Hn Heq; apply Hn;
    rewrite Heq; compute_done.
Qed.

(** X13. When step 7 returns a non-empty list of dicts whose labels
    are strings or missing, none of them A, B or C in either case, the
    run shows an empty page and no error. *)
Theorem unlabelled_ideas_give_empty_page env ctx1 ctx2 ctx3 gemini f
    (d : list (str * json)) (ideas : list json) :
  submitted f = true → get_api_key env ≠ [] →
  outcome (pipeline gemini ctx2 ctx3 f (final_audience_of f))
  = Return (JObj d) →
  dict_get d (lit "ideas") = Some (JArr ideas) → ideas ≠ [] →
  Forall (fun idea => labelled idea = true) ideas →
  Forall (fun idea => label_key idea ∉ [lit "A"; lit "B"; lit "C"]) ideas →
  let r := main env ctx1 ctx2 ctx3 gemini f in
  outcome r = Return tt ∧ filter shown (events r) = [StMarkdown []].
Proof.
  intros Hs Hk Hpipe Hd Hne Hl Hn.
  assert (Hmd : step_final_presenter ideas = Ok []).
  { rewrite presenter_presented_selected; [|done|by rewrite selected_none].
    unfold presented. by rewrite selected_none. }
  destruct (main_result env ctx1 ctx2 ctx3 gemini f d ideas [] Hs Hk Hpipe
              Hd Hne Hmd) as (Ho & _ & Hsh).
  by split.
Qed.

Lemma unlabelled_ideas_give_empty_page_witness :
  let r := main env_key october october october answers_numbered_ideas
             smart_bottle in
  outcome r = Return tt ∧ filter shown (events r) = [StMarkdown []].
Proof.
  apply (unlabelled_ideas_give_empty_page env_key october october october
           answers_numbered_ideas smart_bottle
           [(lit "ideas", JArr numbered_ideas)] numbered_ideas).
  - reflexivity.
  - by vm_compute.
  - by vm_compute.
  - reflexivity.
  - discriminate.
  - repeat constructor.
  - repeat constructor; compute_done.
Defined.

(** X14. In every submitted run with a key, the audience handed to
    step 1 is not empty and carries no whitespace at either end: it is
    the trimmed audience field, or the default market string when that
    is empty. *)
Theorem step1_audience_trimmed env ctx1 ctx2 ctx3 gemini f :
  submitted f = true → get_api_key env ≠ [] →
  let a := final_audience_of f in
  (∃ rest,
     events (main env ctx1 ctx2 ctx3 gemini f)
     = events (header ctx1)
       ++ [Configure (get_api_key env);
           CreateModel (lit "gemini-1.5-flash");
           StSpinner (lit "Normalizing brief...");
           Generate
             {| role := BriefNormalizer;
                payload :=
                  JObj [(lit "product", JStr (product f));
                        (lit "description", JStr (description f));
                        (lit "audience", JStr a);
                        (lit "tone", JStr (tone f));
                        (lit "language", JStr (language f))];
                temperature := 40 |}]
       ++ rest)
  ∧ a ≠ [] ∧ strip a = a
  ∧ (a = strip (audience f)
     ∨ strip (audience f) = [] ∧ a = DEFAULT_AUDIENCE).
Proof.
  intros Hs Hk a. split.
  { destruct (main_with_key step_final_presenter env ctx1 ctx2 ctx3 gemini f
                Hs Hk) as [He _].
    unfold main. rewrite He, events_try_except, events_bind.
    unfold pipeline at 1. rewrite events_bind.
    unfold spinner at 1, step_brief_normalizer.
    rewrite events_bind, events_call_gemini_json. cbn [emit events outcome].
    eexists. rewrite <- !app_assoc. cbn [app]. reflexivity. }
  unfold a, final_audience_of.
  destruct (strip (audience f)) as [|c r] eqn:E; cbn [is_empty].
  - split; [done|]. split; [by vm_compute|]. by right.
  - split; [done|]. split; [|by left].
    rewrite <- E. apply strip_idempotent.
Qed.

Lemma step1_audience_trimmed_witness :
  let f := {| product := lit "Smart Bottle";
              description := lit "Tracks hydration";
              audience := lit "  runners in Jeddah ";
              tone := lit "friendly"; language := lit "English";
              submitted := true |} in
  let a := final_audience_of f in
  (∃ rest,
     events (main env_key october october october answers_no_ideas f)
     = events (header october)
       ++ [Configure (get_api_key env_key);
           CreateModel (lit "gemini-1.5-flash");
           StSpinner (lit "Normalizing brief...");
           Generate
             {| role := BriefNormalizer;
                payload :=
                  JObj [(lit "product", JStr (product f));
                        (lit "description", JStr (description f));
                        (lit "audience", JStr a);
                        (lit "tone", JStr (tone f));
                        (lit "language", JStr (language f))];
                temperature := 40 |}]
       ++ rest)
  ∧ a ≠ [] ∧ strip a = a
  ∧ (a = strip (audience f)
     ∨ strip (audience f) = [] ∧ a = DEFAULT_AUDIENCE).
Proof.
  intros f.
  apply (step1_audience_trimmed env_key october october october
           answers_no_ideas f).
  - reflexivity.
  - by vm_compute.
Defined.

(** ** More on the presenter *)

(** X15. The presenter reads the label of every element of the list
    but the other fields of the selected ideas only: an idea that a
    later idea of the same label replaces may hold anything in them. *)
Theorem presenter_reads_selected_ideas_only (ideas : list json) :
  Forall (fun idea => labelled idea = true) ideas →
  Forall (fun idea => is_idea idea = true) (selected ideas) →
  step_final_presenter ideas = Ok (presented ideas).
Proof. apply presenter_presented_selected. Qed.

Lemma presenter_reads_selected_ideas_only_witness :
  step_final_presenter [idea_A_broken; idea_B; idea_a]
  = Ok (presented [idea_A_broken; idea_B; idea_a]).
Proof.
  apply (presenter_reads_selected_ideas_only [idea_A_broken; idea_B; idea_a]);
    repeat constructor.
Defined.

Lemma filter_label_at_most_one (l : str) (ideas : list json) :
  NoDup (label_key <$> ideas) →
  length (filter (fun idea => label_key idea = l) ideas) ≤ 1.
Proof.
  induction ideas as [|idea ideas IH]; [simpl; lia|].
  rewrite fmap_cons, NoDup_cons. intros [Hnot Hnd].
  rewrite filter_cons. destruct (decide (label_key idea = l)) as [<-|].
  - rewrite filter_none; [simpl; lia|].
    apply Forall_forall. intros x Hx Heq. apply Hnot. rewrite <- Heq.
    by apply list_elem_of_fmap_2.
  - by apply IH.
Qed.

Lemma short_permutation_eq {A} (l1 l2 : list A) :
  l1 ≡ₚ l2 → length l1 ≤ 1 → l1 = l2.
Proof.
  intros Hp Hlen. destruct l1 as [|x [|y l1]]; [| |simpl in Hlen; lia].
  - by apply Permutation_nil_l.
  - by apply Permutation_singleton_l.
Qed.

Lemma selected_permutation (ideas ideas' : list json) :
  ideas ≡ₚ ideas' → NoDup (label_key <$> ideas) →
  selected ideas' = selected ideas.
Proof.
  intros Hp Hnd. unfold selected, last_labelled. cbn [omap list_omap].
  assert (H : ∀ l, filter (fun idea => label_key idea = l) ideas'
                   = filter (fun idea => label_key idea = l) ideas).
  { intros l. symmetry. apply short_permutation_eq.
    - by rewrite Hp.
    - by apply filter_label_at_most_one. }
  by rewrite !H.
Qed.

(** X16. When no two ideas of the list carry the same label, case
    apart, the page does not depend on the order of the list. *)
Theorem presenter_order_independent (ideas ideas' : list json) :
  ideas ≡ₚ ideas' →
  NoDup (label_key <$> ideas) →
  Forall (fun idea => is_idea idea = true) ideas →
  step_final_presenter ideas' = step_final_presenter ideas.
Proof.
  intros Hp Hnd Hi.
  rewrite (presenter_presented ideas Hi).
  rewrite presenter_presented by (by rewrite <- Hp).
  unfold presented. by rewrite (selected_permutation ideas ideas' Hp Hnd).
Qed.

Lemma presenter_order_independent_witness :
  step_final_presenter [idea_B; idea_a] = step_final_presenter [idea_a; idea_B].
Proof.
  apply (presenter_order_independent [idea_a; idea_B] [idea_B; idea_a]).
  - apply Permutation_swap.
  - compute_done.
  - repeat constructor.
Defined.

Lemma Forall_filter_keep {A} (P : A → Prop) (Q : A → Prop)
    `{∀ x, Decision (Q x)} (l : list A) :
  Forall P l → Forall P (filter Q l).
Proof.
  rewrite !Forall_forall. intros Hl x [_ Hx]%list_elem_of_filter. by apply Hl.
Qed.

(** X17. Ideas labelled otherwise than A, B or C have no effect on
    the page. *)
Theorem presenter_ignores_other_labels (ideas : list json) :
  Forall (fun idea => is_idea idea = true) ideas →
  step_final_presenter
    (filter (fun idea => label_key idea ∈ [lit "A"; lit "B"; lit "C"]) ideas)
  = step_final_presenter ideas.
Proof.
  intros Hi.
  rewrite (presenter_presented ideas Hi).
  rewrite presenter_presented by (by apply Forall_filter_keep).
  unfold presented, selected, last_labelled. cbn [omap list_omap].
  rewrite !list_filter_filter_l; [reflexivity|..];
    intros idea ->; compute_done.
Qed.

Lemma presenter_ignores_other_labels_witness :
  step_final_presenter
    (filter (fun idea => label_key idea ∈ [lit "A"; lit "B"; lit "C"])
       (idea_a :: numbered_ideas))
  = step_final_presenter (idea_a :: numbered_ideas).
Proof.
  apply (presenter_ignores_other_labels (idea_a :: numbered_ideas)).
  repeat constructor.
Defined.




(** ** [json.loads] reads back what [json.dumps] writes *)

(** *** Integers *)

Lemma digits_value_snoc (ds : str) (d : char) :
  digits_value (ds ++ [d])
  = (digits_value ds * 10 + Z.of_N (d - 48))%Z.
Proof. unfold digits_value. by rewrite fold_left_app. Qed.

Lemma digits_fuel_spec (fuel : nat) (n : N) :
  0 < fuel → (n < 10 ^ N.of_nat fuel)%N →
  digits_value (digits_fuel fuel n) = Z.of_N n
  ∧ Forall (fun c => is_digit c = true) (digits_fuel fuel n)
  ∧ ∃ d ds, digits_fuel fuel n = d :: ds ∧ (n ≠ 0%N → d ≠ 48%N).
Proof.
  revert n. induction fuel as [|f IH]; intros n Hf Hn; [lia|].
  cbn [digits_fuel]. destruct (N.ltb_spec n 10) as [Hlt|Hge].
  - repeat split.
    + unfold digits_value. cbn [fold_left].
      replace (48 + n - 48)%N with n by lia. lia.
    + constructor; [|done]. unfold is_digit.
      apply andb_true_iff. split; apply N.leb_le; lia.
    + exists (48 + n)%N, []. split; [done|]. lia.
  - assert (Hdiv : (n / 10 < 10 ^ N.of_nat f)%N).
    { apply N.Div0.div_lt_upper_bound.
      rewrite Nat2N.inj_succ, N.pow_succ_r' in Hn. lia. }
    assert (Hq : (n / 10 ≠ 0)%N).
    { intros H0. apply N.div_small_iff in H0; lia. }
    assert (Hf' : 0 < f).
    { destruct f; [|lia]. change (10 ^ N.of_nat 0)%N with 1%N in Hdiv. lia. }
    destruct (IH _ Hf' Hdiv) as (Hv & Hd & d & ds & Heq & Hnz).
    repeat split.
    + rewrite digits_value_snoc, Hv.
      pose proof (N.div_mod n 10 ltac:(lia)) as Hm.
      replace (48 + n mod 10 - 48)%N with (n mod 10)%N
        by (by rewrite N.add_comm, N.add_sub).
      rewrite Hm at 3. rewrite N2Z.inj_add, N2Z.inj_mul. lia.
    + apply Forall_app. split; [done|]. constructor; [|done].
      assert (Hr : (n mod 10 < 10)%N) by (by apply N.mod_lt).
      remember (n mod 10)%N as r. unfold is_digit.
      apply andb_true_iff. split; apply N.leb_le; lia.
    + exists d, (ds ++ [(48 + n mod 10)%N]). split; [by rewrite Heq|].
      intros _. by apply Hnz.
Qed.

Lemma digits_of_bound (n : N) :
  (n < 10 ^ N.of_nat (S (N.to_nat (N.log2 n))))%N.
Proof.
  rewrite Nat2N.inj_succ, N2Nat.id.
  destruct (N.eq_dec n 0%N) as [->|Hn]; [by vm_compute|].
  destruct (N.log2_spec n ltac:(lia)) as [_ Hlt].
  eapply N.lt_le_trans; [exact Hlt|].
  apply N.pow_le_mono_l. lia.
Qed.

Lemma span_digits_app (ds rest : str) :
  Forall (fun c => is_digit c = true) ds →
  match rest with [] => True | c :: _ => is_digit c = false end →
  span_digits (ds ++ rest) = (ds, rest).
Proof.
  intros Hds Hrest. induction Hds as [|c ds Hc _ IH]; cbn [app span_digits].
  - destruct rest as [|c r]; [done|]. cbn [span_digits]. by rewrite Hrest.
  - by rewrite Hc, IH.
Qed.

Lemma delimited_not_number (rest : str) :
  delimited rest = true →
  match rest with [] => True | c :: _ => is_digit c = false end
  ∧ match_frac rest = ([], rest) ∧ match_exp rest = ([], rest).
Proof.
  destruct rest as [|c r]; [done|]. cbn [delimited].
  rewrite !orb_true_iff, !N.eqb_eq. by intros [[->| ->]| ->].
Qed.

Lemma match_number_digits (neg : bool) (n : N) (rest : str) :
  delimited rest = true →
  match_number ((if neg then [45%N] else []) ++ digits_of n ++ rest)
  = Some (JInt (if neg then (- Z.of_N n)%Z else Z.of_N n), rest).
Proof.
  intros Hrest.
  destruct (delimited_not_number rest Hrest) as (Hnd & Hfrac & Hexp).
  destruct (digits_fuel_spec _ n (Nat.lt_0_succ _) (digits_of_bound n))
    as (Hv & Hd & d & ds & Heq & Hnz).
  fold (digits_of n) in Hv, Hd, Heq.
  assert (Hd0 : is_digit d = true) by (rewrite Heq in Hd; by inversion Hd).
  assert (Hm : d ≠ 45%N) by (intros ->; by vm_compute in Hd0).
  assert (Hint : match_int ((if neg then [45%N] else []) ++ digits_of n ++ rest)
                 = Some (neg, digits_of n, rest)).
  { unfold match_int.
    assert (Hbody :
      match digits_of n ++ rest with
      | c :: r =>
          if (c =? 48)%N then Some (neg, [c], r)
          else if is_digit c
               then let (ds0, r') := span_digits r in Some (neg, c :: ds0, r')
               else None
      | [] => None
      end = Some (neg, digits_of n, rest)).
    { rewrite Heq. cbn [app]. destruct (N.eqb_spec d 48) as [->|Hne].
      - destruct (N.eq_dec n 0%N) as [->|Hn0]; [|by destruct (Hnz Hn0)].
        by vm_compute in Heq; simplify_eq.
      - rewrite Hd0.
        assert (Hds : Forall (fun c => is_digit c = true) ds)
          by (rewrite Heq in Hd; by inversion Hd).
        by rewrite (span_digits_app ds rest Hds Hnd). }
    destruct neg; cbn [app].
    - exact Hbody.
    - rewrite Heq in Hbody |- *. cbn [app] in Hbody |- *.
      destruct (N.eqb_spec d 45) as [->|_]; [done|exact Hbody]. }
  unfold match_number. rewrite Hint, Hfrac, Hexp, Hv. reflexivity.
Qed.

Lemma match_number_int_repr (z : Z) (rest : str) :
  delimited rest = true →
  match_number (int_repr z ++ rest) = Some (JInt z, rest).
Proof.
  intros Hrest. unfold int_repr. destruct (Z.ltb_spec z 0).
  - pose proof (match_number_digits true (Z.to_N (- z)) rest Hrest) as H1.
    cbn [app] in H1 |- *. rewrite H1. do 3 f_equal. lia.
  - pose proof (match_number_digits false (Z.to_N z) rest Hrest) as H1.
    cbn [app] in H1 |- *. rewrite H1. do 3 f_equal. lia.
Qed.

(** *** Strings *)

Lemma scanstring_escape_char (c : char) (tail acc : str) :
  scanstring (escape_char c ++ tail) acc = scanstring tail (c :: acc).
Proof.
  unfold escape_char.
  destruct (N.eqb_spec c 34) as [->|H34]; [reflexivity|].
  destruct (N.eqb_spec c 92) as [->|H92]; [reflexivity|].
  destruct (N.eqb_spec c 10) as [->|H10]; [reflexivity|].
  destruct (N.eqb_spec c 13) as [->|H13]; [reflexivity|].
  destruct (N.eqb_spec c 9) as [->|H9]; [reflexivity|].
  destruct (N.eqb_spec c 8) as [->|H8]; [reflexivity|].
  destruct (N.eqb_spec c 12) as [->|H12]; [reflexivity|].
  destruct (N.ltb_spec c 32) as [Hlt|Hge].
  - destruct c as [|p]; [reflexivity|].
    do 5 (try destruct p as [p|p|]); try lia; try done; reflexivity.
  - cbn [app scanstring].
    rewrite (proj2 (N.eqb_neq c 34) H34), (proj2 (N.eqb_neq c 92) H92).
    by rewrite (proj2 (N.ltb_ge c 32) Hge).
Qed.

Lemma scanstring_escape (s rest acc : str) :
  scanstring (escape s ++ 34%N :: rest) acc = Some (rev acc ++ s, rest).
Proof.
  revert acc. induction s as [|c s IH]; intros acc.
  - cbn. by rewrite app_nil_r.
  - unfold escape. cbn [flat_map]. rewrite <- app_assoc.
    rewrite scanstring_escape_char. fold (escape s). rewrite IH.
    cbn [rev]. by rewrite <- app_assoc.
Qed.

(** *** Dicts without a repeated key *)

Lemma dict_set_fresh (d : list (str * json)) (k : str) (v : json) :
  k ∉ List.map fst d → dict_set d k v = d ++ [(k, v)].
Proof.
  induction d as [|[k' v'] d IH]; intros Hk; [reflexivity|].
  cbn [dict_set app]. unfold str_eqb.
  rewrite bool_decide_eq_false_2.
  - rewrite IH; [done|]. intros ?. apply Hk. by right.
  - intros ->. apply Hk. by left.
Qed.

Lemma dict_of_pairs_from (acc ps : list (str * json)) :
  NoDup (List.map fst (acc ++ ps)) →
  fold_left (fun d kv => dict_set d (fst kv) (snd kv)) ps acc = acc ++ ps.
Proof.
  revert acc. induction ps as [|[k v] ps IH]; intros acc Hnd.
  - by rewrite app_nil_r.
  - cbn [fold_left fst snd].
    assert (Hk : k ∉ List.map fst acc).
    { rewrite map_app in Hnd. cbn [List.map fst] in Hnd.
      apply NoDup_app in Hnd as (_ & Hdis & _).
      intros Hin. apply (Hdis k Hin). by left. }
    rewrite (dict_set_fresh acc k v Hk), IH.
    + by rewrite <- app_assoc.
    + by rewrite <- app_assoc.
Qed.

Lemma dict_of_pairs_nodup (ps : list (str * json)) :
  NoDup (List.map fst ps) → dict_of_pairs ps = ps.
Proof. intros H. unfold dict_of_pairs. by rewrite dict_of_pairs_from. Qed.

(** *** Values *)

(** Induction on a value with the elements of its lists and dicts. *)
Lemma json_ind' (P : json → Prop) :
  P JNull → (∀ b, P (JBool b)) → (∀ z, P (JInt z)) → (∀ lx, P (JFloat lx)) →
  (∀ s, P (JStr s)) →
  (∀ l, Forall P l → P (JArr l)) →
  (∀ d, Forall (fun kv => P (snd kv)) d → P (JObj d)) →
  ∀ v, P v.
Proof.
  intros Hn Hb Hz Hf Hs Ha Ho. fix IH 1.
  intros [|b|z|lx|s|l|d]; [done..| |].
  - apply Ha. induction l as [|x l IHl]; constructor; [apply IH|apply IHl].
  - apply Ho. induction d as [|[k x] d IHd]; constructor; [apply IH|apply IHd].
Qed.

Lemma size_pos (v : json) : 0 < size v.
Proof. destruct v; simpl; lia. Qed.

Lemma int_repr_head (z : Z) :
  ∃ c r, int_repr z = c :: r ∧ (c = 45%N ∨ is_digit c = true).
Proof.
  unfold int_repr. destruct (z <? 0)%Z; [by eexists _, _; split; [|left]|].
  destruct (digits_fuel_spec _ (Z.to_N z) (Nat.lt_0_succ _)
              (digits_of_bound (Z.to_N z)))
    as (_ & Hd & d & ds & Heq & _).
  fold (digits_of (Z.to_N z)) in Hd, Heq. exists d, ds. split; [done|].
  right. rewrite Heq in Hd. by inversion Hd.
Qed.

Lemma int_repr_last (z : Z) :
  ∃ front b, int_repr z = front ++ [b] ∧ is_digit b = true.
Proof.
  assert (Hdig : ∀ n, ∃ front b, digits_of n = front ++ [b]
                                 ∧ is_digit b = true).
  { intros n.
    destruct (digits_fuel_spec _ n (Nat.lt_0_succ _) (digits_of_bound n))
      as (_ & Hd & d & ds & Heq & _).
    fold (digits_of n) in Hd, Heq.
    destruct (exists_last (l := digits_of n)) as (front & b & Hfb);
      [by rewrite Heq|].
    exists front, b. split; [done|].
    rewrite Hfb in Hd. apply Forall_app in Hd as [_ Hb]. by inversion Hb. }
  unfold int_repr. destruct (z <? 0)%Z.
  - destruct (Hdig (Z.to_N (- z))) as (front & b & -> & Hb).
    by exists (45%N :: front), b.
  - apply Hdig.
Qed.

Lemma digit_facts (c : char) :
  c = 45%N ∨ is_digit c = true →
  is_json_ws c = false ∧ isspace c = false
  ∧ (c =? 34)%N = false ∧ (c =? 123)%N = false ∧ (c =? 91)%N = false
  ∧ (c =? 93)%N = false
  ∧ (110 =? c)%N = false ∧ (116 =? c)%N = false ∧ (102 =? c)%N = false.
Proof.
  intros [->|Hd]; [by vm_compute|].
  unfold is_digit in Hd. apply andb_true_iff in Hd as [H1 H2].
  apply N.leb_le in H1, H2.
  unfold is_json_ws, isspace.
  repeat match goal with
         | |- context [N.eqb ?a ?b] =>
             destruct (N.eqb_spec a b); [lia|]
         | |- context [N.leb ?a ?b] =>
             destruct (N.leb_spec a b); try lia
         end;
    done.
Qed.

Lemma scan_once_int (f : nat) (z : Z) (rest : str) :
  delimited rest = true →
  scan_once (S f) (int_repr z ++ rest) = Scanned (JInt z) rest.
Proof.
  intros Hrest. pose proof (match_number_int_repr z rest Hrest) as Hm.
  destruct (int_repr_head z) as (c & r & Heq & Hc).
  rewrite Heq in Hm |- *. cbn [app] in Hm |- *.
  destruct (digit_facts c Hc)
    as (_ & _ & H34 & H123 & H91 & _ & Hn & Ht & Hf).
  cbn [scan_once]. rewrite H34, H123, H91.
  unfold scan_atom, keyword.
  change (lit "null") with (110%N :: lit "ull").
  change (lit "true") with (116%N :: lit "rue").
  change (lit "false") with (102%N :: lit "alse").
  cbn [strip_prefix]. rewrite Hn, Ht, Hf, Hm. reflexivity.
Qed.

(** The first character of what [json.dumps] writes. *)
Lemma dumps_head (v : json) :
  plain v = true →
  ∃ c r, dumps v = c :: r
         ∧ is_json_ws c = false ∧ isspace c = false ∧ (c =? 93)%N = false.
Proof.
  destruct v as [|[]|z|lx|s|l|d]; try (intros _; by eexists _, _); [|done].
  intros _. destruct (int_repr_head z) as (c & r & Heq & Hc).
  destruct (digit_facts c Hc) as (? & ? & _ & _ & _ & ? & _).
  by exists c, r.
Qed.

(** The last character of what [json.dumps] writes. *)
Lemma dumps_last (v : json) :
  plain v = true → ∃ front b, dumps v = front ++ [b] ∧ isspace b = false.
Proof.
  destruct v as [|[]|z|lx|s|l|d]; intros Hp; try done.
  - by exists (lit "nul"), 108%N.
  - by exists (lit "tru"), 101%N.
  - by exists (lit "fals"), 101%N.
  - destruct (int_repr_last z) as (front & b & Heq & Hb).
    exists front, b. split; [done|].
    destruct (digit_facts b (or_intror Hb)) as (_ & ? & _). done.
  - exists (34%N :: escape s), 34%N. by split.
  - eexists (91%N :: _), 93%N. by split.
  - eexists (123%N :: _), 125%N. by split.
Qed.

Lemma skip_ws_dumps (v : json) (rest : str) :
  plain v = true → skip_ws (dumps v ++ rest) = dumps v ++ rest.
Proof.
  intros Hp. destruct (dumps_head v Hp) as (c & r & -> & Hc & _).
  cbn [app skip_ws]. by rewrite Hc.
Qed.

Section Loops.
(** The loops of [JSONArray] and [JSONObject] on what [json.dumps]
    writes, over a scanner with budget [f] that reads back the
    elements. *)
Variable f : nat.

Local Abbreviation reads_back :=
  (fun v : json =>
     plain v = true
     ∧ ∀ rest, delimited rest = true →
         scan_once f (dumps v ++ rest) = Scanned v rest).

Local Abbreviation entry :=
  (fun kv : str * json =>
     encode_basestring (fst kv) ++ lit ": " ++ dumps (snd kv)).

Lemma array_items_dumps (l : list json) :
  ∀ (x : json) (acc : list json) (n : nat) (rest : str),
    Forall reads_back (x :: l) →
    length (x :: l) ≤ n →
    array_items (scan_once f) n
      (join (lit ", ") (List.map dumps (x :: l)) ++ 93%N :: rest) acc
    = Scanned (JArr (rev acc ++ x :: l)) rest.
Proof.
  induction l as [|y l IH]; intros x acc n rest Hall Hn;
    (destruct n as [|n]; [simpl in Hn; lia|]);
    apply Forall_cons in Hall as [[Hpx Hx] Hall].
  - cbn [List.map join array_items].
    rewrite (Hx (93%N :: rest) eq_refl). reflexivity.
  - cbn [List.map join]. rewrite <- !app_assoc.
    cbn [array_items].
    rewrite (Hx (lit ", " ++ _) eq_refl).
    change (skip_ws (lit ", " ++ ?t)) with (44%N :: 32%N :: t).
    cbv iota beta.
    change (44 =? 93)%N with false. change (44 =? 44)%N with true.
    cbv iota.
    change (skip_ws (32%N :: ?t)) with (skip_ws t).
    assert (Hsk : ∀ t,
      skip_ws (join (lit ", ") (dumps y :: List.map dumps l) ++ t)
      = join (lit ", ") (dumps y :: List.map dumps l) ++ t).
    { intros t. pose proof Hall as Hy. apply Forall_cons in Hy as [[Hpy _] _].
      destruct l as [|y' l']; cbn [List.map join]; rewrite <- ?app_assoc;
        by apply skip_ws_dumps. }
    rewrite Hsk.
    etrans; [apply (IH y (x :: acc) n rest Hall); simpl in Hn |- *; lia|].
    cbn [rev]. by rewrite <- app_assoc.
Qed.

Lemma object_items_dumps (d : list (str * json)) :
  ∀ (k : str) (x : json) (acc : list (str * json)) (n : nat) (rest : str),
    Forall reads_back (x :: List.map snd d) →
    length ((k, x) :: d) ≤ n →
    object_items (scan_once f) n
      (escape k ++ 34%N :: lit ": " ++ dumps x
       ++ match d with
          | [] => []
          | _ :: _ => lit ", " ++ join (lit ", ") (List.map entry d)
          end
       ++ 125%N :: rest) acc
    = Scanned (JObj (dict_of_pairs (rev acc ++ (k, x) :: d))) rest.
Proof.
  induction d as [|[k' y] d IH]; intros k x acc n rest Hall Hn;
    (destruct n as [|n]; [simpl in Hn; lia|]);
    apply Forall_cons in Hall as [[Hpx Hx] Hall].
  - cbn [object_items app]. rewrite scanstring_escape. cbn [rev app].
    change (skip_ws (lit ": " ++ ?t)) with (58%N :: 32%N :: t).
    cbv iota beta. change (58 =? 58)%N with true. cbv iota.
    change (skip_ws (32%N :: ?t)) with (skip_ws t).
    rewrite (skip_ws_dumps x _ Hpx).
    rewrite (Hx (125%N :: rest) eq_refl). reflexivity.
  - cbn [object_items]. rewrite scanstring_escape. cbn [rev app].
    change (skip_ws (lit ": " ++ ?t)) with (58%N :: 32%N :: t).
    cbv iota beta. change (58 =? 58)%N with true. cbv iota.
    change (skip_ws (32%N :: ?t)) with (skip_ws t).
    rewrite (skip_ws_dumps x _ Hpx).
    rewrite <- !app_assoc.
    rewrite (Hx (lit ", " ++ _) eq_refl).
    change (skip_ws (lit ", " ++ ?t)) with (44%N :: 32%N :: t).
    cbv iota beta.
    change (44 =? 125)%N with false. change (44 =? 44)%N with true.
    cbv iota.
    change (skip_ws (32%N :: ?t)) with (skip_ws t).
    cbn [List.map] in Hall |- *.
    assert (Hjoin : ∀ t,
      join (lit ", ") (entry (k', y) :: List.map entry d) ++ t
      = 34%N :: escape k' ++ 34%N :: lit ": " ++ dumps y
        ++ match d with
           | [] => []
           | _ :: _ => lit ", " ++ join (lit ", ") (List.map entry d)
           end
        ++ t).
    { intros t. unfold encode_basestring.
      destruct d as [|kv d']; cbn [List.map join fst snd];
        repeat (rewrite <- ?app_assoc; cbn [app]); reflexivity. }
    rewrite Hjoin. cbn [skip_ws is_json_ws].
    change ((34 =? 32) || (34 =? 9) || (34 =? 10) || (34 =? 13))%N with false.
    cbv iota. change (34 =? 34)%N with true. cbv iota.
    etrans; [apply (IH k' y ((k, x) :: acc) n rest Hall);
             simpl in Hn |- *; lia|].
    cbn [rev]. by rewrite <- app_assoc.
Qed.

End Loops.

Ltac sum_cons :=
  repeat change (list_sum (?a :: ?l)) with (a + list_sum l) in *;
  change (list_sum []) with 0 in *.

Lemma length_le_sum_size (l : list json) :
  length l ≤ list_sum (List.map size l).
Proof.
  induction l as [|v l IH]; [done|]. cbn [length List.map]. sum_cons.
  pose proof (size_pos v). lia.
Qed.

Lemma size_le_sum (v : json) (l : list json) :
  v ∈ l → size v ≤ list_sum (List.map size l).
Proof.
  induction 1 as [v l|v w l _ IH]; cbn [List.map]; sum_cons; lia.
Qed.

(** [json.loads] reads back a value without floats or repeated keys,
    given budget for its nodes. *)
Lemma scan_once_dumps (v : json) :
  plain v = true →
  ∀ (fuel : nat) (rest : str),
    size v ≤ fuel → delimited rest = true →
    scan_once fuel (dumps v ++ rest) = Scanned v rest.
Proof.
  induction v as [|b|z|lx|s|l IH|d IH] using json_ind';
    intros Hp fuel rest Hfuel Hrest;
    (destruct fuel as [|f]; [cbn [size] in Hfuel; lia|]).
  - reflexivity.
  - by destruct b.
  - by apply scan_once_int.
  - done.
  - cbn [dumps encode_basestring app scan_once].
    change (34 =? 34)%N with true. cbv iota.
    rewrite <- app_assoc. cbn [app]. by rewrite scanstring_escape.
  - destruct l as [|x l]; [reflexivity|].
    cbn [plain] in Hp. cbn [size] in Hfuel.
    assert (Hall : Forall
      (fun v => plain v = true
                ∧ ∀ rest, delimited rest = true →
                    scan_once f (dumps v ++ rest) = Scanned v rest) (x :: l)).
    { apply Forall_forall. intros v Hv.
      assert (Hpv : plain v = true).
      { rewrite forallb_forall in Hp. apply Hp. by apply list_elem_of_In. }
      split; [done|]. intros rest' Hrest'.
      rewrite Forall_forall in IH. apply (IH v Hv Hpv); [|done].
      pose proof (size_le_sum v (x :: l) Hv). lia. }
    pose proof (array_items_dumps f l x [] f rest Hall) as Harr.
    cbn [dumps app scan_once].
    change (91 =? 34)%N with false. change (91 =? 123)%N with false.
    change (91 =? 91)%N with true. cbv iota.
    rewrite <- app_assoc. cbn [app]. unfold JSONArray.
    assert (Hhead : ∃ c r,
      join (lit ", ") (List.map dumps (x :: l)) ++ 93%N :: rest = c :: r
      ∧ is_json_ws c = false ∧ (c =? 93)%N = false).
    { apply Forall_cons in Hall as [[Hpx _] _].
      destruct (dumps_head x Hpx) as (c & r & Heq & Hws & _ & H93).
      destruct l as [|y l']; cbn [List.map join]; rewrite Heq;
        eexists c, _; (split; [reflexivity|done]). }
    destruct Hhead as (c & r & Heq & Hws & H93).
    rewrite Heq in Harr |- *. cbn [skip_ws]. rewrite Hws, H93.
    apply Harr. pose proof (length_le_sum_size (x :: l)). lia.
  - destruct d as [|[k x] d]; [reflexivity|].
    cbn [plain] in Hp. apply andb_true_iff in Hp as [Hp Hnd].
    apply bool_decide_eq_true in Hnd. cbn [size] in Hfuel.
    assert (Hall : Forall
      (fun v => plain v = true
                ∧ ∀ rest, delimited rest = true →
                    scan_once f (dumps v ++ rest) = Scanned v rest)
      (x :: List.map snd d)).
    { change (x :: List.map snd d) with (List.map snd ((k, x) :: d)).
      apply Forall_forall. intros v Hv.
      apply list_elem_of_In, in_map_iff in Hv as ([k' v'] & <- & Hin).
      cbn [snd].
      assert (Hpv : plain v' = true).
      { rewrite forallb_forall in Hp. apply (Hp (k', v') Hin). }
      split; [done|]. intros rest' Hrest'.
      rewrite Forall_forall in IH.
      apply (IH (k', v') (proj2 (list_elem_of_In _ _) Hin) Hpv); [|done].
      cbn [snd].
      assert (Hle : size v' ≤ list_sum (List.map size
                                          (List.map snd ((k, x) :: d)))).
      { apply size_le_sum, list_elem_of_In, in_map_iff. by exists (k', v'). }
      rewrite map_map in Hle. lia. }
    pose proof (object_items_dumps f d k x [] f rest Hall) as Hobj.
    cbn [dumps app scan_once].
    change (123 =? 34)%N with false. change (123 =? 123)%N with true.
    cbv iota. rewrite <- app_assoc. cbn [app]. unfold JSONObject.
    assert (Hjoin :
      join (lit ", ")
        (List.map (fun kv => encode_basestring (fst kv) ++ lit ": "
                             ++ dumps (snd kv)) ((k, x) :: d))
      ++ 125%N :: rest
      = 34%N :: escape k ++ 34%N :: lit ": " ++ dumps x
        ++ match d with
           | [] => []
           | _ :: _ =>
               lit ", "
               ++ join (lit ", ")
                    (List.map (fun kv => encode_basestring (fst kv)
                                         ++ lit ": " ++ dumps (snd kv)) d)
           end
        ++ 125%N :: rest).
    { unfold encode_basestring.
      destruct d as [|kv d']; cbn [List.map join fst snd];
        repeat (rewrite <- ?app_assoc; cbn [app]); reflexivity. }
    rewrite Hjoin. cbn [skip_ws is_json_ws].
    change ((34 =? 32) || (34 =? 9) || (34 =? 10) || (34 =? 13))%N with false.
    cbv iota. change (34 =? 125)%N with false. change (34 =? 34)%N with true.
    cbv iota.
    etrans; [apply Hobj|].
    + pose proof (length_le_sum_size (List.map snd ((k, x) :: d))) as Hlen.
      rewrite length_map, map_map in Hlen. lia.
    + cbn [rev app]. by rewrite dict_of_pairs_nodup.
Qed.

Lemma join_length (sep : str) (ps : list str) :
  list_sum (List.map length ps) ≤ length (join sep ps).
Proof.
  induction ps as [|p ps IH]; [done|].
  destruct ps as [|q ps].
  - cbn [List.map join]. sum_cons. lia.
  - change (join sep (p :: q :: ps)) with (p ++ sep ++ join sep (q :: ps)).
    rewrite !length_app. cbn [List.map] in IH |- *. sum_cons. lia.
Qed.

Lemma list_sum_le {A} (g h : A → nat) (l : list A) :
  Forall (fun x => g x ≤ h x) l →
  list_sum (List.map g l) ≤ list_sum (List.map h l).
Proof.
  induction 1 as [|x l Hx _ IH]; [done|]. cbn [List.map]. sum_cons. lia.
Qed.

Lemma size_le_dumps (v : json) : plain v = true → size v ≤ length (dumps v).
Proof.
  induction v as [|b|z|lx|s|l IH|d IH] using json_ind'; intros Hp;
    try done.
  - cbn. lia.
  - destruct b; cbn; lia.
  - destruct (int_repr_head z) as (c & r & Heq & _).
    cbn [size dumps]. rewrite Heq. simpl. lia.
  - cbn [size dumps encode_basestring length]. lia.
  - cbn [size dumps length]. rewrite length_app.
    pose proof (join_length (lit ", ") (List.map dumps l)) as Hj.
    rewrite map_map in Hj.
    assert (Hle : list_sum (List.map size l)
                  ≤ list_sum (List.map (fun x => length (dumps x)) l)).
    { apply list_sum_le. cbn [plain] in Hp. rewrite forallb_forall in Hp.
      rewrite Forall_forall in IH |- *. intros x Hx.
      apply (IH x Hx), Hp. by apply list_elem_of_In. }
    lia.
  - cbn [size dumps length]. rewrite length_app.
    pose proof (join_length (lit ", ")
      (List.map (fun kv => encode_basestring (fst kv) ++ lit ": "
                           ++ dumps (snd kv)) d)) as Hj.
    rewrite map_map in Hj.
    assert (Hle : list_sum (List.map (fun kv => size (snd kv)) d)
                  ≤ list_sum (List.map
                      (fun kv => length (encode_basestring (fst kv)
                                         ++ lit ": " ++ dumps (snd kv))) d)).
    { apply list_sum_le. cbn [plain] in Hp.
      apply andb_true_iff in Hp as [Hp _]. rewrite forallb_forall in Hp.
      rewrite Forall_forall in IH |- *. intros kv Hkv.
      rewrite !length_app.
      pose proof (IH kv Hkv (Hp kv (proj1 (list_elem_of_In _ _) Hkv))).
      lia. }
    lia.
Qed.

Lemma loads_dumps (v : json) : plain v = true → loads (dumps v) = Some v.
Proof.
  intros Hp. unfold loads.
  pose proof (skip_ws_dumps v [] Hp) as Hsk. rewrite app_nil_r in Hsk.
  rewrite Hsk.
  pose proof (scan_once_dumps v Hp (S (length (dumps v))) [] ) as Hscan.
  rewrite app_nil_r in Hscan. rewrite Hscan; [reflexivity| |reflexivity].
  pose proof (size_le_dumps v Hp). lia.
Qed.

Lemma strip_dumps (v : json) : plain v = true → strip (dumps v) = dumps v.
Proof.
  intros Hp. unfold strip.
  destruct (dumps_head v Hp) as (c & r & Heq & _ & Hc & _).
  destruct (dumps_last v Hp) as (front & b & Heq' & Hb).
  rewrite Heq at 1. cbn [lstrip]. rewrite Hc, <- Heq, Heq'.
  rewrite (rstrip_app_nonspace [] b front Hb). reflexivity.
Qed.

(** X19. [parse_json_str] reads back what [json.dumps] writes: for
    every JSON value without floats and within the bounds of the
    interpreter (integers of at most 4300 digits, at most 100 levels of
    nesting), the text that [json.dumps(v, ensure_ascii=False)] gives
    for it, which is how the steps put their payload into the prompt,
    is parsed to that value, strings with quotes, backslashes and
    control characters, negative integers and nested lists and dicts
    included. *)
Theorem parse_json_str_reads_dumps (v : json) :
  plain v = true → within_limits v = true →
  loads (dumps v) = Some v ∧ parse_json_str (dumps v) = Ok v.
Proof.
  intros Hp _. split; [by apply loads_dumps|].
  unfold parse_json_str, direct_attempt.
  by rewrite (strip_dumps v Hp), (loads_dumps v Hp).
Qed.

Lemma parse_json_str_reads_dumps_witness :
  let v := JObj [(lit "brief", JObj [(lit "tone", JStr (js "say 'hi'"))]);
                 (lit "ideas", JArr [JInt (-12); JBool true; JNull;
                                     JStr [9%N; 92%N; 1%N]])] in
  loads (dumps v) = Some v ∧ parse_json_str (dumps v) = Ok v.
Proof.
  intros v. apply (parse_json_str_reads_dumps v); by vm_compute.
Defined.

(** ** The blocks of the page *)

Lemma selected_labels (ideas : list json) :
  label_key <$> selected ideas `sublist_of` [lit "A"; lit "B"; lit "C"].
Proof.
  unfold selected. cbn [omap list_omap].
  destruct (last_labelled (lit "A") ideas) as [a|] eqn:Ea;
    destruct (last_labelled (lit "B") ideas) as [b|] eqn:Eb;
    destruct (last_labelled (lit "C") ideas) as [c|] eqn:Ec;
    repeat match goal with
           | H : last_labelled _ ideas = Some _ |- _ =>
               apply last_labelled_spec in H as [_ H]
           end;
    cbn [option_list app fmap list_fmap];
    rewrite ?Ea, ?Eb, ?Ec;
    repeat first [ apply sublist_nil
                 | apply sublist_skip
                 | apply sublist_cons ].
Qed.

(** X20. The page is made of at most three blocks, headed Option A,
    Option B and Option C in this order, each at most once: the labels
    of the blocks form a sublist of A, B, C. *)
Theorem presenter_blocks_in_label_order (ideas : list json) :
  Forall (fun idea => labelled idea = true) ideas →
  Forall (fun idea => is_idea idea = true) (selected ideas) →
  ∃ shown_ideas : list json,
    step_final_presenter ideas
    = Ok (join [newline; newline]
            (List.map (fun idea => block (label_key idea) idea) shown_ideas))
    ∧ label_key <$> shown_ideas `sublist_of` [lit "A"; lit "B"; lit "C"]
    ∧ length shown_ideas ≤ 3.
Proof.
  intros Hl Hs. exists (selected ideas). split; [|split].
  - exact (presenter_presented_selected ideas Hl Hs).
  - apply selected_labels.
  - pose proof (sublist_length _ _ (selected_labels ideas)) as H.
    rewrite length_fmap in H. exact H.
Qed.

Lemma presenter_blocks_in_label_order_witness :
  ∃ shown_ideas : list json,
    step_final_presenter [idea_B; idea_A_broken; idea_a]
    = Ok (join [newline; newline]
            (List.map (fun idea => block (label_key idea) idea) shown_ideas))
    ∧ label_key <$> shown_ideas `sublist_of` [lit "A"; lit "B"; lit "C"]
    ∧ length shown_ideas ≤ 3.
Proof.
  apply (presenter_blocks_in_label_order [idea_B; idea_A_broken; idea_a]);
    repeat constructor.
Defined.

(** ** What each step is sent *)

(** X21. In a run of the pipeline whose steps all return dicts, each
    step is sent the declared values only: step 1 the five fields of
    the form; step 2 the brief and its context; step 3 the brief, the
    "market_insights" entry of step 2 and its context; step 4 the brief
    and the "angles" entry of step 3; steps 5 and 6 the brief and the
    "ideas" entry of the step before; step 7 the "language" and "tone"
    entries of the brief and the "ideas" entry of step 6.  The pipeline
    returns what step 7 returns. *)
Theorem pipeline_data_flow (m : model) (ctx2 ctx3 : context) (f : form)
    (a : str) (brief insights angles ideas improved compliant :
                 list (str * json)) (localized : json) :
  let rq1 :=
    {| role := BriefNormalizer;
       payload := JObj [(lit "product", JStr (product f));
                        (lit "description", JStr (description f));
                        (lit "audience", JStr a);
                        (lit "tone", JStr (tone f));
                        (lit "language", JStr (language f))];
       temperature := 40 |} in
  let rq2 :=
    {| role := MarketIntelligence;
       payload := JObj [(lit "brief", JObj brief);
                        (lit "current_context", context_dict ctx2)];
       temperature := 60 |} in
  let rq3 :=
    {| role := AngleGenerator;
       payload :=
         JObj [(lit "brief", JObj brief);
               (lit "market_insights",
                default (JObj []) (dict_get insights (lit "market_insights")));
               (lit "current_context", context_dict ctx3)];
       temperature := 70 |} in
  let rq4 :=
    {| role := IdeaWriter;
       payload :=
         JObj [(lit "brief", JObj brief);
               (lit "angles",
                default (JArr []) (dict_get angles (lit "angles")))];
       temperature := 85 |} in
  let rq5 :=
    {| role := CriticImprove;
       payload :=
         JObj [(lit "brief", JObj brief);
               (lit "ideas", default (JArr []) (dict_get ideas (lit "ideas")))];
       temperature := 60 |} in
  let rq6 :=
    {| role := ComplianceCheck;
       payload :=
         JObj [(lit "brief", JObj brief);
               (lit "ideas",
                default (JArr []) (dict_get improved (lit "ideas")))];
       temperature := 40 |} in
  let rq7 :=
    {| role := LocalizePolish;
       payload :=
         JObj [(lit "language",
                default (JStr (lit "English"))
                  (dict_get brief (lit "language")));
               (lit "tone", default (JStr []) (dict_get brief (lit "tone")));
               (lit "ideas",
                default (JArr []) (dict_get compliant (lit "ideas")))];
       temperature := 50 |} in
  outcome (call_gemini_json m rq1) = Return (JObj brief) →
  outcome (call_gemini_json m rq2) = Return (JObj insights) →
  outcome (call_gemini_json m rq3) = Return (JObj angles) →
  outcome (call_gemini_json m rq4) = Return (JObj ideas) →
  outcome (call_gemini_json m rq5) = Return (JObj improved) →
  outcome (call_gemini_json m rq6) = Return (JObj compliant) →
  outcome (call_gemini_json m rq7) = Return localized →
  requests (events (pipeline m ctx2 ctx3 f a))
  = [rq1; rq2; rq3; rq4; rq5; rq6; rq7]
  ∧ outcome (pipeline m ctx2 ctx3 f a) = Return localized.
Proof.
  intros rq1 rq2 rq3 rq4 rq5 rq6 rq7 H1 H2 H3 H4 H5 H6 H7.
  unfold pipeline.
  rewrite !requests_bind, !outcome_bind, !requests_spinner, !outcome_spinner.
  unfold step_brief_normalizer. fold rq1.
  rewrite requests_call_gemini_json, H1.
  rewrite !requests_bind, !outcome_bind, !requests_spinner, !outcome_spinner.
  unfold step_market_intelligence. fold rq2.
  rewrite requests_call_gemini_json, H2.
  rewrite !requests_bind, !outcome_bind, !requests_spinner, !outcome_spinner.
  unfold step_angle_generator. cbn [get]. rewrite bind_lift_ok. fold rq3.
  rewrite requests_call_gemini_json, H3.
  rewrite !requests_bind, !outcome_bind, !requests_spinner, !outcome_spinner.
  unfold step_idea_writer. cbn [get]. rewrite bind_lift_ok. fold rq4.
  rewrite requests_call_gemini_json, H4.
  rewrite !requests_bind, !outcome_bind, !requests_spinner, !outcome_spinner.
  unfold step_critic_improve. cbn [get]. rewrite bind_lift_ok. fold rq5.
  rewrite requests_call_gemini_json, H5.
  rewrite !requests_bind, !outcome_bind, !requests_spinner, !outcome_spinner.
  unfold step_compliance_check. cbn [get]. rewrite bind_lift_ok. fold rq6.
  rewrite requests_call_gemini_json, H6.
  rewrite !requests_spinner, !outcome_spinner.
  unfold step_localize_polish. cbn [get]. rewrite !bind_lift_ok. fold rq7.
  rewrite requests_call_gemini_json, H7.
  by split.
Qed.

Lemma pipeline_data_flow_witness :
  let r := pipeline answers_by_role october october smart_bottle (lit "KSA") in
  List.map payload (requests (events r))
  = [JObj [(lit "product", JStr (lit "Smart Bottle"));
           (lit "description", JStr (lit "Tracks hydration"));
           (lit "audience", JStr (lit "KSA"));
           (lit "tone", JStr (lit "friendly"));
           (lit "language", JStr (lit "English"))];
     JObj [(lit "brief", JObj [(lit "language", JStr (lit "Arabic"));
                               (lit "tone", JStr (lit "warm"))]);
           (lit "current_context", context_dict october)];
     JObj [(lit "brief", JObj [(lit "language", JStr (lit "Arabic"));
                               (lit "tone", JStr (lit "warm"))]);
           (lit "market_insights",
            JObj [(lit "local_trends", JArr [JStr (lit "tea")])]);
           (lit "current_context", context_dict october)];
     JObj [(lit "brief", JObj [(lit "language", JStr (lit "Arabic"));
                               (lit "tone", JStr (lit "warm"))]);
           (lit "angles", JArr [JObj [(lit "id", JStr (lit "1"))]])];
     JObj ((lit "brief", JObj [(lit "language", JStr (lit "Arabic"));
                               (lit "tone", JStr (lit "warm"))])
           :: one_idea "draft");
     JObj ((lit "brief", JObj [(lit "language", JStr (lit "Arabic"));
                               (lit "tone", JStr (lit "warm"))])
           :: one_idea "better");
     JObj ((lit "language", JStr (lit "Arabic"))
           :: (lit "tone", JStr (lit "warm")) :: one_idea "safe")]
  ∧ outcome r = Return (JObj (one_idea "final")).
Proof.
  pose proof (pipeline_data_flow answers_by_role october october smart_bottle
                (lit "KSA")
                [(lit "language", JStr (lit "Arabic"));
                 (lit "tone", JStr (lit "warm"))]
                [(lit "market_insights",
                  JObj [(lit "local_trends", JArr [JStr (lit "tea")])])]
                [(lit "angles", JArr [JObj [(lit "id", JStr (lit "1"))]])]
                (one_idea "draft") (one_idea "better") (one_idea "safe")
                (JObj (one_idea "final"))) as H.
  cbv zeta in H.
  destruct H as [Hrq Hout]; [by vm_compute ..|].
  cbv zeta. split; [|exact Hout].
  rewrite Hrq. by vm_compute.
Defined.
